(** * Off-policy estimators of obp/ope/estimators.py

    A shallow embedding of the estimator family (Replay Method, IPW, SNIPW,
    DM, DR, SNDR, Switch-DR, DRos, Balanced IPW) and of the small fragment
    of Python and numpy they are written in.

    Numbers.  A float64 is idealised as an exact rational ([Qc], canonical
    rationals with Leibniz equality): rounding is not modelled.  A division
    whose divisor is zero, and the mean of an empty array, produce inf or
    nan in numpy (with a warning, not an exception); the model stops there
    with the failure [NonFinite] and does not follow the non-finite value
    any further.  Only the hyperparameter [lambda_] can be +infinity. *)

From Stdlib Require Import String List ZArith QArith Qcanon Bool Lia.
Import ListNotations.

Set Implicit Arguments.

(** ** Outcomes of a Python call *)

Module Outcome.

(** The Python exceptions the code can meet, and two ways of leaving the
    domain of the model: a non-finite number, and an array that is not of
    rank 1 where a vector of rounds is expected. *)
Inductive failure : Set :=
| TypeError
| ValueError
| IndexError
| ZeroDivisionError
| NonFinite
| WrongRank.

Inductive outcome (A : Type) : Type :=
| Ok (a : A)
| Fail (f : failure).

Arguments Ok {A} a.
Arguments Fail {A} f.

Definition bind {A B : Type} (m : outcome A) (k : A -> outcome B) : outcome B :=
  match m with
  | Ok a => k a
  | Fail f => Fail f
  end.

Definition fmap {A B : Type} (g : A -> B) (m : outcome A) : outcome B :=
  bind m (fun a => Ok (g a)).

Fixpoint mapM {A B : Type} (k : A -> outcome B) (l : list A) : outcome (list B) :=
  match l with
  | [] => Ok []
  | x :: l' =>
      bind (k x) (fun y => bind (mapM k l') (fun ys => Ok (y :: ys)))
  end.

Definition is_ok {A : Type} (m : outcome A) : bool :=
  match m with
  | Ok _ => true
  | Fail _ => false
  end.

End Outcome.

Export Outcome.

Declare Scope outcome_scope.
Delimit Scope outcome_scope with outcome.
Notation "x <- m ;; k" := (bind m (fun x => k))
  (at level 61, m at next level, right associativity) : outcome_scope.
Notation "m ;;; k" := (bind m (fun _ => k))
  (at level 61, right associativity) : outcome_scope.
Open Scope outcome_scope.

(** ** Numbers *)

Module Num.

Local Open Scope Qc_scope.

Definition Qceqb (x y : Qc) : bool := Qeq_bool x y.
Definition Qcleb (x y : Qc) : bool := Qle_bool x y.
Definition Qcltb (x y : Qc) : bool := negb (Qle_bool y x).

(** [lambda_] after construction: a rational or +infinity. *)
Inductive ext : Set :=
| Fin (q : Qc)
| PInf.

(** [x <= lambda_]. *)
Definition le_ext (x : Qc) (l : ext) : bool :=
  match l with
  | Fin q => Qcleb x q
  | PInf => true
  end.

(** [min(x, lambda_)] on one entry. *)
Definition min_ext (x : Qc) (l : ext) : Qc :=
  match l with
  | Fin q => if Qcleb x q then x else q
  | PInf => x
  end.

(** Float division: a zero divisor leaves the model. *)
Definition fdiv (x y : Qc) : outcome Qc :=
  if Qceqb y 0 then Fail NonFinite else Ok (x / y).

Definition sum (v : list Qc) : Qc := fold_right Qcplus 0 v.

Definition of_nat (n : nat) : Qc := Q2Qc (inject_Z (Z.of_nat n)).

End Num.

Export Num.

(** ** The numpy fragment *)

Module Np.

Local Open Scope Qc_scope.

Definition vec : Type := list Qc.

(** A rank-3 ndarray: its shape and its entries.  Rectangular by
    construction, as a numpy array is. *)
Record ndarray3 : Type := {
  shape0 : nat;
  shape1 : nat;
  shape2 : nat;
  at3 : nat -> nat -> nat -> Qc
}.

(** Build a rank-3 array of a given shape from nested lists. *)
Definition of_lists (n0 n1 n2 : nat) (l : list (list (list Qc))) : ndarray3 :=
  {| shape0 := n0; shape1 := n1; shape2 := n2;
     at3 := fun t a p => nth p (nth a (nth t l []) []) 0 |}.

(** [np.zeros(n, dtype=int)] and [np.arange(n)]. *)
Definition zeros (n : nat) : list Z := repeat 0%Z n.
Definition arange (n : nat) : list Z := map Z.of_nat (seq 0 n).

(** One integer index into an axis of length [len]: negative indices count
    from the end, anything else out of range raises IndexError. *)
Definition index (len : nat) (i : Z) : outcome nat :=
  if (0 <=? i)%Z then
    if (i <? Z.of_nat len)%Z then Ok (Z.to_nat i) else Fail IndexError
  else
    if (- Z.of_nat len <=? i)%Z then Ok (Z.to_nat (Z.of_nat len + i))
    else Fail IndexError.

(** Broadcasting of two rank-1 arrays: equal lengths pair up, an array of
    length one is repeated, anything else fails with [err]. *)
Definition broadcast {A B : Type} (err : failure) (xs : list A) (ys : list B)
  : outcome (list (A * B)) :=
  if Nat.eqb (length xs) (length ys) then Ok (combine xs ys)
  else match xs, ys with
       | [x], _ => Ok (map (fun y => (x, y)) ys)
       | _, [y] => Ok (map (fun x => (x, y)) xs)
       | _, _ => Fail err
       end.

(** [a[rounds, action, position]] with three index arrays. *)
Definition get3 (a : ndarray3) (t i p : Z) : outcome Qc :=
  t' <- index (shape0 a) t ;;
  i' <- index (shape1 a) i ;;
  p' <- index (shape2 a) p ;;
  Ok (at3 a t' i' p').

Definition take3 (a : ndarray3) (rounds action position : list Z) : outcome vec :=
  ra <- broadcast IndexError rounds action ;;
  rap <- broadcast IndexError ra position ;;
  mapM (fun x => get3 a (fst (fst x)) (snd (fst x)) (snd x)) rap.

(** [a[rounds, :, position]]: one row over the action axis per round. *)
Definition row3 (a : ndarray3) (t p : Z) : outcome vec :=
  t' <- index (shape0 a) t ;;
  p' <- index (shape2 a) p ;;
  Ok (map (fun i => at3 a t' i p') (seq 0 (shape1 a))).

Definition slice3 (a : ndarray3) (rounds position : list Z) : outcome (list vec) :=
  rp <- broadcast IndexError rounds position ;;
  mapM (fun x => row3 a (fst x) (snd x)) rp.

(** Element-wise arithmetic of rank-1 arrays. *)
Definition mul (xs ys : vec) : outcome vec :=
  fmap (map (fun x => fst x * snd x)) (broadcast ValueError xs ys).

Definition sub (xs ys : vec) : outcome vec :=
  fmap (map (fun x => fst x - snd x)) (broadcast ValueError xs ys).

Definition div (xs ys : vec) : outcome vec :=
  xy <- broadcast ValueError xs ys ;;
  mapM (fun x => fdiv (fst x) (snd x)) xy.

(** An array divided by a scalar. *)
Definition div_scalar (xs : vec) (y : Qc) : outcome vec :=
  mapM (fun x => fdiv x y) xs.

(** [np.minimum(iw, lambda_)]. *)
Definition minimum (xs : vec) (l : ext) : vec := map (fun x => min_ext x l) xs.

(** [v.mean()]: nan on an empty array. *)
Definition mean (v : vec) : outcome Qc :=
  match v with
  | [] => Fail NonFinite
  | _ => Ok (sum v / of_nat (length v))
  end.

(** [np.average(q, weights=w, axis=1)] on two rank-2 arrays: shapes must
    agree, and a row of weights summing to zero raises ZeroDivisionError. *)
Definition average_row (q w : vec) : outcome Qc :=
  if Nat.eqb (length q) (length w) then
    let scl := sum w in
    if Qceqb scl 0 then Fail ZeroDivisionError
    else Ok (sum (map (fun x => fst x * snd x) (combine q w)) / scl)
  else Fail TypeError.

Definition average (q w : list vec) : outcome vec :=
  if Nat.eqb (length q) (length w) then
    mapM (fun x => average_row (fst x) (snd x)) (combine q w)
  else Fail TypeError.

End Np.

Export Np.

(** In-place [xs += ys]: the left operand keeps its shape, so only the
    right operand may be broadcast. *)
Definition iadd (xs ys : vec) : outcome vec :=
  if Nat.eqb (length xs) (length ys) then
    Ok (map (fun x => (fst x + snd x)%Qc) (combine xs ys))
  else match ys with
       | [y] => Ok (map (fun x => (x + y)%Qc) xs)
       | _ => Fail ValueError
       end.

(** ** The fragment on rank-3 arrays

    [position=None] used as an index is [numpy.newaxis]: the arrays that
    SNDR, Switch-DR and DRos then compute have rank 3, and the rank-1
    arrays [reward] and [pscore] are broadcast against their last axis. *)

Module Np3.

Local Open Scope Qc_scope.

(** A rank-1 array of length [n] broadcasts as an array of shape
    [(1, 1, n)]: numpy aligns shapes on the last axis. *)
Definition lift (v : vec) : ndarray3 :=
  {| shape0 := 1; shape1 := 1; shape2 := length v;
     at3 := fun _ _ j => nth j v 0 |}.

(** Two axes broadcast when they are equal or one of them is 1. *)
Definition axis (a b : nat) : outcome nat :=
  if Nat.eqb a b then Ok a
  else if Nat.eqb a 1 then Ok b
  else if Nat.eqb b 1 then Ok a
  else Fail ValueError.

(** The index read on an axis of length [len] for the index [i] of the
    broadcast result: an axis of length 1 is repeated. *)
Definition pick (len i : nat) : nat := if Nat.eqb len 1 then 0%nat else i.

Definition broadcast3 (f : Qc -> Qc -> Qc) (a b : ndarray3) : outcome ndarray3 :=
  s0 <- axis (shape0 a) (shape0 b) ;;
  s1 <- axis (shape1 a) (shape1 b) ;;
  s2 <- axis (shape2 a) (shape2 b) ;;
  Ok {| shape0 := s0; shape1 := s1; shape2 := s2;
        at3 := fun t i j =>
          f (at3 a (pick (shape0 a) t) (pick (shape1 a) i) (pick (shape2 a) j))
            (at3 b (pick (shape0 b) t) (pick (shape1 b) i) (pick (shape2 b) j)) |}.

(** The entries in row-major order. *)
Definition entries (a : ndarray3) : vec :=
  flat_map (fun t =>
    flat_map (fun i => map (fun j => at3 a t i j) (seq 0 (shape2 a)))
      (seq 0 (shape1 a)))
    (seq 0 (shape0 a)).

Definition map3 (f : Qc -> Qc) (a : ndarray3) : ndarray3 :=
  {| shape0 := shape0 a; shape1 := shape1 a; shape2 := shape2 a;
     at3 := fun t i j => f (at3 a t i j) |}.

Definition mul3 (a b : ndarray3) : outcome ndarray3 := broadcast3 Qcmult a b.
Definition sub3 (a b : ndarray3) : outcome ndarray3 := broadcast3 Qcminus a b.

(** Division: a zero among the broadcast divisors leaves the model, as
    [fdiv] does. *)
Definition div3 (a b : ndarray3) : outcome ndarray3 :=
  d <- broadcast3 (fun _ y => y) a b ;;
  if existsb (fun y => Qceqb y 0) (entries d) then Fail NonFinite
  else broadcast3 Qcdiv a b.

Definition div_scalar3 (a : ndarray3) (y : Qc) : outcome ndarray3 :=
  mapM (fun x => fdiv x y) (entries a) ;;;
  Ok (map3 (fun x => x / y) a).

(** [a.mean()], over all the entries. *)
Definition mean3 (a : ndarray3) : outcome Qc := mean (entries a).

Definition same_shape3 (a b : ndarray3) : bool :=
  (Nat.eqb (shape0 a) (shape0 b) && Nat.eqb (shape1 a) (shape1 b)
   && Nat.eqb (shape2 a) (shape2 b))%bool.

(** In-place [x += y]: numpy raises ValueError unless the broadcast of
    the two has the shape of [x]. *)
Definition iadd3 (x y : ndarray3) : outcome ndarray3 :=
  c <- broadcast3 Qcplus x y ;;
  if same_shape3 c x then Ok c else Fail ValueError.

(** [a[rounds, action, None]]: the two index arrays give the first axis,
    None adds an axis of length 1, the last axis of [a] stays. *)
Definition take3_newaxis (a : ndarray3) (rounds action : list Z)
  : outcome ndarray3 :=
  ra <- broadcast IndexError rounds action ;;
  idx <- mapM (fun x => t <- index (shape0 a) (fst x) ;;
                        i <- index (shape1 a) (snd x) ;;
                        Ok (t, i)) ra ;;
  Ok {| shape0 := length idx; shape1 := 1; shape2 := shape2 a;
        at3 := fun t _ j =>
          at3 a (fst (nth t idx (0%nat, 0%nat))) (snd (nth t idx (0%nat, 0%nat))) j |}.

(** [a[rounds, :, None]], of shape [(n, k, 1, l)]: the axis of length 1
    that None adds is left implicit, the array is kept as one of shape
    [(n, k, l)]. *)
Definition slice3_newaxis (a : ndarray3) (rounds : list Z) : outcome ndarray3 :=
  idx <- mapM (index (shape0 a)) rounds ;;
  Ok {| shape0 := length idx; shape1 := shape1 a; shape2 := shape2 a;
        at3 := fun t i j => at3 a (nth t idx 0%nat) i j |}.

(** [np.average(q, weights=w, axis=1)] on two such arrays: the shapes must
    agree, weights summing to zero along the axis raise ZeroDivisionError,
    and the result has shape [(n, 1, l)]. *)
Definition average3 (q w : ndarray3) : outcome ndarray3 :=
  if same_shape3 q w then
    let scl := fun t j => sum (map (fun i => at3 w t i j) (seq 0 (shape1 w))) in
    if existsb (fun t => existsb (fun j => Qceqb (scl t j) 0) (seq 0 (shape2 w)))
         (seq 0 (shape0 w))
    then Fail ZeroDivisionError
    else Ok {| shape0 := shape0 q; shape1 := 1; shape2 := shape2 q;
               at3 := fun t _ j =>
                 sum (map (fun i => at3 q t i j * at3 w t i j) (seq 0 (shape1 q)))
                 / scl t j |}
  else Fail TypeError.

End Np3.

Export Np3.

(** ** Python values reaching a constructor *)

Module Py.

Inductive pyfloat : Set :=
| Finite (q : Qc)
| PosInf
| NegInf
| NaN.

Inductive pyobj : Set :=
| PyNone
| PyBool (b : bool)
| PyInt (z : Z)
| PyFloat (f : pyfloat)
| PyStr (s : string).

(** [isinstance(x, bool)] and [isinstance(x, (int, float))]; a Python bool
    is an int. *)
Definition is_bool (x : pyobj) : bool :=
  match x with
  | PyBool _ => true
  | _ => false
  end.

Definition is_int_or_float (x : pyobj) : bool :=
  match x with
  | PyBool _ | PyInt _ | PyFloat _ => true
  | _ => false
  end.

(** [x < 0.0] on a number; every comparison with nan is false. *)
Definition lt_zero (x : pyobj) : bool :=
  match x with
  | PyInt z => (z <? 0)%Z
  | PyFloat (Finite q) => Qcltb q 0
  | PyFloat NegInf => true
  | _ => false
  end.

(** [x != x]: true of nan alone. *)
Definition ne_self (x : pyobj) : bool :=
  match x with
  | PyFloat NaN => true
  | _ => false
  end.

(** Truth value, as [if self.use_estimated_pscore:] takes it. *)
Definition truthy (x : pyobj) : bool :=
  match x with
  | PyNone => false
  | PyBool b => b
  | PyInt z => negb (z =? 0)%Z
  | PyFloat (Finite q) => negb (Qceqb q 0)
  | PyFloat _ => true
  | PyStr s => negb (String.eqb s EmptyString)
  end.

(** The number a validated [lambda_] stands for in arithmetic. *)
Definition to_ext (x : pyobj) : ext :=
  match x with
  | PyBool b => Fin (if b then 1 else 0)%Qc
  | PyInt z => Fin (Q2Qc (inject_Z z))
  | PyFloat (Finite q) => Fin q
  | _ => PInf
  end.

(** [sklearn.utils.check_scalar(x, name, target_type=(int, float),
    min_val=0.0)] as the library documents it: TypeError unless [x] is an
    instance of the target type, ValueError when [x < min_val]. *)
Definition check_scalar (x : pyobj) : outcome unit :=
  if negb (is_int_or_float x) then Fail TypeError
  else if lt_zero x then Fail ValueError
  else Ok tt.

(** A [lambda_] the spec wants refused: not an int or a float, negative,
    or nan. *)
Definition bad_lambda (x : pyobj) : bool :=
  (negb (is_int_or_float x) || lt_zero x || ne_self x)%bool.

End Py.

Export Py.

(** ** The estimators as configured objects *)

(** One constructor per dataclass; the fields are the hyperparameters the
    class declares or inherits ([estimator_name] plays no part in any
    computation and is left out). *)
Inductive estimator : Set :=
| ReplayMethod
| InverseProbabilityWeighting (lambda_ : ext) (use_estimated_pscore : pyobj)
| SelfNormalizedInverseProbabilityWeighting (lambda_ : ext) (use_estimated_pscore : pyobj)
| DirectMethod
| DoublyRobust (lambda_ : ext) (use_estimated_pscore : pyobj)
| SelfNormalizedDoublyRobust (lambda_ : ext) (use_estimated_pscore : pyobj)
| SwitchDoublyRobust (lambda_ : ext) (use_estimated_pscore : pyobj)
| DoublyRobustWithShrinkage (lambda_ : ext) (use_estimated_pscore : pyobj)
| BalancedInverseProbabilityWeighting (lambda_ : ext).

Inductive class : Set :=
| CReplayMethod
| CInverseProbabilityWeighting
| CSelfNormalizedInverseProbabilityWeighting
| CDirectMethod
| CDoublyRobust
| CSelfNormalizedDoublyRobust
| CSwitchDoublyRobust
| CDoublyRobustWithShrinkage
| CBalancedInverseProbabilityWeighting.

Module PostInit.

(** [__post_init__] of InverseProbabilityWeighting (inherited by SNIPW)
    and of DoublyRobust (inherited by SNDR): the two bodies are the same. *)
Definition with_flag_check (lambda_ flag : pyobj) : outcome unit :=
  check_scalar lambda_ ;;;
  if ne_self lambda_ then Fail ValueError
  else if negb (is_bool flag) then Fail TypeError
  else Ok tt.

(** [__post_init__] as SwitchDoublyRobust, DoublyRobustWithShrinkage and
    BalancedInverseProbabilityWeighting override or define it. *)
Definition lambda_only (lambda_ : pyobj) : outcome unit :=
  check_scalar lambda_ ;;;
  if ne_self lambda_ then Fail ValueError else Ok tt.

End PostInit.

(** The field defaults of the dataclasses. *)
Definition default_lambda_ (c : class) : pyobj :=
  match c with
  | CDoublyRobustWithShrinkage => PyFloat (Finite 0)
  | _ => PyFloat PosInf
  end.

Definition default_use_estimated_pscore : pyobj := PyBool false.

(** Construction: the generated [__init__] stores the keyword arguments
    (an unknown keyword is a TypeError), then [__post_init__] runs.  [None]
    for an argument means the caller left it out. *)
Definition construct (c : class) (lambda_arg flag_arg : option pyobj)
  : outcome estimator :=
  let l := match lambda_arg with Some x => x | None => default_lambda_ c end in
  let u := match flag_arg with Some x => x | None => default_use_estimated_pscore end in
  match c with
  | CReplayMethod =>
      match lambda_arg, flag_arg with
      | None, None => Ok ReplayMethod
      | _, _ => Fail TypeError
      end
  | CDirectMethod =>
      match lambda_arg, flag_arg with
      | None, None => Ok DirectMethod
      | _, _ => Fail TypeError
      end
  | CInverseProbabilityWeighting =>
      PostInit.with_flag_check l u ;;;
      Ok (InverseProbabilityWeighting (to_ext l) u)
  | CSelfNormalizedInverseProbabilityWeighting =>
      PostInit.with_flag_check l u ;;;
      Ok (SelfNormalizedInverseProbabilityWeighting (to_ext l) u)
  | CDoublyRobust =>
      PostInit.with_flag_check l u ;;;
      Ok (DoublyRobust (to_ext l) u)
  | CSelfNormalizedDoublyRobust =>
      PostInit.with_flag_check l u ;;;
      Ok (SelfNormalizedDoublyRobust (to_ext l) u)
  | CSwitchDoublyRobust =>
      PostInit.lambda_only l ;;;
      Ok (SwitchDoublyRobust (to_ext l) u)
  | CDoublyRobustWithShrinkage =>
      PostInit.lambda_only l ;;;
      Ok (DoublyRobustWithShrinkage (to_ext l) u)
  | CBalancedInverseProbabilityWeighting =>
      match flag_arg with
      | Some _ => Fail TypeError
      | None =>
          PostInit.lambda_only l ;;;
          Ok (BalancedInverseProbabilityWeighting (to_ext l))
      end
  end.

(** ** Keyword arguments and their validation *)

(** The logged data as the callers pass it.  [None] is Python's None.  The
    rank of every array is fixed by its type. *)
Record inputs : Type := {
  reward : vec;
  action : list Z;
  action_dist : ndarray3;
  position : option (list Z);
  pscore : option vec;
  estimated_pscore : option vec;
  estimated_rewards_by_reg_model : option ndarray3;
  importance_sampling_ratio : option vec
}.

Module Validation.

(** [check_array(array, name, expected_dim)] of obp/utils.py: with the rank
    in the type, the only array it can refuse is None. *)
Definition check_array {A : Type} (array : option A) : outcome A :=
  match array with
  | Some a => Ok a
  | None => Fail ValueError
  end.

Definition opt_forall {A : Type} (P : A -> bool) (o : option A) : bool :=
  match o with
  | Some a => P a
  | None => true
  end.

Definition in_range (n : nat) (i : Z) : bool :=
  ((0 <=? i)%Z && (i <? Z.of_nat n)%Z)%bool.

(** Every [action_dist[t, :, p]] has entries in [0, 1] and sums to 1. *)
Definition is_distribution (ad : ndarray3) : bool :=
  forallb (fun t =>
    forallb (fun p =>
      (forallb (fun a => Qcleb 0 (at3 ad t a p) && Qcleb (at3 ad t a p) 1)
              (seq 0 (shape1 ad))
       && Qceqb (sum (map (fun a => at3 ad t a p) (seq 0 (shape1 ad)))) 1)%bool)
      (seq 0 (shape2 ad)))
    (seq 0 (shape0 ad)).

Definition same_shape (a b : ndarray3) : bool :=
  (Nat.eqb (shape0 a) (shape0 b) && Nat.eqb (shape1 a) (shape1 b)
   && Nat.eqb (shape2 a) (shape2 b))%bool.

(** Modelled from the spec: [check_ope_inputs] of obp/utils.py is not among
    the sources.  The data model and the error taxonomy of the spec give
    what it refuses: arrays whose lengths differ from the number of rounds
    of [action_dist], actions or positions out of range, an [action_dist]
    slice that does not sum to 1 or has an entry outside [0, 1], a pscore or
    an importance sampling ratio that is not positive, estimated rewards
    whose shape differs from that of [action_dist].  An argument left out
    is not checked. *)
Definition conforms (action_dist : ndarray3) (position action : option (list Z))
    (reward pscore : option vec)
    (estimated_rewards_by_reg_model : option ndarray3)
    (importance_sampling_ratio : option vec) : bool :=
  let n := shape0 action_dist in
  (is_distribution action_dist
   && opt_forall (fun p => Nat.eqb (length p) n
                           && forallb (in_range (shape2 action_dist)) p) position
   && opt_forall (fun a => Nat.eqb (length a) n
                           && forallb (in_range (shape1 action_dist)) a) action
   && opt_forall (fun r : vec => Nat.eqb (length r) n) reward
   && opt_forall (fun s => Nat.eqb (length s) n && forallb (Qcltb 0) s) pscore
   && opt_forall (fun q => same_shape q action_dist) estimated_rewards_by_reg_model
   && opt_forall (fun w => Nat.eqb (length w) n && forallb (Qcltb 0) w)
        importance_sampling_ratio)%bool.

Definition check_ope_inputs (action_dist : ndarray3) (position action : option (list Z))
    (reward pscore : option vec)
    (estimated_rewards_by_reg_model : option ndarray3)
    (importance_sampling_ratio : option vec) : outcome unit :=
  if conforms action_dist position action reward pscore
       estimated_rewards_by_reg_model importance_sampling_ratio
  then Ok tt else Fail ValueError.

End Validation.

Export Validation.

(** [position = np.zeros(action_dist.shape[0], dtype=int)] when None. *)
Definition default_position (action_dist : ndarray3) (position : option (list Z))
  : list Z :=
  match position with
  | Some p => p
  | None => zeros (shape0 action_dist)
  end.

(** The arguments with which [estimate_interval] calls
    [estimate_confidence_interval_by_bootstrap] of obp/utils.py. *)
Record bootstrap_call : Type := {
  samples : vec;
  alpha : Qc;
  n_bootstrap_samples : Z;
  random_state : option Z
}.

Definition default_alpha : Qc := Q2Qc (5 # 100).

Definition b2q (b : bool) : Qc := if b then 1%Qc else 0%Qc.
Definition count_true (l : list bool) : nat := length (filter (fun b => b) l).

(** ** The estimator classes *)

Module RM.

Definition _estimate_round_rewards (reward : vec) (action : list Z)
    (action_dist : ndarray3) (position : option (list Z)) : outcome vec :=
  let position := default_position action_dist position in
  picked <- take3 action_dist (arange (length action)) action position ;;
  let action_match := map (fun x => Qceqb x 1) picked in
  if Nat.ltb 0 (count_true action_match) then
    weighted <- mul (map b2q action_match) reward ;;
    rate <- mean (map b2q action_match) ;;
    div_scalar weighted rate
  else Ok (map (fun _ => 0%Qc) action_match).

Definition estimate_policy_value (kw : inputs) : outcome Qc :=
  check_array (Some (reward kw)) ;;;
  check_array (Some (action kw)) ;;;
  check_ope_inputs (action_dist kw) (position kw) (Some (action kw))
    (Some (reward kw)) None None None ;;;
  let position := default_position (action_dist kw) (position kw) in
  rr <- _estimate_round_rewards (reward kw) (action kw) (action_dist kw)
          (Some position) ;;
  mean rr.

Definition estimate_interval (kw : inputs) (alpha : option Qc)
    (n_bootstrap_samples random_state : option Z) : outcome bootstrap_call :=
  let alpha := match alpha with Some x => x | None => default_alpha end in
  let n_bootstrap_samples :=
    match n_bootstrap_samples with Some n => n | None => 100%Z end in
  check_array (Some (reward kw)) ;;;
  check_array (Some (action kw)) ;;;
  check_ope_inputs (action_dist kw) (position kw) (Some (action kw))
    (Some (reward kw)) None None None ;;;
  let position := default_position (action_dist kw) (position kw) in
  rr <- _estimate_round_rewards (reward kw) (action kw) (action_dist kw)
          (Some position) ;;
  Ok {| samples := rr; alpha := alpha;
        n_bootstrap_samples := n_bootstrap_samples;
        random_state := random_state |}.

End RM.

Module IPW.

Definition _estimate_round_rewards (lambda_ : ext) (reward : vec) (action : list Z)
    (pscore : vec) (action_dist : ndarray3) (position : option (list Z))
  : outcome vec :=
  let position := default_position action_dist position in
  picked <- take3 action_dist (arange (length action)) action position ;;
  iw <- div picked pscore ;;
  let iw := minimum iw lambda_ in
  mul reward iw.

(** The public methods reach the round rewards through [self], so that a
    subclass overriding [_estimate_round_rewards] inherits them: [self_rr]
    is that method of the object at hand. *)
Section Public.

Variable self_rr :
  vec -> list Z -> vec -> ndarray3 -> option (list Z) -> outcome vec.
Variable use_estimated_pscore : pyobj.

Definition select_pscore (kw : inputs) : outcome vec :=
  if truthy use_estimated_pscore then check_array (estimated_pscore kw)
  else check_array (pscore kw).

Definition estimate_policy_value (kw : inputs) : outcome Qc :=
  check_array (Some (reward kw)) ;;;
  check_array (Some (action kw)) ;;;
  pscore_ <- select_pscore kw ;;
  check_ope_inputs (action_dist kw) (position kw) (Some (action kw))
    (Some (reward kw)) (Some pscore_) None None ;;;
  let position := default_position (action_dist kw) (position kw) in
  rr <- self_rr (reward kw) (action kw) pscore_ (action_dist kw) (Some position) ;;
  mean rr.

Definition estimate_interval (kw : inputs) (alpha : option Qc)
    (n_bootstrap_samples random_state : option Z) : outcome bootstrap_call :=
  let alpha := match alpha with Some x => x | None => default_alpha end in
  let n_bootstrap_samples :=
    match n_bootstrap_samples with Some n => n | None => 10000%Z end in
  check_array (Some (reward kw)) ;;;
  check_array (Some (action kw)) ;;;
  pscore_ <- select_pscore kw ;;
  check_ope_inputs (action_dist kw) (position kw) (Some (action kw))
    (Some (reward kw)) (Some pscore_) None None ;;;
  let position := default_position (action_dist kw) (position kw) in
  rr <- self_rr (reward kw) (action kw) pscore_ (action_dist kw) (Some position) ;;
  Ok {| samples := rr; alpha := alpha;
        n_bootstrap_samples := n_bootstrap_samples;
        random_state := random_state |}.

End Public.

End IPW.

Module SNIPW.

Definition _estimate_round_rewards (reward : vec) (action : list Z)
    (pscore : vec) (action_dist : ndarray3) (position : option (list Z))
  : outcome vec :=
  let position := default_position action_dist position in
  picked <- take3 action_dist (arange (length action)) action position ;;
  iw <- div picked pscore ;;
  weighted <- mul reward iw ;;
  m <- mean iw ;;
  div_scalar weighted m.

End SNIPW.

Module DM.

Definition _estimate_round_rewards (action_dist estimated_rewards_by_reg_model : ndarray3)
    (position : option (list Z)) : outcome vec :=
  let position := default_position action_dist position in
  let n_rounds := length position in
  q_hat_at_position <-
    slice3 estimated_rewards_by_reg_model (arange n_rounds) position ;;
  pi_e_at_position <- slice3 action_dist (arange n_rounds) position ;;
  average q_hat_at_position pi_e_at_position.

Definition estimate_policy_value (kw : inputs) : outcome Qc :=
  q <- check_array (estimated_rewards_by_reg_model kw) ;;
  check_ope_inputs (action_dist kw) (position kw) None None None (Some q) None ;;;
  let position := default_position (action_dist kw) (position kw) in
  rr <- _estimate_round_rewards (action_dist kw) q (Some position) ;;
  mean rr.

Definition estimate_interval (kw : inputs) (alpha : option Qc)
    (n_bootstrap_samples random_state : option Z) : outcome bootstrap_call :=
  let alpha := match alpha with Some x => x | None => default_alpha end in
  let n_bootstrap_samples :=
    match n_bootstrap_samples with Some n => n | None => 10000%Z end in
  q <- check_array (estimated_rewards_by_reg_model kw) ;;
  check_ope_inputs (action_dist kw) (position kw) None None None (Some q) None ;;;
  let position := default_position (action_dist kw) (position kw) in
  rr <- _estimate_round_rewards (action_dist kw) q (Some position) ;;
  Ok {| samples := rr; alpha := alpha;
        n_bootstrap_samples := n_bootstrap_samples;
        random_state := random_state |}.

End DM.

Module DR.

Definition _estimate_round_rewards (lambda_ : ext) (reward : vec) (action : list Z)
    (pscore : vec) (action_dist estimated_rewards_by_reg_model : ndarray3)
    (position : option (list Z)) : outcome vec :=
  let position := default_position action_dist position in
  let n_rounds := length action in
  picked <- take3 action_dist (arange n_rounds) action position ;;
  iw <- div picked pscore ;;
  let iw := minimum iw lambda_ in
  q_hat_at_position <-
    slice3 estimated_rewards_by_reg_model (arange n_rounds) position ;;
  q_hat_factual <-
    take3 estimated_rewards_by_reg_model (arange n_rounds) action position ;;
  pi_e_at_position <- slice3 action_dist (arange n_rounds) position ;;
  estimated_rewards <- average q_hat_at_position pi_e_at_position ;;
  residual <- sub reward q_hat_factual ;;
  correction <- mul iw residual ;;
  iadd estimated_rewards correction.

(** As for IPW, the public methods call [self._estimate_round_rewards]:
    SNDR, Switch-DR and DRos inherit them and override only that method. *)
Section Public.

Variable self_rr :
  vec -> list Z -> vec -> ndarray3 -> ndarray3 -> option (list Z) -> outcome vec.
Variable use_estimated_pscore : pyobj.

Definition select_pscore (kw : inputs) : outcome vec :=
  if truthy use_estimated_pscore then check_array (estimated_pscore kw)
  else check_array (pscore kw).

Definition estimate_policy_value (kw : inputs) : outcome Qc :=
  q <- check_array (estimated_rewards_by_reg_model kw) ;;
  check_array (Some (reward kw)) ;;;
  check_array (Some (action kw)) ;;;
  pscore_ <- select_pscore kw ;;
  check_ope_inputs (action_dist kw) (position kw) (Some (action kw))
    (Some (reward kw)) (Some pscore_) (Some q) None ;;;
  let position := default_position (action_dist kw) (position kw) in
  rr <- self_rr (reward kw) (action kw) pscore_ (action_dist kw) q (Some position) ;;
  mean rr.

Definition estimate_interval (kw : inputs) (alpha : option Qc)
    (n_bootstrap_samples random_state : option Z) : outcome bootstrap_call :=
  let alpha := match alpha with Some x => x | None => default_alpha end in
  let n_bootstrap_samples :=
    match n_bootstrap_samples with Some n => n | None => 10000%Z end in
  q <- check_array (estimated_rewards_by_reg_model kw) ;;
  check_array (Some (reward kw)) ;;;
  check_array (Some (action kw)) ;;;
  pscore_ <- select_pscore kw ;;
  check_ope_inputs (action_dist kw) (position kw) (Some (action kw))
    (Some (reward kw)) (Some pscore_) (Some q) None ;;;
  let position := default_position (action_dist kw) (position kw) in
  rr <- self_rr (reward kw) (action kw) pscore_ (action_dist kw) q (Some position) ;;
  Ok {| samples := rr; alpha := alpha;
        n_bootstrap_samples := n_bootstrap_samples;
        random_state := random_state |}.

End Public.

End DR.

Module SNDR.

(** The body of the method for a position vector. *)
Definition rounds (reward : vec) (action : list Z)
    (pscore : vec) (action_dist estimated_rewards_by_reg_model : ndarray3)
    (position : list Z) : outcome vec :=
  let n_rounds := length action in
  picked <- take3 action_dist (arange n_rounds) action position ;;
  iw <- div picked pscore ;;
  q_hat_at_position <-
    slice3 estimated_rewards_by_reg_model (arange n_rounds) position ;;
  pi_e_at_position <- slice3 action_dist (arange n_rounds) position ;;
  estimated_rewards <- average q_hat_at_position pi_e_at_position ;;
  q_hat_factual <-
    take3 estimated_rewards_by_reg_model (arange n_rounds) action position ;;
  residual <- sub reward q_hat_factual ;;
  weighted <- mul iw residual ;;
  m <- mean iw ;;
  correction <- div_scalar weighted m ;;
  iadd estimated_rewards correction.

(** The same body for [position=None], which nothing replaces by zeros:
    None as an index is [numpy.newaxis], and every array is of rank 3. *)
Definition newaxis (reward : vec) (action : list Z)
    (pscore : vec) (action_dist estimated_rewards_by_reg_model : ndarray3)
  : outcome ndarray3 :=
  let n_rounds := length action in
  picked <- take3_newaxis action_dist (arange n_rounds) action ;;
  iw <- div3 picked (lift pscore) ;;
  q_hat_at_position <-
    slice3_newaxis estimated_rewards_by_reg_model (arange n_rounds) ;;
  pi_e_at_position <- slice3_newaxis action_dist (arange n_rounds) ;;
  estimated_rewards <- average3 q_hat_at_position pi_e_at_position ;;
  q_hat_factual <-
    take3_newaxis estimated_rewards_by_reg_model (arange n_rounds) action ;;
  residual <- sub3 (lift reward) q_hat_factual ;;
  weighted <- mul3 iw residual ;;
  m <- mean3 iw ;;
  correction <- div_scalar3 weighted m ;;
  iadd3 estimated_rewards correction.

(** The method as a producer of round rewards: an array of rank 3, which
    is what it returns for [position=None] when it does not raise, is not
    a vector of rounds. *)
Definition _estimate_round_rewards (reward : vec) (action : list Z)
    (pscore : vec) (action_dist estimated_rewards_by_reg_model : ndarray3)
    (position : option (list Z)) : outcome vec :=
  match position with
  | Some position =>
      rounds reward action pscore action_dist estimated_rewards_by_reg_model
        position
  | None =>
      newaxis reward action pscore action_dist estimated_rewards_by_reg_model ;;;
      Fail WrongRank
  end.

End SNDR.

Module SwitchDR.

Definition rounds (lambda_ : ext) (reward : vec) (action : list Z)
    (pscore : vec) (action_dist estimated_rewards_by_reg_model : ndarray3)
    (position : list Z) : outcome vec :=
  let n_rounds := length action in
  picked <- take3 action_dist (arange n_rounds) action position ;;
  iw <- div picked pscore ;;
  let switch_indicator := map (fun w => b2q (le_ext w lambda_)) iw in
  q_hat_at_position <-
    slice3 estimated_rewards_by_reg_model (arange n_rounds) position ;;
  q_hat_factual <-
    take3 estimated_rewards_by_reg_model (arange n_rounds) action position ;;
  pi_e_at_position <- slice3 action_dist (arange n_rounds) position ;;
  estimated_rewards <- average q_hat_at_position pi_e_at_position ;;
  switched <- mul switch_indicator iw ;;
  residual <- sub reward q_hat_factual ;;
  correction <- mul switched residual ;;
  iadd estimated_rewards correction.

Definition newaxis (lambda_ : ext) (reward : vec) (action : list Z)
    (pscore : vec) (action_dist estimated_rewards_by_reg_model : ndarray3)
  : outcome ndarray3 :=
  let n_rounds := length action in
  picked <- take3_newaxis action_dist (arange n_rounds) action ;;
  iw <- div3 picked (lift pscore) ;;
  let switch_indicator := map3 (fun w => b2q (le_ext w lambda_)) iw in
  q_hat_at_position <-
    slice3_newaxis estimated_rewards_by_reg_model (arange n_rounds) ;;
  q_hat_factual <-
    take3_newaxis estimated_rewards_by_reg_model (arange n_rounds) action ;;
  pi_e_at_position <- slice3_newaxis action_dist (arange n_rounds) ;;
  estimated_rewards <- average3 q_hat_at_position pi_e_at_position ;;
  switched <- mul3 switch_indicator iw ;;
  residual <- sub3 (lift reward) q_hat_factual ;;
  correction <- mul3 switched residual ;;
  iadd3 estimated_rewards correction.

Definition _estimate_round_rewards (lambda_ : ext) (reward : vec) (action : list Z)
    (pscore : vec) (action_dist estimated_rewards_by_reg_model : ndarray3)
    (position : option (list Z)) : outcome vec :=
  match position with
  | Some position =>
      rounds lambda_ reward action pscore action_dist
        estimated_rewards_by_reg_model position
  | None =>
      newaxis lambda_ reward action pscore action_dist
        estimated_rewards_by_reg_model ;;;
      Fail WrongRank
  end.

End SwitchDR.

Module DRos.

(** [(lambda_ * iw) / (iw ** 2 + lambda_)] when [lambda_ < np.inf], that
    is when [lambda_] is a rational, else [iw]. *)
Definition shrink (lambda_ : ext) (iw : vec) : outcome vec :=
  match lambda_ with
  | Fin l => mapM (fun w => fdiv (l * w)%Qc (w * w + l)%Qc) iw
  | PInf => Ok iw
  end.

Definition shrink3 (lambda_ : ext) (iw : ndarray3) : outcome ndarray3 :=
  match lambda_ with
  | Fin l =>
      mapM (fun w => fdiv (l * w)%Qc (w * w + l)%Qc) (entries iw) ;;;
      Ok (map3 (fun w => l * w / (w * w + l))%Qc iw)
  | PInf => Ok iw
  end.

Definition rounds (lambda_ : ext) (reward : vec) (action : list Z)
    (pscore : vec) (action_dist estimated_rewards_by_reg_model : ndarray3)
    (position : list Z) : outcome vec :=
  let n_rounds := length action in
  picked <- take3 action_dist (arange n_rounds) action position ;;
  iw <- div picked pscore ;;
  iw_hat <- shrink lambda_ iw ;;
  q_hat_at_position <-
    slice3 estimated_rewards_by_reg_model (arange n_rounds) position ;;
  q_hat_factual <-
    take3 estimated_rewards_by_reg_model (arange n_rounds) action position ;;
  pi_e_at_position <- slice3 action_dist (arange n_rounds) position ;;
  estimated_rewards <- average q_hat_at_position pi_e_at_position ;;
  residual <- sub reward q_hat_factual ;;
  correction <- mul iw_hat residual ;;
  iadd estimated_rewards correction.

Definition newaxis (lambda_ : ext) (reward : vec) (action : list Z)
    (pscore : vec) (action_dist estimated_rewards_by_reg_model : ndarray3)
  : outcome ndarray3 :=
  let n_rounds := length action in
  picked <- take3_newaxis action_dist (arange n_rounds) action ;;
  iw <- div3 picked (lift pscore) ;;
  iw_hat <- shrink3 lambda_ iw ;;
  q_hat_at_position <-
    slice3_newaxis estimated_rewards_by_reg_model (arange n_rounds) ;;
  q_hat_factual <-
    take3_newaxis estimated_rewards_by_reg_model (arange n_rounds) action ;;
  pi_e_at_position <- slice3_newaxis action_dist (arange n_rounds) ;;
  estimated_rewards <- average3 q_hat_at_position pi_e_at_position ;;
  residual <- sub3 (lift reward) q_hat_factual ;;
  correction <- mul3 iw_hat residual ;;
  iadd3 estimated_rewards correction.

Definition _estimate_round_rewards (lambda_ : ext) (reward : vec) (action : list Z)
    (pscore : vec) (action_dist estimated_rewards_by_reg_model : ndarray3)
    (position : option (list Z)) : outcome vec :=
  match position with
  | Some position =>
      rounds lambda_ reward action pscore action_dist
        estimated_rewards_by_reg_model position
  | None =>
      newaxis lambda_ reward action pscore action_dist
        estimated_rewards_by_reg_model ;;;
      Fail WrongRank
  end.

End DRos.

Module BIPW.

Definition _estimate_round_rewards (lambda_ : ext) (reward : vec) (action : list Z)
    (importance_sampling_ratio : vec) (action_dist : ndarray3)
    (position : option (list Z)) : outcome vec :=
  let position := default_position action_dist position in
  picked <- take3 action_dist (arange (length action)) action position ;;
  iw <- mul picked importance_sampling_ratio ;;
  let iw := minimum iw lambda_ in
  weighted <- mul reward iw ;;
  m <- mean iw ;;
  div_scalar weighted m.

(** The [context] and [action_context] parameters of the source are never
    read and are left out. *)
Definition estimate_policy_value (lambda_ : ext) (kw : inputs) : outcome Qc :=
  check_array (Some (reward kw)) ;;;
  check_array (Some (action kw)) ;;;
  w <- check_array (importance_sampling_ratio kw) ;;
  let position := default_position (action_dist kw) (position kw) in
  rr <- _estimate_round_rewards lambda_ (reward kw) (action kw) w (action_dist kw)
          (Some position) ;;
  mean rr.

Definition estimate_interval (lambda_ : ext) (kw : inputs) (alpha : option Qc)
    (n_bootstrap_samples random_state : option Z) : outcome bootstrap_call :=
  let alpha := match alpha with Some x => x | None => default_alpha end in
  let n_bootstrap_samples :=
    match n_bootstrap_samples with Some n => n | None => 10000%Z end in
  check_array (Some (reward kw)) ;;;
  check_array (Some (action kw)) ;;;
  w <- check_array (importance_sampling_ratio kw) ;;
  check_ope_inputs (action_dist kw) (position kw) (Some (action kw))
    (Some (reward kw)) None None (Some w) ;;;
  let position := default_position (action_dist kw) (position kw) in
  rr <- _estimate_round_rewards lambda_ (reward kw) (action kw) w (action_dist kw)
          (Some position) ;;
  Ok {| samples := rr; alpha := alpha;
        n_bootstrap_samples := n_bootstrap_samples;
        random_state := random_state |}.

End BIPW.

(** ** The three operations, by estimator *)

(** A required array passed as None: the arithmetic on it raises
    TypeError. *)
Definition required {A : Type} (o : option A) : outcome A :=
  match o with
  | Some a => Ok a
  | None => Fail TypeError
  end.

(** [self._estimate_round_rewards] called with keyword arguments: every
    class picks the ones its method declares and ignores the others. *)
Definition _estimate_round_rewards (e : estimator) (kw : inputs) : outcome vec :=
  match e with
  | ReplayMethod =>
      RM._estimate_round_rewards (reward kw) (action kw) (action_dist kw) (position kw)
  | InverseProbabilityWeighting l _ =>
      ps <- required (pscore kw) ;;
      IPW._estimate_round_rewards l (reward kw) (action kw) ps (action_dist kw)
        (position kw)
  | SelfNormalizedInverseProbabilityWeighting _ _ =>
      ps <- required (pscore kw) ;;
      SNIPW._estimate_round_rewards (reward kw) (action kw) ps (action_dist kw)
        (position kw)
  | DirectMethod =>
      q <- required (estimated_rewards_by_reg_model kw) ;;
      DM._estimate_round_rewards (action_dist kw) q (position kw)
  | DoublyRobust l _ =>
      ps <- required (pscore kw) ;;
      q <- required (estimated_rewards_by_reg_model kw) ;;
      DR._estimate_round_rewards l (reward kw) (action kw) ps (action_dist kw) q
        (position kw)
  | SelfNormalizedDoublyRobust _ _ =>
      ps <- required (pscore kw) ;;
      q <- required (estimated_rewards_by_reg_model kw) ;;
      SNDR._estimate_round_rewards (reward kw) (action kw) ps (action_dist kw) q
        (position kw)
  | SwitchDoublyRobust l _ =>
      ps <- required (pscore kw) ;;
      q <- required (estimated_rewards_by_reg_model kw) ;;
      SwitchDR._estimate_round_rewards l (reward kw) (action kw) ps (action_dist kw) q
        (position kw)
  | DoublyRobustWithShrinkage l _ =>
      ps <- required (pscore kw) ;;
      q <- required (estimated_rewards_by_reg_model kw) ;;
      DRos._estimate_round_rewards l (reward kw) (action kw) ps (action_dist kw) q
        (position kw)
  | BalancedInverseProbabilityWeighting l =>
      w <- required (importance_sampling_ratio kw) ;;
      BIPW._estimate_round_rewards l (reward kw) (action kw) w (action_dist kw)
        (position kw)
  end.

Definition estimate_policy_value (e : estimator) (kw : inputs) : outcome Qc :=
  match e with
  | ReplayMethod => RM.estimate_policy_value kw
  | InverseProbabilityWeighting l u =>
      IPW.estimate_policy_value (IPW._estimate_round_rewards l) u kw
  | SelfNormalizedInverseProbabilityWeighting _ u =>
      IPW.estimate_policy_value SNIPW._estimate_round_rewards u kw
  | DirectMethod => DM.estimate_policy_value kw
  | DoublyRobust l u =>
      DR.estimate_policy_value (DR._estimate_round_rewards l) u kw
  | SelfNormalizedDoublyRobust _ u =>
      DR.estimate_policy_value SNDR._estimate_round_rewards u kw
  | SwitchDoublyRobust l u =>
      DR.estimate_policy_value (SwitchDR._estimate_round_rewards l) u kw
  | DoublyRobustWithShrinkage l u =>
      DR.estimate_policy_value (DRos._estimate_round_rewards l) u kw
  | BalancedInverseProbabilityWeighting l => BIPW.estimate_policy_value l kw
  end.

Definition estimate_interval (e : estimator) (kw : inputs) (alpha : option Qc)
    (n_bootstrap_samples random_state : option Z) : outcome bootstrap_call :=
  match e with
  | ReplayMethod => RM.estimate_interval kw alpha n_bootstrap_samples random_state
  | InverseProbabilityWeighting l u =>
      IPW.estimate_interval (IPW._estimate_round_rewards l) u kw alpha
        n_bootstrap_samples random_state
  | SelfNormalizedInverseProbabilityWeighting _ u =>
      IPW.estimate_interval SNIPW._estimate_round_rewards u kw alpha
        n_bootstrap_samples random_state
  | DirectMethod => DM.estimate_interval kw alpha n_bootstrap_samples random_state
  | DoublyRobust l u =>
      DR.estimate_interval (DR._estimate_round_rewards l) u kw alpha
        n_bootstrap_samples random_state
  | SelfNormalizedDoublyRobust _ u =>
      DR.estimate_interval SNDR._estimate_round_rewards u kw alpha
        n_bootstrap_samples random_state
  | SwitchDoublyRobust l u =>
      DR.estimate_interval (SwitchDR._estimate_round_rewards l) u kw alpha
        n_bootstrap_samples random_state
  | DoublyRobustWithShrinkage l u =>
      DR.estimate_interval (DRos._estimate_round_rewards l) u kw alpha
        n_bootstrap_samples random_state
  | BalancedInverseProbabilityWeighting l =>
      BIPW.estimate_interval l kw alpha n_bootstrap_samples random_state
  end.

(** ** Well-formed batches and the closed forms of the spec *)

(** The propensities an estimator works with: the estimated ones when its
    flag is true. *)
Definition effective_pscore (e : estimator) (kw : inputs) : option vec :=
  match e with
  | InverseProbabilityWeighting _ u
  | SelfNormalizedInverseProbabilityWeighting _ u
  | DoublyRobust _ u
  | SelfNormalizedDoublyRobust _ u
  | SwitchDoublyRobust _ u
  | DoublyRobustWithShrinkage _ u =>
      if truthy u then estimated_pscore kw else pscore kw
  | _ => pscore kw
  end.

Definition with_position (kw : inputs) (p : option (list Z)) : inputs :=
  {| reward := reward kw; action := action kw; action_dist := action_dist kw;
     position := p; pscore := pscore kw; estimated_pscore := estimated_pscore kw;
     estimated_rewards_by_reg_model := estimated_rewards_by_reg_model kw;
     importance_sampling_ratio := importance_sampling_ratio kw |}.

(** The batch on which a public method runs the round-reward estimation:
    the same arrays, the position defaulted to zeros when absent, the
    propensities chosen by the flag. *)
Definition forwarded (e : estimator) (kw : inputs) : inputs :=
  {| reward := reward kw; action := action kw; action_dist := action_dist kw;
     position := Some (default_position (action_dist kw) (position kw));
     pscore := effective_pscore e kw;
     estimated_pscore := estimated_pscore kw;
     estimated_rewards_by_reg_model := estimated_rewards_by_reg_model kw;
     importance_sampling_ratio := importance_sampling_ratio kw |}.

(** A batch is well formed for an estimator when the arrays its round-reward
    estimation reads are there and conform to the data model, the position
    being the given one or the all-zeros default. *)
Definition well_formed (e : estimator) (kw : inputs) : bool :=
  let ad := action_dist kw in
  let pos := Some (default_position ad (position kw)) in
  let a := Some (action kw) in
  let r := Some (reward kw) in
  match e with
  | ReplayMethod => conforms ad pos a r None None None
  | InverseProbabilityWeighting _ _
  | SelfNormalizedInverseProbabilityWeighting _ _ =>
      match pscore kw with
      | Some ps => conforms ad pos a r (Some ps) None None
      | None => false
      end
  | DirectMethod =>
      match estimated_rewards_by_reg_model kw with
      | Some q => conforms ad pos None None None (Some q) None
      | None => false
      end
  | DoublyRobust _ _
  | SelfNormalizedDoublyRobust _ _
  | SwitchDoublyRobust _ _
  | DoublyRobustWithShrinkage _ _ =>
      match pscore kw, estimated_rewards_by_reg_model kw with
      | Some ps, Some q => conforms ad pos a r (Some ps) (Some q) None
      | _, _ => false
      end
  | BalancedInverseProbabilityWeighting _ =>
      match importance_sampling_ratio kw with
      | Some w => conforms ad pos a r None None (Some w)
      | None => false
      end
  end.

(** The arrays of a batch that the public methods of an estimator hand to
    [check_ope_inputs] conform: what a public call is to have validated
    before it estimates anything. *)
Definition conforming_call (e : estimator) (kw : inputs) : bool :=
  let ad := action_dist kw in
  let a := Some (action kw) in
  let r := Some (reward kw) in
  match e with
  | ReplayMethod => conforms ad (position kw) a r None None None
  | InverseProbabilityWeighting _ _
  | SelfNormalizedInverseProbabilityWeighting _ _ =>
      match effective_pscore e kw with
      | Some ps => conforms ad (position kw) a r (Some ps) None None
      | None => false
      end
  | DirectMethod =>
      match estimated_rewards_by_reg_model kw with
      | Some q => conforms ad (position kw) None None None (Some q) None
      | None => false
      end
  | DoublyRobust _ _
  | SelfNormalizedDoublyRobust _ _
  | SwitchDoublyRobust _ _
  | DoublyRobustWithShrinkage _ _ =>
      match effective_pscore e kw, estimated_rewards_by_reg_model kw with
      | Some ps, Some q => conforms ad (position kw) a r (Some ps) (Some q) None
      | _, _ => false
      end
  | BalancedInverseProbabilityWeighting _ =>
      match importance_sampling_ratio kw with
      | Some w => conforms ad (position kw) a r None None (Some w)
      | None => false
      end
  end.

(** Whether the round-reward estimation of a class replaces a position
    that is None by zeros. *)
Definition defaults_position (e : estimator) : bool :=
  match e with
  | SelfNormalizedDoublyRobust _ _
  | SwitchDoublyRobust _ _
  | DoublyRobustWithShrinkage _ _ => false
  | _ => true
  end.

Module Formula.

Local Open Scope Qc_scope.

(** One entry per round. *)
Definition per_round (n : nat) (f : nat -> Qc) : vec := map f (seq 0 n).

(** The entry of an array at the logged action and position of round [t],
    the actions and positions being given round by round. *)
Definition picked (a : ndarray3) (fa fp : nat -> Z) (t : nat) : Qc :=
  at3 a t (Z.to_nat (fa t)) (Z.to_nat (fp t)).

(** The estimates [q] averaged over the actions of round [t] with the
    probabilities [ad] at the round's position as weights. *)
Definition weighted_average (q ad : ndarray3) (fp : nat -> Z) (t : nat) : Qc :=
  sum (map (fun a => at3 q t a (Z.to_nat (fp t)) * at3 ad t a (Z.to_nat (fp t)))
         (seq 0 (shape1 ad)))
  / sum (map (fun a => at3 ad t a (Z.to_nat (fp t))) (seq 0 (shape1 ad))).

Definition n_rounds (kw : inputs) : nat := shape0 (action_dist kw).

(** The logged action, the position and the reward of round [t]. *)
Definition act (kw : inputs) (t : nat) : Z := nth t (action kw) 0%Z.
Definition pos (kw : inputs) (t : nat) : Z :=
  nth t (default_position (action_dist kw) (position kw)) 0%Z.
Definition r (kw : inputs) (t : nat) : Qc := nth t (reward kw) 0.

(** The evaluation policy's probability of the logged action. *)
Definition pi_e (kw : inputs) (t : nat) : Qc :=
  picked (action_dist kw) (act kw) (pos kw) t.

(** The importance weight of round [t] against the propensities [ps]. *)
Definition w (ps : vec) (kw : inputs) (t : nat) : Qc := pi_e kw t / nth t ps 0.

(** The shrunk weight of DRos: [lambda_ * w / (w^2 + lambda_)] for a
    finite [lambda_], the raw weight for an infinite one. *)
Definition shrunk (lambda_ : ext) (x : Qc) : Qc :=
  match lambda_ with
  | Fin l => l * x / (x * x + l)
  | PInf => x
  end.

(** The Direct Method term and the model's estimate for the logged
    action. *)
Definition dm_term (q : ndarray3) (kw : inputs) (t : nat) : Qc :=
  weighted_average q (action_dist kw) (pos kw) t.

Definition q_factual (q : ndarray3) (kw : inputs) (t : nat) : Qc :=
  picked q (act kw) (pos kw) t.

End Formula.

Import Formula.

(** ** Deciding equations between computed results *)

Module Decide.

Fixpoint veqb (u v : vec) : bool :=
  match u, v with
  | [], [] => true
  | x :: u', y :: v' => (Qceqb x y && veqb u' v')%bool
  | _, _ => false
  end.

Definition returns_vec (m : outcome vec) (v : vec) : bool :=
  match m with
  | Ok u => veqb u v
  | Fail _ => false
  end.

Definition returns (m : outcome Qc) (x : Qc) : bool :=
  match m with
  | Ok y => Qceqb y x
  | Fail _ => false
  end.

End Decide.

Import Decide.

(** ** Concrete batches *)

Module Scenario.

Local Open Scope Qc_scope.

Definition half : Qc := Q2Qc (1 # 2).
Definition two : Qc := Q2Qc (2 # 1).

(** The scenario of the spec: three rounds, two actions, one position, a
    deterministic evaluation policy that picks the logged action. *)
Definition scenario : inputs :=
  {| reward := [1; 0; 1];
     action := [0%Z; 1%Z; 0%Z];
     action_dist := of_lists 3 2 1 [[[1]; [0]]; [[0]; [1]]; [[1]; [0]]];
     position := None;
     pscore := Some [half; half; half];
     estimated_pscore := None;
     estimated_rewards_by_reg_model := None;
     importance_sampling_ratio := None |}.

(** Two rounds with the positions given and a regression model; in round 0
    the evaluation policy gives probability 0 to the logged action, in
    round 1 probability 1. *)
Definition zero_weight : inputs :=
  {| reward := [1; 1];
     action := [0%Z; 0%Z];
     action_dist := of_lists 2 2 1 [[[0]; [1]]; [[1]; [0]]];
     position := Some [0%Z; 0%Z];
     pscore := Some [half; half];
     estimated_pscore := None;
     estimated_rewards_by_reg_model :=
       Some (of_lists 2 2 1 [[[Q2Qc (3 # 10)]; [Q2Qc (6 # 10)]];
                             [[Q2Qc (3 # 10)]; [Q2Qc (6 # 10)]]]);
     importance_sampling_ratio := None |}.

(** The same two rounds with a stochastic evaluation policy, so that every
    importance weight is positive. *)
Definition positive_weight : inputs :=
  {| reward := [1; 1];
     action := [0%Z; 0%Z];
     action_dist := of_lists 2 2 1 [[[half]; [half]]; [[1]; [0]]];
     position := Some [0%Z; 0%Z];
     pscore := Some [half; half];
     estimated_pscore := None;
     estimated_rewards_by_reg_model :=
       Some (of_lists 2 2 1 [[[Q2Qc (3 # 10)]; [Q2Qc (6 # 10)]];
                             [[Q2Qc (3 # 10)]; [Q2Qc (6 # 10)]]]);
     importance_sampling_ratio := None |}.

(** One round whose action distribution sums to 6/10 instead of 1. *)
Definition malformed : inputs :=
  {| reward := [1];
     action := [0%Z];
     action_dist := of_lists 1 2 1 [[[Q2Qc (3 # 10)]; [Q2Qc (3 # 10)]]];
     position := None;
     pscore := None;
     estimated_pscore := None;
     estimated_rewards_by_reg_model := None;
     importance_sampling_ratio := Some [two] |}.

(** Three rounds of which none has probability 1 on the logged action. *)
Definition no_match : inputs :=
  {| reward := [1; 0; 1];
     action := [0%Z; 1%Z; 0%Z];
     action_dist := of_lists 3 2 1 [[[0]; [1]]; [[1]; [0]]; [[half]; [half]]];
     position := None;
     pscore := None;
     estimated_pscore := None;
     estimated_rewards_by_reg_model := None;
     importance_sampling_ratio := None |}.

End Scenario.

Import Scenario.

(** ** More batches and views of a batch *)

(** The classes with a [lambda_] field. *)
Definition has_lambda (c : class) : bool :=
  match c with
  | CReplayMethod | CDirectMethod => false
  | _ => true
  end.

Definition with_pscore (kw : inputs) (ps : option vec) : inputs :=
  {| reward := reward kw; action := action kw; action_dist := action_dist kw;
     position := position kw; pscore := ps;
     estimated_pscore := estimated_pscore kw;
     estimated_rewards_by_reg_model := estimated_rewards_by_reg_model kw;
     importance_sampling_ratio := importance_sampling_ratio kw |}.

(** The flag of an estimator set to False. *)
Definition with_logged_pscore (e : estimator) : estimator :=
  match e with
  | InverseProbabilityWeighting l _ => InverseProbabilityWeighting l (PyBool false)
  | SelfNormalizedInverseProbabilityWeighting l _ =>
      SelfNormalizedInverseProbabilityWeighting l (PyBool false)
  | DoublyRobust l _ => DoublyRobust l (PyBool false)
  | SelfNormalizedDoublyRobust l _ => SelfNormalizedDoublyRobust l (PyBool false)
  | SwitchDoublyRobust l _ => SwitchDoublyRobust l (PyBool false)
  | DoublyRobustWithShrinkage l _ => DoublyRobustWithShrinkage l (PyBool false)
  | _ => e
  end.

Module MoreScenarios.

Local Open Scope Qc_scope.

Definition tenth (k : positive) : Qc := Q2Qc (Zpos k # 10).

(** Two rounds in which the evaluation policy is the behavior policy. *)
Definition on_policy : inputs :=
  {| reward := [1; 0];
     action := [0%Z; 1%Z];
     action_dist := of_lists 2 2 1 [[[half]; [half]]; [[half]; [half]]];
     position := None;
     pscore := Some [half; half];
     estimated_pscore := Some [tenth 4; tenth 4];
     estimated_rewards_by_reg_model :=
       Some (of_lists 2 2 1 [[[tenth 3]; [tenth 6]]; [[tenth 3]; [tenth 6]]]);
     importance_sampling_ratio := Some [two; two] |}.

(** The same two rounds with a regression model that is zero everywhere. *)
Definition zero_model : inputs :=
  {| reward := [1; 0];
     action := [0%Z; 1%Z];
     action_dist := of_lists 2 2 1 [[[half]; [half]]; [[half]; [half]]];
     position := None;
     pscore := Some [half; half];
     estimated_pscore := None;
     estimated_rewards_by_reg_model :=
       Some (of_lists 2 2 1 [[[0]; [0]]; [[0]; [0]]]);
     importance_sampling_ratio := None |}.

(** Two rounds whose rewards are the model's estimates for the logged
    actions. *)
Definition exact_model : inputs :=
  {| reward := [tenth 3; tenth 6];
     action := [0%Z; 1%Z];
     action_dist := of_lists 2 2 1 [[[half]; [half]]; [[1]; [0]]];
     position := Some [0%Z; 0%Z];
     pscore := Some [half; half];
     estimated_pscore := None;
     estimated_rewards_by_reg_model :=
       Some (of_lists 2 2 1 [[[tenth 3]; [tenth 6]]; [[tenth 3]; [tenth 6]]]);
     importance_sampling_ratio := None |}.

(** One round without position: the number of positions equals the
    number of rounds. *)
Definition single_round : inputs :=
  {| reward := [1%Qc];
     action := [0%Z];
     action_dist := of_lists 1 2 1 [[[half]; [half]]];
     position := None;
     pscore := Some [half];
     estimated_pscore := None;
     estimated_rewards_by_reg_model := Some (of_lists 1 2 1 [[[half]; [two]]]);
     importance_sampling_ratio := None |}.

End MoreScenarios.

Import MoreScenarios.

(** * Properties *)

(** ** Decidable comparisons on [Qc] *)

Lemma Qceqb_true (x y : Qc) : Qceqb x y = true <-> x = y.
Proof.
  unfold Qceqb. rewrite Qeq_bool_iff. split.
  - apply Qc_is_canon.
  - intros ->. reflexivity.
Qed.

Lemma Qceqb_false (x y : Qc) : Qceqb x y = false <-> x <> y.
Proof.
  rewrite <- Qceqb_true. destruct (Qceqb x y); split; congruence.
Qed.

Lemma Qcleb_true (x y : Qc) : Qcleb x y = true <-> (x <= y)%Qc.
Proof. unfold Qcleb, Qcle. apply Qle_bool_iff. Qed.

Lemma Qcltb_true (x y : Qc) : Qcltb x y = true <-> (x < y)%Qc.
Proof.
  unfold Qcltb, Qclt. rewrite negb_true_iff.
  destruct (Qle_bool y x) eqn:E.
  - apply Qle_bool_iff in E. split; [discriminate|].
    intros H. exfalso. exact (Qlt_not_le _ _ H E).
  - split; [|reflexivity]. intros _.
    apply Qnot_le_lt. intros H. apply Qle_bool_iff in H. congruence.
Qed.

Lemma fdiv_ok (x y : Qc) : y <> 0%Qc -> fdiv x y = Ok (x / y)%Qc.
Proof.
  intros H. unfold fdiv. apply Qceqb_false in H. now rewrite H.
Qed.

(** ** Arrays tabulated over the rounds

    Under the hypotheses of a well-formed batch every rank-1 array has one
    entry per round, so it is [map f (seq 0 n)] for its own [f]; the numpy
    operations then act entry by entry. *)

Section Tabulated.

Context {A B C : Type}.

Lemma as_tabulated (d : A) (l : list A) :
  l = map (fun t => nth t l d) (seq 0 (length l)).
Proof.
  symmetry. apply (nth_ext _ _ (nth 0%nat l d) d).
  - now rewrite length_map, length_seq.
  - intros n Hn. rewrite length_map, length_seq in Hn.
    rewrite (map_nth (fun t => nth t l d) (seq 0 (length l)) 0%nat n).
    now rewrite seq_nth.
Qed.

Lemma combine_map_same (f : C -> A) (g : C -> B) (l : list C) :
  combine (map f l) (map g l) = map (fun x => (f x, g x)) l.
Proof. induction l as [|x l IH]; simpl; [reflexivity | now rewrite IH]. Qed.

Lemma broadcast_map_same (e : failure) (f : C -> A) (g : C -> B) (l : list C) :
  broadcast e (map f l) (map g l) = Ok (map (fun x => (f x, g x)) l).
Proof.
  unfold broadcast. rewrite !length_map, Nat.eqb_refl.
  now rewrite combine_map_same.
Qed.

Lemma mapM_map_ok (k : A -> outcome B) (f : C -> A) (g : C -> B) (l : list C) :
  (forall x, In x l -> k (f x) = Ok (g x)) ->
  mapM k (map f l) = Ok (map g l).
Proof.
  induction l as [|x l IH]; intros H; simpl; [reflexivity|].
  rewrite (H x (or_introl eq_refl)). simpl.
  rewrite IH; [reflexivity|]. intros y Hy. apply H. now right.
Qed.

End Tabulated.

Section PointwiseOps.

Context {T : Type}.
Variable l : list T.
Variables f g : T -> Qc.

Local Open Scope Qc_scope.

Lemma mul_map : mul (map f l) (map g l) = Ok (map (fun x => f x * g x) l).
Proof.
  unfold mul, fmap. rewrite broadcast_map_same. simpl.
  now rewrite map_map.
Qed.

Lemma sub_map : sub (map f l) (map g l) = Ok (map (fun x => f x - g x) l).
Proof.
  unfold sub, fmap. rewrite broadcast_map_same. simpl.
  now rewrite map_map.
Qed.

Lemma iadd_map : iadd (map f l) (map g l) = Ok (map (fun x => f x + g x) l).
Proof.
  unfold iadd. rewrite !length_map, Nat.eqb_refl, combine_map_same.
  now rewrite map_map.
Qed.

Lemma div_map :
  (forall x, In x l -> g x <> 0) ->
  div (map f l) (map g l) = Ok (map (fun x => f x / g x) l).
Proof.
  intros H. unfold div. rewrite broadcast_map_same. simpl.
  apply mapM_map_ok. intros x Hx. simpl. apply fdiv_ok. now apply H.
Qed.

Lemma div_scalar_map (y : Qc) :
  y <> 0 -> div_scalar (map f l) y = Ok (map (fun x => f x / y) l).
Proof.
  intros H. unfold div_scalar. apply mapM_map_ok. intros x _. now apply fdiv_ok.
Qed.

Lemma minimum_map (lam : ext) :
  minimum (map f l) lam = map (fun x => min_ext (f x) lam) l.
Proof. unfold minimum. now rewrite map_map. Qed.

End PointwiseOps.

(** ** Indexing *)

Lemma index_in_range (n : nat) (i : Z) :
  in_range n i = true -> index n i = Ok (Z.to_nat i).
Proof.
  unfold in_range, index. intros H. apply andb_true_iff in H as [H1 H2].
  now rewrite H1, H2.
Qed.

Lemma index_of_nat (n t : nat) : (t < n)%nat -> index n (Z.of_nat t) = Ok t.
Proof.
  intros H. rewrite index_in_range.
  - now rewrite Nat2Z.id.
  - unfold in_range. apply andb_true_iff. split.
    + apply Z.leb_le. lia.
    + apply Z.ltb_lt. lia.
Qed.

Lemma get3_ok (a : ndarray3) (t : nat) (i p : Z) :
  (t < shape0 a)%nat -> in_range (shape1 a) i = true ->
  in_range (shape2 a) p = true ->
  get3 a (Z.of_nat t) i p = Ok (at3 a t (Z.to_nat i) (Z.to_nat p)).
Proof.
  intros Ht Hi Hp. unfold get3.
  rewrite (index_of_nat Ht), (index_in_range _ _ Hi), (index_in_range _ _ Hp).
  reflexivity.
Qed.

Lemma row3_ok (a : ndarray3) (t : nat) (p : Z) :
  (t < shape0 a)%nat -> in_range (shape2 a) p = true ->
  row3 a (Z.of_nat t) p
  = Ok (map (fun i => at3 a t i (Z.to_nat p)) (seq 0 (shape1 a))).
Proof.
  intros Ht Hp. unfold row3.
  rewrite (index_of_nat Ht), (index_in_range _ _ Hp). reflexivity.
Qed.

Lemma take3_map {T : Type} (a : ndarray3) (l : list T) (ft fa fp : T -> Z)
    (v : T -> Qc) :
  (forall x, In x l -> get3 a (ft x) (fa x) (fp x) = Ok (v x)) ->
  take3 a (map ft l) (map fa l) (map fp l) = Ok (map v l).
Proof.
  intros H. unfold take3. rewrite broadcast_map_same. simpl.
  rewrite broadcast_map_same. simpl.
  apply mapM_map_ok. intros x Hx. simpl. now apply H.
Qed.

Lemma slice3_map {T : Type} (a : ndarray3) (l : list T) (ft fp : T -> Z)
    (v : T -> vec) :
  (forall x, In x l -> row3 a (ft x) (fp x) = Ok (v x)) ->
  slice3 a (map ft l) (map fp l) = Ok (map v l).
Proof.
  intros H. unfold slice3. rewrite broadcast_map_same. simpl.
  apply mapM_map_ok. intros x Hx. simpl. now apply H.
Qed.

Lemma average_row_map {T : Type} (la : list T) (qf wf : T -> Qc) :
  sum (map wf la) <> 0%Qc ->
  average_row (map qf la) (map wf la)
  = Ok (sum (map (fun x => qf x * wf x) la) / sum (map wf la))%Qc.
Proof.
  intros H. unfold average_row. rewrite !length_map, Nat.eqb_refl.
  apply Qceqb_false in H. rewrite H.
  now rewrite combine_map_same, map_map.
Qed.

Lemma average_map {T : Type} (l : list T) (q w : T -> vec) (v : T -> Qc) :
  (forall x, In x l -> average_row (q x) (w x) = Ok (v x)) ->
  average (map q l) (map w l) = Ok (map v l).
Proof.
  intros H. unfold average. rewrite !length_map, Nat.eqb_refl.
  rewrite combine_map_same. apply mapM_map_ok. intros x Hx. simpl. now apply H.
Qed.

(** ** The estimators on tabulated rounds *)

Lemma of_nat_S (n : nat) : of_nat (S n) = (of_nat n + 1)%Qc.
Proof.
  unfold of_nat, Qcplus. apply Qc_is_canon.
  cbn [this Q2Qc]. rewrite !Qred_correct.
  rewrite Nat2Z.inj_succ. unfold Z.succ. rewrite inject_Z_plus. reflexivity.
Qed.

Lemma of_nat_pos (n : nat) : (0 < n)%nat -> of_nat n <> 0%Qc.
Proof.
  intros H E. unfold of_nat in E.
  assert (E' : (inject_Z (Z.of_nat n) == 0)%Q).
  { rewrite <- (Qred_correct (inject_Z (Z.of_nat n))).
    change (Q2Qc (inject_Z (Z.of_nat n)) == Q2Qc 0)%Q. now rewrite E. }
  unfold Qeq in E'. simpl in E'. lia.
Qed.

Lemma mean_map {T : Type} (l : list T) (f : T -> Qc) :
  l <> [] -> mean (map f l) = Ok (sum (map f l) / of_nat (length l))%Qc.
Proof.
  intros H. rewrite <- (length_map f l).
  destruct l as [|x l]; [congruence|]. reflexivity.
Qed.

Lemma sum_b2q (bs : list bool) : sum (map b2q bs) = of_nat (count_true bs).
Proof.
  unfold count_true. induction bs as [|b bs IH]; simpl.
  - apply Qc_is_canon. reflexivity.
  - rewrite IH. destruct b; simpl.
    + rewrite of_nat_S. ring.
    + ring.
Qed.

Lemma sum_map_div {T : Type} (l : list T) (f : T -> Qc) (m : Qc) :
  m <> 0%Qc -> sum (map (fun x => f x / m)%Qc l) = (sum (map f l) / m)%Qc.
Proof.
  intros Hm. induction l as [|x l IH]; simpl.
  - field. exact Hm.
  - rewrite IH. field. exact Hm.
Qed.

Lemma in_seq_lt (n t : nat) : In t (seq 0 n) -> (t < n)%nat.
Proof. rewrite in_seq. lia. Qed.

Ltac step := cbn [bind fmap default_position].

Section Rounds.

Local Open Scope Qc_scope.

Variable n : nat.
Variables ad q : ndarray3.
Variables fr fps : nat -> Qc.
Variables fa fp : nat -> Z.

Local Abbreviation rounds := (seq 0 n).
Local Abbreviation pi := (picked ad fa fp).
Local Abbreviation iw := (fun t => picked ad fa fp t / fps t).
Local Abbreviation qf := (picked q fa fp).
Local Abbreviation dm := (weighted_average q ad fp).

Variables reward ps : vec.
Variables action position : list Z.

Hypothesis Er : reward = map fr rounds.
Hypothesis Ea : action = map fa rounds.
Hypothesis Ep : position = map fp rounds.
Hypothesis Eps : ps = map fps rounds.

Hypothesis Hn : n = shape0 ad.
Hypothesis Hq0 : shape0 q = shape0 ad.
Hypothesis Hq1 : shape1 q = shape1 ad.
Hypothesis Hq2 : shape2 q = shape2 ad.
Hypothesis Ha : forall t, In t rounds -> in_range (shape1 ad) (fa t) = true.
Hypothesis Hp : forall t, In t rounds -> in_range (shape2 ad) (fp t) = true.
Hypothesis Hps : forall t, In t rounds -> fps t <> 0.
Hypothesis Hw : forall t, In t rounds ->
  sum (map (fun a => at3 ad t a (Z.to_nat (fp t))) (seq 0 (shape1 ad))) <> 0.

Lemma length_action : length action = n.
Proof using Ea. rewrite Ea. now rewrite length_map, length_seq. Qed.

Lemma length_position : length position = n.
Proof using Ep. rewrite Ep. now rewrite length_map, length_seq. Qed.

Lemma picked_ok :
  take3 ad (arange (length action)) action position = Ok (map pi rounds).
Proof using Ea Ep Hn Ha Hp.
  rewrite length_action. unfold arange. rewrite Ea, Ep.
  apply take3_map. intros t Ht. apply get3_ok; auto.
  rewrite <- Hn. now apply in_seq_lt.
Qed.

Lemma factual_ok :
  take3 q (arange (length action)) action position = Ok (map qf rounds).
Proof using Ea Ep Hn Hq0 Hq1 Hq2 Ha Hp.
  rewrite length_action. unfold arange. rewrite Ea, Ep.
  apply take3_map. intros t Ht. apply get3_ok.
  - rewrite Hq0, <- Hn. now apply in_seq_lt.
  - rewrite Hq1. auto.
  - rewrite Hq2. auto.
Qed.

Lemma iw_ok : div (map pi rounds) ps = Ok (map iw rounds).
Proof using Eps Hps. rewrite Eps. now apply div_map. Qed.

Lemma slice_q_ok :
  slice3 q (arange n) position
  = Ok (map (fun t => map (fun i => at3 q t i (Z.to_nat (fp t))) (seq 0 (shape1 ad)))
          rounds).
Proof using Ep Hn Hq0 Hq1 Hq2 Hp.
  unfold arange. rewrite Ep. apply slice3_map. intros t Ht. rewrite row3_ok.
  - now rewrite Hq1.
  - rewrite Hq0, <- Hn. now apply in_seq_lt.
  - rewrite Hq2. auto.
Qed.

Lemma slice_ad_ok :
  slice3 ad (arange n) position
  = Ok (map (fun t => map (fun i => at3 ad t i (Z.to_nat (fp t))) (seq 0 (shape1 ad)))
          rounds).
Proof using Ep Hn Hp.
  unfold arange. rewrite Ep. apply slice3_map. intros t Ht.
  apply row3_ok; auto. rewrite <- Hn. now apply in_seq_lt.
Qed.

Lemma average_ok :
  average
    (map (fun t => map (fun i => at3 q t i (Z.to_nat (fp t))) (seq 0 (shape1 ad))) rounds)
    (map (fun t => map (fun i => at3 ad t i (Z.to_nat (fp t))) (seq 0 (shape1 ad))) rounds)
  = Ok (map dm rounds).
Proof using Hw.
  apply average_map. intros t Ht. rewrite average_row_map; auto.
Qed.

(** Replay Method. *)
Lemma rm_rounds :
  let k := count_true (map (fun t => Qceqb (pi t) 1) rounds) in
  RM._estimate_round_rewards reward action ad (Some position)
  = if Nat.ltb 0 k
    then Ok (map (fun t => b2q (Qceqb (pi t) 1) * fr t / (of_nat k / of_nat n)) rounds)
    else Ok (map (fun _ => 0) rounds).
Proof using Er Ea Ep Hn Ha Hp.
  intros k. unfold RM._estimate_round_rewards. step.
  rewrite picked_ok. step. rewrite !map_map. fold k.
  destruct (Nat.ltb 0 k) eqn:Hk; [|reflexivity].
  apply Nat.ltb_lt in Hk.
  assert (Hn0 : rounds <> []).
  { intros E. unfold k in Hk. rewrite E in Hk. cbv in Hk. clear -Hk. lia. }
  rewrite Er, mul_map. step.
  rewrite (mean_map (fun t => b2q (Qceqb (pi t) 1)) Hn0). step.
  rewrite length_seq.
  rewrite <- (map_map (fun t => Qceqb (pi t) 1) b2q), sum_b2q. fold k.
  apply div_scalar_map.
  intros E. apply Qcmult_integral in E. destruct E as [E | E].
  - now apply (of_nat_pos Hk).
  - assert (Hpos : (0 < n)%nat) by (clear -Hn0; destruct n; [now elim Hn0|lia]).
    pose proof (Qcmult_inv_r _ (of_nat_pos Hpos)) as X.
    rewrite E, Qcmult_0_r in X. symmetry in X. exact (Q_apart_0_1 X).
Qed.

(** Inverse Probability Weighting. *)
Lemma ipw_rounds (lam : ext) :
  IPW._estimate_round_rewards lam reward action ps ad (Some position)
  = Ok (map (fun t => fr t * min_ext (iw t) lam) rounds).
Proof using Er Ea Ep Eps Hn Ha Hp Hps.
  unfold IPW._estimate_round_rewards. step.
  rewrite picked_ok. step. rewrite iw_ok. step.
  rewrite minimum_map, Er. apply mul_map.
Qed.

(** Self-normalized IPW. *)
Lemma snipw_rounds :
  let m := sum (map iw rounds) / of_nat n in
  rounds <> [] -> m <> 0 ->
  SNIPW._estimate_round_rewards reward action ps ad (Some position)
  = Ok (map (fun t => fr t * iw t / m) rounds).
Proof using Er Ea Ep Eps Hn Ha Hp Hps.
  intros m Hn0 Hm. unfold SNIPW._estimate_round_rewards. step.
  rewrite picked_ok. step. rewrite iw_ok. step.
  rewrite Er, mul_map. step.
  rewrite (mean_map iw Hn0). step. rewrite length_seq.
  now apply div_scalar_map.
Qed.

(** Direct Method. *)
Lemma dm_rounds :
  DM._estimate_round_rewards ad q (Some position) = Ok (map dm rounds).
Proof using Ep Hn Hq0 Hq1 Hq2 Hp Hw.
  unfold DM._estimate_round_rewards. step. rewrite length_position.
  rewrite slice_q_ok. step. rewrite slice_ad_ok. step. apply average_ok.
Qed.

(** Doubly Robust. *)
Lemma dr_rounds (lam : ext) :
  DR._estimate_round_rewards lam reward action ps ad q (Some position)
  = Ok (map (fun t => dm t + min_ext (iw t) lam * (fr t - qf t)) rounds).
Proof using Er Ea Ep Eps Hn Hq0 Hq1 Hq2 Ha Hp Hps Hw.
  unfold DR._estimate_round_rewards. step.
  rewrite picked_ok. step. rewrite iw_ok. step.
  rewrite factual_ok. rewrite length_action.
  rewrite slice_q_ok. step. rewrite slice_ad_ok. step.
  rewrite average_ok. step.
  rewrite Er, sub_map. step.
  rewrite minimum_map, mul_map. step.
  apply iadd_map.
Qed.

(** Switch-DR. *)
Lemma switch_dr_rounds (lam : ext) :
  SwitchDR._estimate_round_rewards lam reward action ps ad q (Some position)
  = Ok (map (fun t => dm t + b2q (le_ext (iw t) lam) * iw t * (fr t - qf t)) rounds).
Proof using Er Ea Ep Eps Hn Hq0 Hq1 Hq2 Ha Hp Hps Hw.
  unfold SwitchDR._estimate_round_rewards, SwitchDR.rounds. step.
  rewrite picked_ok. step. rewrite iw_ok. step.
  rewrite factual_ok. rewrite length_action.
  rewrite slice_q_ok. step. rewrite slice_ad_ok. step.
  rewrite average_ok. step.
  rewrite map_map, mul_map. step.
  rewrite Er, sub_map. step.
  rewrite mul_map. step.
  apply iadd_map.
Qed.

(** DRos and SNDR, once the weights applied to the residuals are known. *)
Lemma dros_rounds (lam : ext) (fh : nat -> Qc) :
  DRos.shrink lam (map iw rounds) = Ok (map fh rounds) ->
  DRos._estimate_round_rewards lam reward action ps ad q (Some position)
  = Ok (map (fun t => dm t + fh t * (fr t - qf t)) rounds).
Proof using Er Ea Ep Eps Hn Hq0 Hq1 Hq2 Ha Hp Hps Hw.
  intros Hs. unfold DRos._estimate_round_rewards, DRos.rounds. step.
  rewrite picked_ok. step. rewrite iw_ok. step. rewrite Hs. step.
  rewrite factual_ok. rewrite length_action.
  rewrite slice_q_ok. step. rewrite slice_ad_ok. step.
  rewrite average_ok. step.
  rewrite Er, sub_map. step.
  rewrite mul_map. step.
  apply iadd_map.
Qed.

Lemma dros_rounds_fail (lam : ext) (e : failure) :
  DRos.shrink lam (map iw rounds) = Fail e ->
  DRos._estimate_round_rewards lam reward action ps ad q (Some position) = Fail e.
Proof using Ea Ep Eps Hn Ha Hp Hps.
  intros Hs. unfold DRos._estimate_round_rewards, DRos.rounds. step.
  rewrite picked_ok. step. rewrite iw_ok. step. now rewrite Hs.
Qed.

Lemma sndr_rounds :
  let m := sum (map iw rounds) / of_nat n in
  rounds <> [] -> m <> 0 ->
  SNDR._estimate_round_rewards reward action ps ad q (Some position)
  = Ok (map (fun t => dm t + iw t * (fr t - qf t) / m) rounds).
Proof using Er Ea Ep Eps Hn Hq0 Hq1 Hq2 Ha Hp Hps Hw.
  intros m Hn0 Hm. unfold SNDR._estimate_round_rewards, SNDR.rounds. step.
  rewrite picked_ok. step. rewrite iw_ok. step.
  rewrite factual_ok. rewrite length_action.
  rewrite slice_q_ok. step. rewrite slice_ad_ok. step.
  rewrite average_ok. step.
  rewrite Er, sub_map. step.
  rewrite mul_map. step.
  rewrite (mean_map iw Hn0). step. rewrite length_seq.
  rewrite div_scalar_map by exact Hm. step.
  apply iadd_map.
Qed.

Lemma sndr_rounds_upto_mean :
  SNDR._estimate_round_rewards reward action ps ad q (Some position)
  = (m <- mean (map iw rounds) ;;
     correction <- div_scalar (map (fun t => iw t * (fr t - qf t)) rounds) m ;;
     iadd (map dm rounds) correction).
Proof using Er Ea Ep Eps Hn Hq0 Hq1 Hq2 Ha Hp Hps Hw.
  unfold SNDR._estimate_round_rewards, SNDR.rounds. step.
  rewrite picked_ok. step. rewrite iw_ok. step.
  rewrite factual_ok. rewrite length_action.
  rewrite slice_q_ok. step. rewrite slice_ad_ok. step.
  rewrite average_ok. step.
  rewrite Er, sub_map. step.
  rewrite mul_map. step. reflexivity.
Qed.

End Rounds.

Arguments rm_rounds {n ad fr fa fp reward action position}.
Arguments ipw_rounds {n ad fr fps fa fp reward ps action position}.
Arguments snipw_rounds {n ad fr fps fa fp reward ps action position}.
Arguments dm_rounds {n ad q fp position}.
Arguments dr_rounds {n ad q fr fps fa fp reward ps action position}.
Arguments switch_dr_rounds {n ad q fr fps fa fp reward ps action position}.
Arguments dros_rounds {n ad q fr fps fa fp reward ps action position}.
Arguments dros_rounds_fail {n ad q fps fa fp reward ps action position}.
Arguments sndr_rounds {n ad q fr fps fa fp reward ps action position}.
Arguments sndr_rounds_upto_mean {n ad q fr fps fa fp reward ps action position}.

(** ** What a conforming batch provides *)

Lemma as_tabulated_n {A : Type} (d : A) (l : list A) (n : nat) :
  length l = n -> l = map (fun t => nth t l d) (seq 0 n).
Proof. intros <-. apply as_tabulated. Qed.

Lemma forallb_nth {A : Type} (P : A -> bool) (d : A) (l : list A) (n : nat) :
  length l = n -> forallb P l = true ->
  forall t, In t (seq 0 n) -> P (nth t l d) = true.
Proof.
  intros Hl HP t Ht. rewrite forallb_forall in HP. apply HP.
  apply nth_In. rewrite in_seq in Ht. lia.
Qed.

Lemma conforms_split (ad : ndarray3) (p a : option (list Z)) (rw ps : option vec)
    (q : option ndarray3) (w : option vec) :
  conforms ad p a rw ps q w = true ->
  is_distribution ad = true
  /\ opt_forall (fun p => Nat.eqb (length p) (shape0 ad)
                          && forallb (in_range (shape2 ad)) p)%bool p = true
  /\ opt_forall (fun a => Nat.eqb (length a) (shape0 ad)
                          && forallb (in_range (shape1 ad)) a)%bool a = true
  /\ opt_forall (fun r : vec => Nat.eqb (length r) (shape0 ad)) rw = true
  /\ opt_forall (fun s => Nat.eqb (length s) (shape0 ad)
                          && forallb (Qcltb 0) s)%bool ps = true
  /\ opt_forall (fun q => same_shape q ad) q = true
  /\ opt_forall (fun w => Nat.eqb (length w) (shape0 ad)
                          && forallb (Qcltb 0) w)%bool w = true.
Proof.
  unfold conforms. rewrite !andb_true_iff. tauto.
Qed.

Lemma distribution_at (ad : ndarray3) (t p : nat) :
  is_distribution ad = true -> (t < shape0 ad)%nat -> (p < shape2 ad)%nat ->
  sum (map (fun a => at3 ad t a p) (seq 0 (shape1 ad))) = 1%Qc
  /\ forall a, (a < shape1 ad)%nat -> (0 <= at3 ad t a p)%Qc.
Proof.
  unfold is_distribution. intros H Ht Hp.
  rewrite forallb_forall in H.
  specialize (H t). rewrite in_seq in H. specialize (H ltac:(lia)).
  rewrite forallb_forall in H.
  specialize (H p). rewrite in_seq in H. specialize (H ltac:(lia)).
  apply andb_true_iff in H as [H1 H2]. split.
  - now apply Qceqb_true.
  - intros a Ha. rewrite forallb_forall in H1.
    specialize (H1 a). rewrite in_seq in H1. specialize (H1 ltac:(lia)).
    apply andb_true_iff in H1 as [H1 _]. now apply Qcleb_true.
Qed.

Lemma in_range_lt (n : nat) (i : Z) :
  in_range n i = true -> (Z.to_nat i < n)%nat.
Proof.
  unfold in_range. intros H. apply andb_true_iff in H as [H1 H2].
  apply Z.leb_le in H1. apply Z.ltb_lt in H2. lia.
Qed.

Section Conforming.

Variable ad : ndarray3.
Variables (p a : list Z) (rw ps : vec) (q : ndarray3).
Variables (op oa : option (list Z)) (orw ops ow : option vec) (oq : option ndarray3).

Local Abbreviation n := (shape0 ad).

Lemma conforms_position :
  conforms ad (Some p) oa orw ops oq ow = true ->
  p = map (fun t => nth t p 0%Z) (seq 0 n)
  /\ (forall t, In t (seq 0 n) -> in_range (shape2 ad) (nth t p 0%Z) = true)
  /\ (forall t, In t (seq 0 n) ->
        sum (map (fun i => at3 ad t i (Z.to_nat (nth t p 0%Z))) (seq 0 (shape1 ad)))
        = 1%Qc)
  /\ (forall t i, In t (seq 0 n) -> (i < shape1 ad)%nat ->
        (0 <= at3 ad t i (Z.to_nat (nth t p 0%Z)))%Qc).
Proof.
  intros H. apply conforms_split in H as (Hd & Hp & _). simpl in Hp.
  apply andb_true_iff in Hp as [Hl Hr]. apply Nat.eqb_eq in Hl.
  assert (Hin : forall t, In t (seq 0 n) -> in_range (shape2 ad) (nth t p 0%Z) = true)
    by (now apply forallb_nth).
  repeat split.
  - now apply as_tabulated_n.
  - exact Hin.
  - intros t Ht. apply distribution_at; auto.
    + rewrite in_seq in Ht. lia.
    + apply in_range_lt. now apply Hin.
  - intros t i Ht Hi. apply distribution_at; auto.
    + rewrite in_seq in Ht. lia.
    + apply in_range_lt. now apply Hin.
Qed.

Lemma conforms_action :
  conforms ad op (Some a) orw ops oq ow = true ->
  a = map (fun t => nth t a 0%Z) (seq 0 n)
  /\ (forall t, In t (seq 0 n) -> in_range (shape1 ad) (nth t a 0%Z) = true).
Proof.
  intros H. apply conforms_split in H as (_ & _ & Ha & _). simpl in Ha.
  apply andb_true_iff in Ha as [Hl Hr]. apply Nat.eqb_eq in Hl. split.
  - now apply as_tabulated_n.
  - now apply forallb_nth.
Qed.

Lemma conforms_reward :
  conforms ad op oa (Some rw) ops oq ow = true ->
  rw = map (fun t => nth t rw 0%Qc) (seq 0 n).
Proof.
  intros H. apply conforms_split in H as (_ & _ & _ & Hr & _). simpl in Hr.
  apply Nat.eqb_eq in Hr. now apply as_tabulated_n.
Qed.

Lemma conforms_pscore :
  conforms ad op oa orw (Some ps) oq ow = true ->
  ps = map (fun t => nth t ps 0%Qc) (seq 0 n)
  /\ (forall t, In t (seq 0 n) -> (0 < nth t ps 0%Qc)%Qc).
Proof.
  intros H. apply conforms_split in H as (_ & _ & _ & _ & Hs & _). simpl in Hs.
  apply andb_true_iff in Hs as [Hl Hr]. apply Nat.eqb_eq in Hl. split.
  - now apply as_tabulated_n.
  - intros t Ht. apply Qcltb_true.
    now apply (forallb_nth (Qcltb 0) 0%Qc ps Hl Hr).
Qed.

Lemma conforms_rewards_model :
  conforms ad op oa orw ops (Some q) ow = true ->
  shape0 q = shape0 ad /\ shape1 q = shape1 ad /\ shape2 q = shape2 ad.
Proof.
  intros H. apply conforms_split in H as (_ & _ & _ & _ & _ & Hq & _).
  simpl in Hq. unfold same_shape in Hq.
  apply andb_true_iff in Hq as [Hq H2]. apply andb_true_iff in Hq as [H0 H1].
  apply Nat.eqb_eq in H0, H1, H2. auto.
Qed.

End Conforming.

Arguments conforms_position {ad p oa orw ops ow oq} _.
Arguments conforms_action {ad a op orw ops ow oq} _.
Arguments conforms_reward {ad rw op oa ops ow oq} _.
Arguments conforms_pscore {ad ps op oa orw ow oq} _.
Arguments conforms_rewards_model {ad q op oa orw ops ow} _.

Lemma Qclt_neq (x : Qc) : (0 < x)%Qc -> x <> 0%Qc.
Proof. intros H E. rewrite E in H. exact (Qclt_not_eq _ _ H eq_refl). Qed.

Lemma one_neq_zero (x : Qc) : x = 1%Qc -> x <> 0%Qc.
Proof. intros -> E. exact (Q_apart_0_1 E). Qed.

(** ** Computed results *)

Lemma veqb_eq (u v : vec) : veqb u v = true -> u = v.
Proof.
  revert v. induction u as [|x u IH]; intros [|y v]; simpl; try discriminate.
  - reflexivity.
  - intros H. apply andb_true_iff in H as [H1 H2].
    apply Qceqb_true in H1. subst. f_equal. now apply IH.
Qed.

Lemma returns_vec_eq (m : outcome vec) (v : vec) :
  returns_vec m v = true -> m = Ok v.
Proof.
  destruct m as [u|f]; simpl; [|discriminate].
  intros H. f_equal. now apply veqb_eq.
Qed.

Lemma returns_eq (m : outcome Qc) (x : Qc) : returns m x = true -> m = Ok x.
Proof.
  destruct m as [y|f]; simpl; [|discriminate].
  intros H. f_equal. now apply Qceqb_true.
Qed.

(** ** The position default *)

Lemma conforms_given_position (ad : ndarray3) (op oa : option (list Z))
    (orw ops : option vec) (oq : option ndarray3) (ow : option vec) :
  conforms ad (Some (default_position ad op)) oa orw ops oq ow = true ->
  conforms ad op oa orw ops oq ow = true.
Proof.
  destruct op as [p|]; [trivial|].
  unfold conforms. rewrite !andb_true_iff. simpl (opt_forall _ None). tauto.
Qed.

Lemma rm_position_default (rw : vec) (a : list Z) (ad : ndarray3) (op : option (list Z)) :
  RM._estimate_round_rewards rw a ad op
  = RM._estimate_round_rewards rw a ad (Some (default_position ad op)).
Proof. reflexivity. Qed.

Lemma ipw_position_default (lam : ext) (rw : vec) (a : list Z) (ps : vec)
    (ad : ndarray3) (op : option (list Z)) :
  IPW._estimate_round_rewards lam rw a ps ad op
  = IPW._estimate_round_rewards lam rw a ps ad (Some (default_position ad op)).
Proof. reflexivity. Qed.

Lemma snipw_position_default (rw : vec) (a : list Z) (ps : vec)
    (ad : ndarray3) (op : option (list Z)) :
  SNIPW._estimate_round_rewards rw a ps ad op
  = SNIPW._estimate_round_rewards rw a ps ad (Some (default_position ad op)).
Proof. reflexivity. Qed.

(** A batch that is well formed once forwarded had conforming arrays. *)
Lemma well_formed_conforming (e : estimator) (kw : inputs) :
  well_formed e (forwarded e kw) = true -> conforming_call e kw = true.
Proof.
  destruct e as [|l u|l u| |l u|l u|l u|l u|l];
    unfold well_formed, conforming_call;
    cbn [forwarded reward action action_dist position pscore estimated_pscore
         estimated_rewards_by_reg_model importance_sampling_ratio
         default_position];
    repeat match goal with
           | |- context [match ?x with Some _ => _ | None => _ end] =>
               destruct x; try discriminate
           end;
    apply conforms_given_position.
Qed.

(** ** C1: the policy value is the mean of the round rewards *)

(** C1.  For every estimator and every batch whose arrays conform to the
    data model, [estimate_policy_value] returns the arithmetic mean of the
    vector that the estimator's round-reward estimation returns on the same
    arrays, the position being defaulted to all zeros when absent (and the
    propensities being the ones the estimator's flag selects); when that
    estimation fails, the policy value fails in the same way. *)
Theorem estimate_policy_value_is_mean (e : estimator) (kw : inputs) :
  conforming_call e kw = true ->
  estimate_policy_value e kw
  = (rr <- _estimate_round_rewards e (forwarded e kw) ;; mean rr).
Proof.
  destruct e as [|l u|l u| |l u|l u|l u|l u|l];
    unfold conforming_call, estimate_policy_value, _estimate_round_rewards;
    cbn [forwarded reward action action_dist position pscore estimated_pscore
         estimated_rewards_by_reg_model importance_sampling_ratio
         effective_pscore].
  - (* Replay Method *)
    intros H. unfold RM.estimate_policy_value, check_ope_inputs, check_array.
    now rewrite H.
  - (* IPW *)
    unfold IPW.estimate_policy_value, IPW.select_pscore, check_ope_inputs, check_array.
    destruct (if truthy u then estimated_pscore kw else pscore kw) as [ps|] eqn:E;
      [|discriminate].
    intros H. destruct (truthy u); rewrite E; cbn [bind required]; now rewrite H.
  - (* SNIPW *)
    unfold IPW.estimate_policy_value, IPW.select_pscore, check_ope_inputs, check_array.
    destruct (if truthy u then estimated_pscore kw else pscore kw) as [ps|] eqn:E;
      [|discriminate].
    intros H. destruct (truthy u); rewrite E; cbn [bind required]; now rewrite H.
  - (* Direct Method *)
    unfold DM.estimate_policy_value, check_ope_inputs, check_array.
    destruct (estimated_rewards_by_reg_model kw) as [q|]; [|discriminate].
    intros H. cbn [bind required]. now rewrite H.
  - (* DR *)
    unfold DR.estimate_policy_value, DR.select_pscore, check_ope_inputs, check_array.
    destruct (if truthy u then estimated_pscore kw else pscore kw) as [ps|] eqn:E;
      [|discriminate].
    destruct (estimated_rewards_by_reg_model kw) as [q|]; [|discriminate].
    intros H. destruct (truthy u); rewrite E; cbn [bind required]; now rewrite H.
  - (* SNDR *)
    unfold DR.estimate_policy_value, DR.select_pscore, check_ope_inputs, check_array.
    destruct (if truthy u then estimated_pscore kw else pscore kw) as [ps|] eqn:E;
      [|discriminate].
    destruct (estimated_rewards_by_reg_model kw) as [q|]; [|discriminate].
    intros H. destruct (truthy u); rewrite E; cbn [bind required]; now rewrite H.
  - (* Switch-DR *)
    unfold DR.estimate_policy_value, DR.select_pscore, check_ope_inputs, check_array.
    destruct (if truthy u then estimated_pscore kw else pscore kw) as [ps|] eqn:E;
      [|discriminate].
    destruct (estimated_rewards_by_reg_model kw) as [q|]; [|discriminate].
    intros H. destruct (truthy u); rewrite E; cbn [bind required]; now rewrite H.
  - (* DRos *)
    unfold DR.estimate_policy_value, DR.select_pscore, check_ope_inputs, check_array.
    destruct (if truthy u then estimated_pscore kw else pscore kw) as [ps|] eqn:E;
      [|discriminate].
    destruct (estimated_rewards_by_reg_model kw) as [q|]; [|discriminate].
    intros H. destruct (truthy u); rewrite E; cbn [bind required]; now rewrite H.
  - (* Balanced IPW *)
    unfold BIPW.estimate_policy_value, check_array.
    destruct (importance_sampling_ratio kw) as [w|]; [|discriminate].
    intros _. reflexivity.
Qed.

Lemma estimate_policy_value_is_mean_witness :
  conforming_call (InverseProbabilityWeighting PInf (PyBool false)) scenario = true
  /\ estimate_policy_value (InverseProbabilityWeighting PInf (PyBool false)) scenario
     = (rr <- _estimate_round_rewards (InverseProbabilityWeighting PInf (PyBool false))
                (forwarded (InverseProbabilityWeighting PInf (PyBool false)) scenario) ;;
        mean rr).
Proof.
  split.
  - vm_compute. reflexivity.
  - apply (estimate_policy_value_is_mean
             (InverseProbabilityWeighting PInf (PyBool false)) scenario).
    vm_compute. reflexivity.
Defined.

(** ** C2: Inverse Probability Weighting *)

(** C2.  On a well-formed batch the IPW pseudo-reward of round [t] is
    [reward[t]] times the minimum of [lambda_] and the importance weight
    [w[t] = action_dist[t, action[t], position[t]] / pscore[t]]: it is
    [reward[t] * w[t]] when [lambda_] is infinite or [w[t] <= lambda_],
    and [reward[t] * lambda_] when [lambda_ < w[t]].  In the scenario of
    the spec (three rounds, rewards [1, 0, 1], actions [0, 1, 0], all
    propensities 1/2, a one-hot action distribution at the logged action)
    every weight is 2: with [lambda_] infinite the round rewards are
    [2, 0, 2] and the policy value is 4/3, and with [lambda_ = 1] the
    weights are clipped, the round rewards are [1, 0, 1] and the policy
    value is 2/3. *)
Theorem ipw_round_rewards_formula :
  (forall (lam : ext) (u : pyobj) (kw : inputs) (ps : vec),
      pscore kw = Some ps ->
      well_formed (InverseProbabilityWeighting lam u) kw = true ->
      _estimate_round_rewards (InverseProbabilityWeighting lam u) kw
      = Ok (per_round (n_rounds kw)
              (fun t => r kw t * min_ext (w ps kw t) lam)%Qc)
      /\ exists v : vec,
           _estimate_round_rewards (InverseProbabilityWeighting lam u) kw = Ok v
           /\ length v = n_rounds kw
           /\ forall t, (t < n_rounds kw)%nat ->
                match lam with
                | PInf => nth t v 0%Qc = (r kw t * w ps kw t)%Qc
                | Fin l =>
                    ((w ps kw t <= l)%Qc -> nth t v 0%Qc = (r kw t * w ps kw t)%Qc)
                    /\ ((l < w ps kw t)%Qc -> nth t v 0%Qc = (r kw t * l)%Qc)
                end)
  /\ _estimate_round_rewards (InverseProbabilityWeighting PInf (PyBool false)) scenario
     = Ok [two; 0%Qc; two]
  /\ estimate_policy_value (InverseProbabilityWeighting PInf (PyBool false)) scenario
     = Ok (Q2Qc (4 # 3))
  /\ _estimate_round_rewards (InverseProbabilityWeighting (Fin 1%Qc) (PyBool false))
       scenario
     = Ok [1%Qc; 0%Qc; 1%Qc]
  /\ estimate_policy_value (InverseProbabilityWeighting (Fin 1%Qc) (PyBool false))
       scenario
     = Ok (Q2Qc (2 # 3)).
Proof.
  split; [|split; [|split; [|split]]].
  - intros lam u kw ps Eps H. unfold well_formed in H. rewrite Eps in H.
    destruct (conforms_position H) as (Ep & Hp & _).
    destruct (conforms_action H) as (Ea & Ha).
    destruct (conforms_pscore H) as (Es & Hs).
    pose proof (conforms_reward H) as Er.
    assert (E : _estimate_round_rewards (InverseProbabilityWeighting lam u) kw
                = Ok (per_round (n_rounds kw)
                        (fun t => r kw t * min_ext (w ps kw t) lam)%Qc)).
    { cbn [_estimate_round_rewards]. rewrite Eps. cbn [required bind].
      rewrite ipw_position_default.
      apply (ipw_rounds (fr := r kw) (fps := fun t => nth t ps 0%Qc)
               (fa := act kw) (fp := pos kw) Er Ea Ep Es eq_refl Ha Hp).
      intros t Ht. apply Qclt_neq. now apply Hs. }
    split; [exact E|]. eexists. split; [exact E|]. split.
    { unfold per_round. now rewrite length_map, length_seq. }
    intros t Ht.
    assert (En : nth t (per_round (n_rounds kw)
                          (fun t => r kw t * min_ext (w ps kw t) lam)%Qc) 0%Qc
                 = (r kw t * min_ext (w ps kw t) lam)%Qc).
    { unfold per_round.
      rewrite (nth_indep _ 0%Qc
                 ((fun t => r kw t * min_ext (w ps kw t) lam)%Qc 0%nat))
        by now rewrite length_map, length_seq.
      rewrite (map_nth (fun t => r kw t * min_ext (w ps kw t) lam)%Qc).
      now rewrite seq_nth. }
    rewrite En. destruct lam as [l|]; [|reflexivity].
    cbn [min_ext]. split.
    + intros Hle. apply Qcleb_true in Hle. now rewrite Hle.
    + intros Hlt. destruct (Qcleb (w ps kw t) l) eqn:Eb; [|reflexivity].
      apply Qcleb_true in Eb. exfalso. exact (Qcle_not_lt _ _ Eb Hlt).
  - apply returns_vec_eq. vm_compute. reflexivity.
  - apply returns_eq. vm_compute. reflexivity.
  - apply returns_vec_eq. vm_compute. reflexivity.
  - apply returns_eq. vm_compute. reflexivity.
Qed.

Lemma ipw_round_rewards_formula_witness :
  pscore scenario = Some [half; half; half]
  /\ well_formed (InverseProbabilityWeighting (Fin 1%Qc) (PyBool false)) scenario = true
  /\ _estimate_round_rewards (InverseProbabilityWeighting (Fin 1%Qc) (PyBool false))
       scenario
     = Ok (per_round (n_rounds scenario)
             (fun t => r scenario t * min_ext (w [half; half; half] scenario t) (Fin 1%Qc))%Qc)
  /\ exists v : vec,
       _estimate_round_rewards (InverseProbabilityWeighting (Fin 1%Qc) (PyBool false))
         scenario = Ok v
       /\ length v = n_rounds scenario
       /\ forall t, (t < n_rounds scenario)%nat ->
            ((w [half; half; half] scenario t <= 1)%Qc ->
             nth t v 0%Qc = (r scenario t * w [half; half; half] scenario t)%Qc)
            /\ ((1 < w [half; half; half] scenario t)%Qc ->
                nth t v 0%Qc = (r scenario t * 1)%Qc).
Proof.
  assert (H : well_formed (InverseProbabilityWeighting (Fin 1%Qc) (PyBool false))
                scenario = true) by (vm_compute; reflexivity).
  split; [reflexivity|]. split; [exact H|].
  exact (proj1 ipw_round_rewards_formula (Fin 1%Qc) (PyBool false) scenario
           [half; half; half] eq_refl H).
Defined.

(** ** C6: Replay Method *)

(** C6.  On a well-formed batch, when no round has an [action_dist] entry
    equal to 1 at the logged action and position, the Replay Method returns
    the all-zero vector with one entry per round, and it does so without
    dividing; when at least one round matches, the reward of round [t] is
    the indicator of the match times [reward[t]], divided by the fraction of
    matching rounds. *)
Theorem replay_round_rewards (kw : inputs) :
  well_formed ReplayMethod kw = true ->
  let n := n_rounds kw in
  let matched := fun t => Qceqb (pi_e kw t) 1%Qc in
  let k := count_true (map matched (seq 0 n)) in
  (k = 0%nat ->
     _estimate_round_rewards ReplayMethod kw = Ok (per_round n (fun _ => 0%Qc)))
  /\ ((0 < k)%nat ->
        _estimate_round_rewards ReplayMethod kw
        = Ok (per_round n
                (fun t => b2q (matched t) * r kw t / (of_nat k / of_nat n))%Qc)).
Proof.
  intros H n matched k. unfold well_formed in H.
  destruct (conforms_position H) as (Ep & Hp & _).
  destruct (conforms_action H) as (Ea & Ha).
  pose proof (conforms_reward H) as Er.
  cbn [_estimate_round_rewards]. rewrite rm_position_default.
  assert (R : RM._estimate_round_rewards (reward kw) (action kw) (action_dist kw)
                (Some (default_position (action_dist kw) (position kw)))
              = if Nat.ltb 0 k
                then Ok (per_round n
                           (fun t => b2q (matched t) * r kw t
                                     / (of_nat k / of_nat n))%Qc)
                else Ok (per_round n (fun _ => 0%Qc)))
    by exact (rm_rounds (fr := r kw) (fa := act kw) (fp := pos kw)
                Er Ea Ep eq_refl Ha Hp).
  split; intros Hk; rewrite R.
  - rewrite Hk. reflexivity.
  - apply Nat.ltb_lt in Hk. rewrite Hk. reflexivity.
Qed.

Lemma replay_round_rewards_witness :
  well_formed ReplayMethod no_match = true
  /\ _estimate_round_rewards ReplayMethod no_match = Ok [0%Qc; 0%Qc; 0%Qc]
  /\ well_formed ReplayMethod scenario = true
  /\ _estimate_round_rewards ReplayMethod scenario
     = Ok (per_round 3
             (fun t => b2q (Qceqb (pi_e scenario t) 1%Qc) * r scenario t
                       / (of_nat 3 / of_nat 3))%Qc).
Proof.
  split; [vm_compute; reflexivity|]. split.
  - apply (proj1 (replay_round_rewards no_match eq_refl)). vm_compute. reflexivity.
  - split; [vm_compute; reflexivity|].
    apply (proj2 (replay_round_rewards scenario eq_refl)). vm_compute. lia.
Defined.

(** ** C5: Self-Normalized IPW *)

Lemma mean_tabulated (n : nat) (f : nat -> Qc) (m : Qc) :
  mean (per_round n f) = Ok m ->
  seq 0 n <> [] /\ m = (sum (per_round n f) / of_nat n)%Qc.
Proof.
  unfold per_round. intros H.
  assert (Hn : seq 0 n <> []) by (intros E; rewrite E in H; discriminate).
  split; [exact Hn|].
  rewrite (mean_map f Hn), length_seq in H. now injection H as <-.
Qed.

Lemma div_nonzero_num (x y : Qc) : (x / y)%Qc <> 0%Qc -> x <> 0%Qc.
Proof.
  intros H E. apply H. rewrite E. unfold Qcdiv. apply Qcmult_0_l.
Qed.

(** C5.  On a well-formed batch whose mean importance weight [m] is not
    zero, the SNIPW round reward of round [t] is [reward[t] * w[t] / m] with
    [w[t] = action_dist[t, action[t], position[t]] / pscore[t]], unclipped
    whatever [lambda_] is: one normalizer divides every round.  The mean
    of the round rewards is the ratio of sums
    [(sum_t reward[t] * w[t]) / (sum_t w[t])]. *)
Theorem snipw_ratio_of_sums (lam : ext) (u : pyobj) (kw : inputs) (ps : vec) (m : Qc) :
  pscore kw = Some ps ->
  well_formed (SelfNormalizedInverseProbabilityWeighting lam u) kw = true ->
  mean (per_round (n_rounds kw) (w ps kw)) = Ok m ->
  m <> 0%Qc ->
  exists v : vec,
    _estimate_round_rewards (SelfNormalizedInverseProbabilityWeighting lam u) kw = Ok v
    /\ v = per_round (n_rounds kw) (fun t => r kw t * w ps kw t / m)%Qc
    /\ mean v
       = Ok (sum (per_round (n_rounds kw) (fun t => r kw t * w ps kw t)%Qc)
             / sum (per_round (n_rounds kw) (w ps kw)))%Qc.
Proof.
  intros Eps H Hmean Hm. unfold well_formed in H. rewrite Eps in H.
  destruct (conforms_position H) as (Ep & Hp & _).
  destruct (conforms_action H) as (Ea & Ha).
  destruct (conforms_pscore H) as (Es & Hs).
  pose proof (conforms_reward H) as Er.
  destruct (mean_tabulated _ _ Hmean) as (Hn0 & Em).
  assert (Hps : forall t, In t (seq 0 (n_rounds kw)) -> nth t ps 0%Qc <> 0%Qc)
    by (intros t Ht; apply Qclt_neq; now apply Hs).
  eexists. split; [|split; [reflexivity|]].
  - cbn [_estimate_round_rewards]. rewrite Eps. cbn [required bind].
    rewrite snipw_position_default. rewrite Em. rewrite Em in Hm.
    exact (snipw_rounds (fr := r kw) (fps := fun t => nth t ps 0%Qc)
             (fa := act kw) (fp := pos kw) Er Ea Ep Es eq_refl Ha Hp Hps Hn0 Hm).
  - unfold per_round at 1. rewrite (mean_map _ Hn0), length_seq. f_equal.
    rewrite (sum_map_div _ _ Hm). fold (per_round (n_rounds kw) (fun t => r kw t * w ps kw t)%Qc).
    rewrite Em. rewrite Em in Hm.
    assert (Hs0 : sum (per_round (n_rounds kw) (w ps kw)) <> 0%Qc)
      by (exact (div_nonzero_num Hm)).
    assert (Hn1 : of_nat (n_rounds kw) <> 0%Qc).
    { apply of_nat_pos. destruct (n_rounds kw); [now elim Hn0|lia]. }
    field. auto.
Qed.

Lemma snipw_ratio_of_sums_witness :
  pscore scenario = Some [half; half; half]
  /\ well_formed (SelfNormalizedInverseProbabilityWeighting PInf (PyBool false)) scenario
     = true
  /\ mean (per_round (n_rounds scenario) (w [half; half; half] scenario)) = Ok two
  /\ two <> 0%Qc
  /\ exists v : vec,
       _estimate_round_rewards
         (SelfNormalizedInverseProbabilityWeighting PInf (PyBool false)) scenario = Ok v
       /\ v = per_round (n_rounds scenario)
                (fun t => r scenario t * w [half; half; half] scenario t / two)%Qc
       /\ mean v
          = Ok (sum (per_round (n_rounds scenario)
                       (fun t => r scenario t * w [half; half; half] scenario t)%Qc)
                / sum (per_round (n_rounds scenario) (w [half; half; half] scenario)))%Qc.
Proof.
  assert (H2 : two <> 0%Qc) by (apply Qceqb_false; vm_compute; reflexivity).
  assert (Hm : mean (per_round (n_rounds scenario) (w [half; half; half] scenario))
               = Ok two) by (apply returns_eq; vm_compute; reflexivity).
  split; [reflexivity|]. split; [vm_compute; reflexivity|].
  split; [exact Hm|]. split; [exact H2|].
  exact (snipw_ratio_of_sums PInf (PyBool false) scenario eq_refl eq_refl Hm H2).
Defined.

(** ** C3: Switch-DR at its two extremes *)

Lemma Qcdiv_nonneg (x y : Qc) : (0 <= x)%Qc -> (0 < y)%Qc -> (0 <= x / y)%Qc.
Proof.
  unfold Qcle, Qclt, Qcdiv, Qcmult, Qcinv. cbn [this Q2Qc].
  intros Hx Hy. rewrite !Qred_correct.
  apply Qmult_le_0_compat; [exact Hx|].
  apply Qinv_le_0_compat. now apply Qlt_le_weak.
Qed.

Lemma switch_at_zero (x y : Qc) :
  (0 <= x)%Qc -> (b2q (le_ext x (Fin 0%Qc)) * x * y)%Qc = 0%Qc.
Proof.
  intros Hx. unfold le_ext. destruct (Qcleb x 0%Qc) eqn:E; simpl.
  - apply Qcleb_true in E. rewrite (Qcle_antisym _ _ E Hx). ring.
  - ring.
Qed.

Lemma switch_at_infinity (x y : Qc) :
  (b2q (le_ext x PInf) * x * y)%Qc = (min_ext x PInf * y)%Qc.
Proof. simpl. ring. Qed.

(** C3.  On a well-formed batch with the positions given, Switch-DR with
    [lambda_ = 0] returns exactly the round rewards of the Direct Method,
    and Switch-DR with [lambda_] infinite returns exactly the round rewards
    of Doubly Robust with [lambda_] infinite; both vectors exist and have
    one entry per round. *)
Theorem switch_dr_extremes (u u' : pyobj) (kw : inputs) :
  well_formed (SwitchDoublyRobust (Fin 0%Qc) u) kw = true ->
  position kw <> None ->
  exists dm dr : vec,
    length dm = n_rounds kw /\ length dr = n_rounds kw
    /\ _estimate_round_rewards DirectMethod kw = Ok dm
    /\ _estimate_round_rewards (SwitchDoublyRobust (Fin 0%Qc) u) kw = Ok dm
    /\ _estimate_round_rewards (DoublyRobust PInf u') kw = Ok dr
    /\ _estimate_round_rewards (SwitchDoublyRobust PInf u) kw = Ok dr.
Proof.
  intros H Hpos. unfold well_formed in H.
  destruct (pscore kw) as [ps|] eqn:Eps; [|discriminate].
  destruct (estimated_rewards_by_reg_model kw) as [q|] eqn:Eq; [|discriminate].
  destruct (position kw) as [p|] eqn:Epos; [|congruence].
  cbn [default_position] in H.
  destruct (conforms_position H) as (Ep & Hp & Hsum & Hnn).
  destruct (conforms_action H) as (Ea & Ha).
  destruct (conforms_pscore H) as (Es & Hs).
  destruct (conforms_rewards_model H) as (Hq0 & Hq1 & Hq2).
  pose proof (conforms_reward H) as Er.
  assert (Hps : forall t, In t (seq 0 (n_rounds kw)) -> nth t ps 0%Qc <> 0%Qc)
    by (intros t Ht; apply Qclt_neq; now apply Hs).
  assert (Hw : forall t, In t (seq 0 (n_rounds kw)) ->
            sum (map (fun a => at3 (action_dist kw) t a (Z.to_nat (nth t p 0%Z)))
                   (seq 0 (shape1 (action_dist kw)))) <> 0%Qc)
    by (intros t Ht; apply one_neq_zero; now apply Hsum).
  set (fa := fun t => nth t (action kw) 0%Z) in *.
  set (fp := fun t => nth t p 0%Z) in *.
  set (fr := fun t => nth t (reward kw) 0%Qc) in *.
  set (fps := fun t => nth t ps 0%Qc) in *.
  exists (map (weighted_average q (action_dist kw) fp) (seq 0 (n_rounds kw))).
  exists (map (fun t => weighted_average q (action_dist kw) fp t
                        + min_ext (picked (action_dist kw) fa fp t / fps t) PInf
                          * (fr t - picked q fa fp t))%Qc
            (seq 0 (n_rounds kw))).
  cbn [_estimate_round_rewards]. rewrite Eps, Eq, Epos. cbn [required bind].
  rewrite !length_map, !length_seq.
  split; [reflexivity|]. split; [reflexivity|]. split; [|split; [|split]].
  - exact (dm_rounds Ep eq_refl Hq0 Hq1 Hq2 Hp Hw).
  - rewrite (switch_dr_rounds Er Ea Ep Es eq_refl Hq0 Hq1 Hq2 Ha Hp Hps Hw).
    apply f_equal. apply map_ext_in. intros t Ht.
    rewrite switch_at_zero; [ring|].
    apply Qcdiv_nonneg; [|now apply Hs].
    apply Hnn; [exact Ht|]. apply in_range_lt. now apply Ha.
  - exact (dr_rounds Er Ea Ep Es eq_refl Hq0 Hq1 Hq2 Ha Hp Hps Hw PInf).
  - rewrite (switch_dr_rounds Er Ea Ep Es eq_refl Hq0 Hq1 Hq2 Ha Hp Hps Hw).
    apply f_equal. apply map_ext. intros t. now rewrite switch_at_infinity.
Qed.

Lemma switch_dr_extremes_witness :
  well_formed (SwitchDoublyRobust (Fin 0%Qc) (PyBool false)) zero_weight = true
  /\ position zero_weight <> None
  /\ exists dm dr : vec,
       length dm = n_rounds zero_weight /\ length dr = n_rounds zero_weight
       /\ _estimate_round_rewards DirectMethod zero_weight = Ok dm
       /\ _estimate_round_rewards (SwitchDoublyRobust (Fin 0%Qc) (PyBool false))
            zero_weight = Ok dm
       /\ _estimate_round_rewards (DoublyRobust PInf (PyBool false)) zero_weight = Ok dr
       /\ _estimate_round_rewards (SwitchDoublyRobust PInf (PyBool false)) zero_weight
          = Ok dr.
Proof.
  split; [vm_compute; reflexivity|]. split; [discriminate|].
  apply (switch_dr_extremes (PyBool false) (PyBool false) zero_weight).
  - vm_compute. reflexivity.
  - discriminate.
Defined.

(** ** C4: Doubly Robust with optimistic shrinkage *)

Lemma shrink_finite {T : Type} (l : list T) (lam : Qc) (f : T -> Qc) :
  (forall x, In x l -> (f x * f x + lam)%Qc <> 0%Qc) ->
  DRos.shrink (Fin lam) (map f l)
  = Ok (map (fun x => lam * f x / (f x * f x + lam))%Qc l).
Proof.
  intros H. unfold DRos.shrink. apply mapM_map_ok.
  intros x Hx. apply fdiv_ok. now apply H.
Qed.

Lemma shrink_cases {T : Type} (l : list T) (lam : ext) (f : T -> Qc) :
  DRos.shrink lam (map f l) = Ok (map (fun x => shrunk lam (f x)) l)
  \/ DRos.shrink lam (map f l) = Fail NonFinite.
Proof.
  destruct lam as [c|]; [|left; reflexivity].
  unfold DRos.shrink.
  induction l as [|x l IH]; [left; reflexivity|].
  cbn [map mapM]. unfold fdiv at 1 3.
  destruct (Qceqb (f x * f x + c)%Qc 0%Qc); cbn [bind]; [right; reflexivity|].
  destruct IH as [E | E]; rewrite E; cbn [bind].
  - left. reflexivity.
  - right. reflexivity.
Qed.

(** The weight DRos applies to the residual of a round: [lambda_ * w /
    (w^2 + lambda_)] for a finite [lambda_] (when that denominator is not
    zero), and [w] itself when [lambda_] is infinite. *)
Lemma dros_shrunk_weight (u : pyobj) (kw : inputs) (ps : vec) (q : ndarray3)
    (p : list Z) :
  pscore kw = Some ps -> estimated_rewards_by_reg_model kw = Some q ->
  position kw = Some p ->
  well_formed (DoublyRobustWithShrinkage PInf u) kw = true ->
  (forall lam : Qc,
      (forall t, In t (seq 0 (n_rounds kw)) ->
                 (w ps kw t * w ps kw t + lam)%Qc <> 0%Qc) ->
      _estimate_round_rewards (DoublyRobustWithShrinkage (Fin lam) u) kw
      = Ok (per_round (n_rounds kw)
              (fun t => dm_term q kw t
                        + lam * w ps kw t / (w ps kw t * w ps kw t + lam)
                          * (r kw t - q_factual q kw t))%Qc))
  /\ _estimate_round_rewards (DoublyRobustWithShrinkage PInf u) kw
     = Ok (per_round (n_rounds kw)
             (fun t => dm_term q kw t + w ps kw t * (r kw t - q_factual q kw t))%Qc).
Proof.
  intros Eps Eq Epos H. unfold well_formed in H. rewrite Eps, Eq, Epos in H.
  cbn [default_position] in H.
  destruct (conforms_position H) as (Ep & Hp & Hsum & Hnn).
  destruct (conforms_action H) as (Ea & Ha).
  destruct (conforms_pscore H) as (Es & Hs).
  destruct (conforms_rewards_model H) as (Hq0 & Hq1 & Hq2).
  pose proof (conforms_reward H) as Er.
  assert (Hps : forall t, In t (seq 0 (n_rounds kw)) -> nth t ps 0%Qc <> 0%Qc)
    by (intros t Ht; apply Qclt_neq; now apply Hs).
  assert (Hw : forall t, In t (seq 0 (n_rounds kw)) ->
            sum (map (fun a => at3 (action_dist kw) t a (Z.to_nat (nth t p 0%Z)))
                   (seq 0 (shape1 (action_dist kw)))) <> 0%Qc)
    by (intros t Ht; apply one_neq_zero; now apply Hsum).
  assert (Epk : pos kw = fun t => nth t p 0%Z)
    by (unfold pos; now rewrite Epos).
  unfold dm_term, q_factual, w, pi_e. rewrite Epk.
  cbn [_estimate_round_rewards]. rewrite Eps, Eq, Epos. cbn [required bind].
  split.
  - intros lam Hden.
    refine (dros_rounds (fr := r kw) (fa := act kw) Er Ea Ep Es eq_refl Hq0 Hq1 Hq2
              Ha Hp Hps Hw (Fin lam) _ _).
    apply (@shrink_finite nat (seq 0 (n_rounds kw)) lam
             (fun t => picked (action_dist kw) (act kw) (fun t0 => nth t0 p 0%Z) t
                       / nth t ps 0)%Qc).
    intros t Ht. exact (Hden t Ht).
  - exact (dros_rounds (fr := r kw) (fa := act kw) Er Ea Ep Es eq_refl Hq0 Hq1 Hq2
             Ha Hp Hps Hw PInf _ eq_refl).
Qed.

(** With [lambda_ = 0] and every importance weight different from zero the
    shrunk weight is zero, and DRos returns the Direct Method's rewards. *)
Lemma dros_zero_nonzero_weights (u : pyobj) (kw : inputs) (ps : vec) (q : ndarray3)
    (p : list Z) :
  pscore kw = Some ps -> estimated_rewards_by_reg_model kw = Some q ->
  position kw = Some p ->
  well_formed (DoublyRobustWithShrinkage (Fin 0%Qc) u) kw = true ->
  (forall t, In t (seq 0 (n_rounds kw)) -> w ps kw t <> 0%Qc) ->
  _estimate_round_rewards (DoublyRobustWithShrinkage (Fin 0%Qc) u) kw
  = _estimate_round_rewards DirectMethod kw.
Proof.
  intros Eps Eq Epos H Hnz.
  assert (Hden : forall t, In t (seq 0 (n_rounds kw)) ->
                           (w ps kw t * w ps kw t + 0)%Qc <> 0%Qc).
  { intros t Ht E. rewrite Qcplus_0_r in E.
    apply Qcmult_integral in E. destruct E; now apply (Hnz t Ht). }
  rewrite (proj1 (dros_shrunk_weight u kw Eps Eq Epos H) 0%Qc Hden).
  unfold well_formed in H. rewrite Eps, Eq, Epos in H. cbn [default_position] in H.
  destruct (conforms_position H) as (Ep & Hp & Hsum & Hnn).
  destruct (conforms_rewards_model H) as (Hq0 & Hq1 & Hq2).
  assert (Hw : forall t, In t (seq 0 (n_rounds kw)) ->
            sum (map (fun a => at3 (action_dist kw) t a (Z.to_nat (nth t p 0%Z)))
                   (seq 0 (shape1 (action_dist kw)))) <> 0%Qc)
    by (intros t Ht; apply one_neq_zero; now apply Hsum).
  assert (Epk : pos kw = fun t => nth t p 0%Z)
    by (unfold pos; now rewrite Epos).
  cbn [_estimate_round_rewards]. rewrite Eq, Epos. cbn [required bind].
  rewrite (dm_rounds Ep eq_refl Hq0 Hq1 Hq2 Hp Hw).
  apply f_equal. unfold per_round, dm_term, q_factual, w, pi_e in Hnz |- *.
  rewrite Epk in Hnz. rewrite Epk.
  destruct (conforms_pscore H) as (_ & Hs).
  apply map_ext_in. intros t Ht. rewrite Qcplus_0_r. field. split.
  - apply Qclt_neq. now apply Hs.
  - exact (div_nonzero_num (Hnz t Ht)).
Qed.

Lemma dros_zero_positive_weight :
  _estimate_round_rewards (DoublyRobustWithShrinkage (Fin 0%Qc) (PyBool false))
    positive_weight
  = _estimate_round_rewards DirectMethod positive_weight.
Proof.
  apply (@dros_zero_nonzero_weights (PyBool false) positive_weight [half; half]
           _ _ eq_refl eq_refl eq_refl eq_refl).
  intros t Ht. apply Qceqb_false.
  destruct Ht as [<- | [<- | []]]; vm_compute; reflexivity.
Qed.

(** C4, at the input where the code departs from it: two well-formed
    rounds, the evaluation policy giving probability 0 to the logged action
    of round 0, [lambda_ = 0].  The Direct Method returns [6/10, 3/10]; in
    DRos the shrunk weight of round 0 is [0 * 0 / (0 + 0)], a division by
    zero, so that no finite round reward comes out. *)
Theorem dros_zero_lambda_zero_weight :
  well_formed (DoublyRobustWithShrinkage (Fin 0%Qc) (PyBool false)) zero_weight = true
  /\ w [half; half] zero_weight 0 = 0%Qc
  /\ _estimate_round_rewards DirectMethod zero_weight
     = Ok [Q2Qc (6 # 10); Q2Qc (3 # 10)]
  /\ _estimate_round_rewards (DoublyRobustWithShrinkage (Fin 0%Qc) (PyBool false))
       zero_weight
     = Fail NonFinite.
Proof.
  split; [vm_compute; reflexivity|]. split; [|split].
  - apply Qceqb_true. vm_compute. reflexivity.
  - apply returns_vec_eq. vm_compute. reflexivity.
  - vm_compute. reflexivity.
Qed.

(** ** C10: the position as a precondition *)

Lemma normalized_cases {T : Type} (l : list T) (f g h : T -> Qc) :
  (exists v : vec,
      length v = length l
      /\ (m <- mean (map f l) ;;
          correction <- div_scalar (map g l) m ;;
          iadd (map h l) correction) = Ok v)
  \/ (m <- mean (map f l) ;;
      correction <- div_scalar (map g l) m ;;
      iadd (map h l) correction) = Fail NonFinite.
Proof.
  destruct l as [|x l]; [right; reflexivity|].
  assert (Hl : x :: l <> []) by discriminate.
  rewrite (mean_map f Hl). cbn [bind].
  set (m := (sum (map f (x :: l)) / of_nat (length (x :: l)))%Qc).
  destruct (Qceqb m 0%Qc) eqn:E.
  - right. unfold div_scalar. cbn [map mapM]. unfold fdiv at 1. now rewrite E.
  - left. apply Qceqb_false in E. rewrite (div_scalar_map (x :: l) g E). cbn [bind].
    rewrite iadd_map. eexists. split; [|reflexivity]. now rewrite length_map.
Qed.

(** The fragment on rank-3 arrays. *)

Definition has_shape (a : ndarray3) (s0 s1 s2 : nat) : Prop :=
  shape0 a = s0 /\ shape1 a = s1 /\ shape2 a = s2.

Lemma axis_same (n : nat) : axis n n = Ok n.
Proof. unfold axis. now rewrite Nat.eqb_refl. Qed.

Lemma axis_one_l (n : nat) : axis 1 n = Ok n.
Proof.
  unfold axis. destruct (Nat.eqb 1 n) eqn:E; [|reflexivity].
  apply Nat.eqb_eq in E. now subst.
Qed.

Lemma axis_one_r (n : nat) : axis n 1 = Ok n.
Proof.
  unfold axis. destruct (Nat.eqb n 1) eqn:E; [|reflexivity].
  apply Nat.eqb_eq in E. now subst.
Qed.

Lemma axis_mismatch (a b : nat) :
  a <> b -> a <> 1%nat -> b <> 1%nat -> axis a b = Fail ValueError.
Proof.
  intros H1 H2 H3. unfold axis.
  apply Nat.eqb_neq in H1, H2, H3. now rewrite H1, H2, H3.
Qed.

Lemma axis_fail (a b : nat) (e : failure) : axis a b = Fail e -> e = ValueError.
Proof.
  unfold axis. destruct (Nat.eqb a b); [discriminate|].
  destruct (Nat.eqb a 1); [discriminate|].
  destruct (Nat.eqb b 1); [discriminate|]. congruence.
Qed.

Lemma broadcast3_fail (f : Qc -> Qc -> Qc) (a b : ndarray3) (e : failure) :
  broadcast3 f a b = Fail e -> e = ValueError.
Proof.
  unfold broadcast3.
  destruct (axis (shape0 a) (shape0 b)) eqn:E0; cbn [bind];
    [|intros H; injection H as <-; exact (axis_fail _ _ E0)].
  destruct (axis (shape1 a) (shape1 b)) eqn:E1; cbn [bind];
    [|intros H; injection H as <-; exact (axis_fail _ _ E1)].
  destruct (axis (shape2 a) (shape2 b)) eqn:E2; cbn [bind];
    [discriminate|intros H; injection H as <-; exact (axis_fail _ _ E2)].
Qed.

Lemma broadcast3_ok (f : Qc -> Qc -> Qc) (a b : ndarray3) (r0 r1 r2 : nat) :
  axis (shape0 a) (shape0 b) = Ok r0 ->
  axis (shape1 a) (shape1 b) = Ok r1 ->
  axis (shape2 a) (shape2 b) = Ok r2 ->
  exists c : ndarray3,
    broadcast3 f a b = Ok c /\ has_shape c r0 r1 r2
    /\ forall t i j,
         at3 c t i j
         = f (at3 a (pick (shape0 a) t) (pick (shape1 a) i) (pick (shape2 a) j))
             (at3 b (pick (shape0 b) t) (pick (shape1 b) i) (pick (shape2 b) j)).
Proof.
  intros E0 E1 E2. unfold broadcast3. rewrite E0, E1, E2. cbn [bind].
  eexists. split; [reflexivity|]. split; [repeat split|reflexivity].
Qed.

Lemma broadcast3_last_axis (f : Qc -> Qc -> Qc) (a b : ndarray3) :
  axis (shape2 a) (shape2 b) = Fail ValueError ->
  broadcast3 f a b = Fail ValueError.
Proof.
  intros E. destruct (broadcast3 f a b) as [c|e] eqn:H.
  - exfalso. unfold broadcast3 in H.
    destruct (axis (shape0 a) (shape0 b)); cbn [bind] in H; [|discriminate].
    destruct (axis (shape1 a) (shape1 b)); cbn [bind] in H; [|discriminate].
    rewrite E in H. discriminate.
  - now rewrite (broadcast3_fail _ _ _ H).
Qed.

Lemma existsb_entries_false (P : Qc -> bool) (a : ndarray3) :
  (forall t i j, (t < shape0 a)%nat -> (i < shape1 a)%nat -> (j < shape2 a)%nat ->
                 P (at3 a t i j) = false) ->
  existsb P (entries a) = false.
Proof.
  intros H. apply not_true_is_false. intros E.
  apply existsb_exists in E as (x & Hx & Px). unfold entries in Hx.
  apply in_flat_map in Hx as (t & Ht & Hx).
  apply in_flat_map in Hx as (i & Hi & Hx).
  apply in_map_iff in Hx as (j & <- & Hj).
  apply in_seq_lt in Ht, Hi, Hj. rewrite H in Px by assumption. discriminate.
Qed.

Lemma mapM_fdiv_fail {T : Type} (g h : T -> Qc) (l : list T) (e : failure) :
  mapM (fun x => fdiv (g x) (h x)) l = Fail e -> e = NonFinite.
Proof.
  induction l as [|x l IH]; cbn [mapM]; [discriminate|].
  unfold fdiv at 1. destruct (Qceqb (h x) 0%Qc); cbn [bind]; [congruence|].
  destruct (mapM _ l); cbn [bind]; [discriminate|].
  intros H. injection H as <-. now apply IH.
Qed.

Lemma div_scalar3_cases (a : ndarray3) (y : Qc) :
  (exists c, div_scalar3 a y = Ok c
             /\ has_shape c (shape0 a) (shape1 a) (shape2 a))
  \/ div_scalar3 a y = Fail NonFinite.
Proof.
  unfold div_scalar3.
  destruct (mapM (fun x => fdiv x y) (entries a)) as [v|e] eqn:E; cbn [bind].
  - left. eexists. split; [reflexivity|]. repeat split.
  - right. now rewrite (mapM_fdiv_fail (fun x => x) (fun _ => y) _ E).
Qed.

Lemma shrink3_cases (lam : ext) (a : ndarray3) :
  (exists c, DRos.shrink3 lam a = Ok c
             /\ has_shape c (shape0 a) (shape1 a) (shape2 a))
  \/ DRos.shrink3 lam a = Fail NonFinite.
Proof.
  destruct lam as [l|]; cbn [DRos.shrink3].
  - destruct (mapM (fun w => fdiv (l * w)%Qc (w * w + l)%Qc) (entries a))
      as [v|e] eqn:E; cbn [bind].
    + left. eexists. split; [reflexivity|]. repeat split.
    + right. now rewrite (mapM_fdiv_fail (fun w => l * w)%Qc
                            (fun w => w * w + l)%Qc _ E).
  - left. exists a. split; [reflexivity|]. repeat split.
Qed.

Lemma mean3_cases (a : ndarray3) :
  (exists m, mean3 a = Ok m) \/ mean3 a = Fail NonFinite.
Proof.
  unfold mean3, mean. destruct (entries a); [right; reflexivity|left; eauto].
Qed.

Lemma iadd3_mismatch (x y : ndarray3) (r0 r1 r2 : nat) :
  axis (shape0 x) (shape0 y) = Ok r0 ->
  axis (shape1 x) (shape1 y) = Ok r1 ->
  axis (shape2 x) (shape2 y) = Ok r2 ->
  r2 <> shape2 x ->
  iadd3 x y = Fail ValueError.
Proof.
  intros E0 E1 E2 Hne. unfold iadd3.
  destruct (broadcast3_ok Qcplus x y E0 E1 E2) as (c & -> & (H0 & H1 & H2) & _).
  cbn [bind]. unfold same_shape3. rewrite H2.
  apply Nat.eqb_neq in Hne. rewrite Hne. now rewrite !andb_false_r.
Qed.

Lemma iadd3_shape (x y c : ndarray3) :
  iadd3 x y = Ok c -> has_shape c (shape0 x) (shape1 x) (shape2 x).
Proof.
  unfold iadd3. destruct (broadcast3 Qcplus x y) as [d|]; cbn [bind]; [|discriminate].
  destruct (same_shape3 d x) eqn:E; [|discriminate].
  intros H. injection H as <-. unfold same_shape3 in E.
  apply andb_true_iff in E as [E E2]. apply andb_true_iff in E as [E0 E1].
  apply Nat.eqb_eq in E0, E1, E2. repeat split; assumption.
Qed.

Lemma average3_shape (q w e : ndarray3) :
  average3 q w = Ok e -> has_shape e (shape0 q) 1 (shape2 q).
Proof.
  unfold average3. destruct (same_shape3 q w); [|discriminate].
  destruct (existsb _ _); [discriminate|].
  intros H. injection H as <-. repeat split.
Qed.

Lemma slice3_newaxis_shape (a s : ndarray3) (rounds : list Z) :
  slice3_newaxis a rounds = Ok s ->
  has_shape s (length rounds) (shape1 a) (shape2 a).
Proof.
  unfold slice3_newaxis.
  destruct (mapM (index (shape0 a)) rounds) as [idx|] eqn:E; cbn [bind];
    [|discriminate].
  intros H. injection H as <-. repeat split. cbn [shape0].
  revert idx E. induction rounds as [|x rounds IH]; cbn [mapM]; intros idx E.
  - now injection E as <-.
  - destruct (index (shape0 a) x); cbn [bind] in E; [|discriminate].
    destruct (mapM (index (shape0 a)) rounds) as [idx'|]; cbn [bind] in E;
      [|discriminate].
    injection E as <-. simpl. f_equal. now apply IH.
Qed.

Lemma take3_newaxis_ok (a : ndarray3) (n : nat) (fa : nat -> Z) (action : list Z) :
  action = map fa (seq 0 n) ->
  (n <= shape0 a)%nat ->
  (forall t, In t (seq 0 n) -> in_range (shape1 a) (fa t) = true) ->
  exists pk : ndarray3,
    take3_newaxis a (arange (length action)) action = Ok pk
    /\ has_shape pk n 1 (shape2 a).
Proof.
  intros Ea Hn Ha. unfold take3_newaxis.
  assert (Hl : length action = n) by (rewrite Ea; now rewrite length_map, length_seq).
  rewrite Hl. unfold arange. rewrite Ea. rewrite broadcast_map_same. cbn [bind].
  rewrite (mapM_map_ok _ (fun t => (Z.of_nat t, fa t))
             (fun t => (t, Z.to_nat (fa t)))).
  - cbn [bind]. eexists. split; [reflexivity|].
    repeat split. cbn [shape0]. now rewrite length_map, length_seq.
  - intros t Ht. cbn [fst snd].
    rewrite index_of_nat by (apply in_seq_lt in Ht; lia). cbn [bind].
    rewrite index_in_range by now apply Ha. reflexivity.
Qed.

Lemma nth_seq_0 (n t : nat) : (t < n)%nat -> nth t (seq 0 n) 0%nat = t.
Proof. intros H. now rewrite seq_nth. Qed.

Lemma slice3_newaxis_ok (a : ndarray3) (n : nat) :
  (n <= shape0 a)%nat ->
  exists s : ndarray3,
    slice3_newaxis a (arange n) = Ok s
    /\ has_shape s n (shape1 a) (shape2 a)
    /\ forall t i j, (t < n)%nat -> at3 s t i j = at3 a t i j.
Proof.
  intros Hn. unfold slice3_newaxis, arange.
  rewrite (mapM_map_ok _ Z.of_nat (fun t => t)).
  - cbn [bind]. rewrite map_id. eexists. split; [reflexivity|]. split.
    + repeat split. cbn [shape0]. now rewrite length_seq.
    + intros t i j Ht. cbn [at3]. now rewrite nth_seq_0.
  - intros t Ht. apply index_of_nat. apply in_seq_lt in Ht. lia.
Qed.

Lemma average3_ok (q w : ndarray3) :
  same_shape3 q w = true ->
  (forall t j, (t < shape0 w)%nat -> (j < shape2 w)%nat ->
     sum (map (fun i => at3 w t i j) (seq 0 (shape1 w))) <> 0%Qc) ->
  exists e : ndarray3,
    average3 q w = Ok e /\ has_shape e (shape0 q) 1 (shape2 q).
Proof.
  intros Hs Hsum. unfold average3. rewrite Hs.
  assert (E : existsb
                (fun t => existsb
                   (fun j => Qceqb (sum (map (fun i => at3 w t i j)
                                           (seq 0 (shape1 w)))) 0%Qc)
                   (seq 0 (shape2 w)))
                (seq 0 (shape0 w)) = false).
  { apply not_true_is_false. intros E.
    apply existsb_exists in E as (t & Ht & E).
    apply existsb_exists in E as (j & Hj & E).
    apply Qceqb_true in E. apply in_seq_lt in Ht, Hj.
    exact (Hsum t j Ht Hj E). }
  rewrite E. eexists. split; [reflexivity|]. repeat split.
Qed.

Lemma mul3_same (a b : ndarray3) (s0 s1 s2 : nat) :
  has_shape a s0 s1 s2 -> has_shape b s0 s1 s2 ->
  exists c, mul3 a b = Ok c /\ has_shape c s0 s1 s2.
Proof.
  intros (A0 & A1 & A2) (B0 & B1 & B2). unfold mul3.
  destruct (broadcast3_ok Qcmult a b (r0 := s0) (r1 := s1) (r2 := s2))
    as (c & E & Hs & _).
  - rewrite A0, B0. apply axis_same.
  - rewrite A1, B1. apply axis_same.
  - rewrite A2, B2. apply axis_same.
  - exists c. split; assumption.
Qed.

Section NewAxis.

Variable n : nat.
Variables ad q : ndarray3.
Variables reward ps : vec.
Variable action : list Z.
Variable fa : nat -> Z.

Hypothesis Ea : action = map fa (seq 0 n).
Hypothesis Hn : n = shape0 ad.
Hypothesis Hq0 : shape0 q = shape0 ad.
Hypothesis Hq1 : shape1 q = shape1 ad.
Hypothesis Hq2 : shape2 q = shape2 ad.
Hypothesis Ha : forall t, In t (seq 0 n) -> in_range (shape1 ad) (fa t) = true.
Hypothesis Lr : length reward = n.
Hypothesis Lps : length ps = n.
Hypothesis Hps : forall j, (j < n)%nat -> nth j ps 0%Qc <> 0%Qc.
Hypothesis Hdist : is_distribution ad = true.
Hypothesis Hn2 : (2 <= n)%nat.
Hypothesis Hl : shape2 ad <> n.

(** The importance weights: a ValueError when [action_dist] has a number
    of positions other than 1, else an array of shape [(T, 1, T)]. *)
Lemma newaxis_weights (pk : ndarray3) :
  has_shape pk n 1 (shape2 ad) ->
  (shape2 ad <> 1%nat /\ div3 pk (lift ps) = Fail ValueError)
  \/ (shape2 ad = 1%nat
      /\ exists iw, div3 pk (lift ps) = Ok iw /\ has_shape iw n 1 n).
Proof using All.
  intros (P0 & P1 & P2). unfold div3.
  destruct (Nat.eq_dec (shape2 ad) 1) as [E1|E1].
  - right. split; [exact E1|].
    assert (A0 : axis (shape0 pk) (shape0 (lift ps)) = Ok n)
      by (rewrite P0; apply axis_one_r).
    assert (A1 : axis (shape1 pk) (shape1 (lift ps)) = Ok 1%nat)
      by (rewrite P1; apply axis_same).
    assert (A2 : axis (shape2 pk) (shape2 (lift ps)) = Ok n)
      by (rewrite P2, E1; cbn [lift shape2]; rewrite Lps; apply axis_one_l).
    destruct (broadcast3_ok (fun _ y => y) pk (lift ps) A0 A1 A2)
      as (d & -> & (D0 & D1 & D2) & Dv).
    cbn [bind]. rewrite existsb_entries_false.
    + destruct (broadcast3_ok Qcdiv pk (lift ps) A0 A1 A2) as (iw & -> & Hs & _).
      exists iw. split; [reflexivity|exact Hs].
    + intros t i j _ _ Hj. rewrite Dv. cbn [lift at3 shape2].
      apply Qceqb_false. apply Hps. rewrite D2 in Hj.
      unfold pick. rewrite Lps.
      destruct (Nat.eqb n 1) eqn:En; [apply Nat.eqb_eq in En; lia|exact Hj].
  - left. split; [exact E1|].
    rewrite broadcast3_last_axis; [reflexivity|].
    rewrite P2. cbn [lift shape2]. rewrite Lps.
    apply axis_mismatch; [exact Hl|exact E1|lia].
Qed.

Lemma newaxis_direct_method :
  shape2 ad = 1%nat ->
  exists sq sa est : ndarray3,
    slice3_newaxis q (arange (length action)) = Ok sq
    /\ slice3_newaxis ad (arange (length action)) = Ok sa
    /\ average3 sq sa = Ok est
    /\ has_shape est n 1 1.
Proof using All.
  intros E1.
  assert (Hla : length action = n) by (rewrite Ea; now rewrite length_map, length_seq).
  rewrite Hla.
  destruct (slice3_newaxis_ok q (n := n)) as (sq & Esq & (Q0 & Q1 & Q2) & _);
    [lia|].
  destruct (slice3_newaxis_ok ad (n := n)) as (sa & Esa & (A0 & A1 & A2) & Av);
    [lia|].
  destruct (average3_ok sq sa) as (est & Eest & (S0 & S1 & S2)).
  - unfold same_shape3. rewrite Q0, Q1, Q2, A0, A1, A2, Hq1, Hq2.
    now rewrite !Nat.eqb_refl.
  - intros t j Ht Hj. rewrite A0 in Ht. rewrite A2 in Hj. rewrite A1.
    rewrite (map_ext_in _ (fun i => at3 ad t i j))
      by (intros i _; now apply Av).
    apply one_neq_zero. apply distribution_at; [exact Hdist|lia|exact Hj].
  - exists sq, sa, est. repeat split; try assumption.
    + now rewrite S0, Q0.
    + now rewrite S2, Q2, Hq2.
Qed.

Lemma newaxis_residual (qf : ndarray3) :
  has_shape qf n 1 1 ->
  exists res, sub3 (lift reward) qf = Ok res /\ has_shape res n 1 n.
Proof using All.
  intros (F0 & F1 & F2). unfold sub3.
  destruct (broadcast3_ok Qcminus (lift reward) qf (r0 := n) (r1 := 1%nat)
              (r2 := n)) as (res & E & Hs & _).
  - cbn [lift shape0]. rewrite F0. apply axis_one_l.
  - cbn [lift shape1]. rewrite F1. apply axis_same.
  - cbn [lift shape2]. rewrite F2, Lr. apply axis_one_r.
  - exists res. split; assumption.
Qed.

Lemma newaxis_iadd (est corr : ndarray3) :
  has_shape est n 1 1 -> has_shape corr n 1 n ->
  iadd3 est corr = Fail ValueError.
Proof using All.
  intros (E0 & E1 & E2) (C0 & C1 & C2).
  apply (iadd3_mismatch est corr (r0 := n) (r1 := 1%nat) (r2 := n)).
  - rewrite E0, C0. apply axis_same.
  - rewrite E1, C1. apply axis_same.
  - rewrite E2, C2. apply axis_one_l.
  - rewrite E2. lia.
Qed.

(** Switch-DR without a position, on [T >= 2] rounds with a number of
    positions other than [T]: a ValueError, from the division by [pscore]
    or from the in-place addition. *)
Lemma switch_dr_newaxis (lam : ext) :
  SwitchDR.newaxis lam reward action ps ad q = Fail ValueError.
Proof using All.
  unfold SwitchDR.newaxis. cbv zeta.
  destruct (@take3_newaxis_ok ad n fa action Ea) as (pk & -> & Hpk); [lia|exact Ha|].
  cbn [bind].
  destruct (newaxis_weights Hpk) as [(_ & ->) | (E1 & iw & -> & Hiw)];
    [reflexivity|].
  cbn [bind].
  destruct (newaxis_direct_method E1) as (sq & sa & est & -> & Esa & Eest & Hest).
  cbn [bind].
  destruct (@take3_newaxis_ok q n fa action Ea) as (qf & -> & Hqf);
    [lia|intros t Ht; rewrite Hq1; now apply Ha|].
  cbn [bind]. rewrite Esa. cbn [bind]. rewrite Eest. cbn [bind].
  rewrite Hq2, E1 in Hqf.
  destruct (mul3_same (a := map3 (fun w => b2q (le_ext w lam)) iw) (b := iw)
              (s0 := n) (s1 := 1%nat) (s2 := n)) as (sw & -> & Hsw);
    [exact Hiw|exact Hiw|].
  cbn [bind].
  destruct (newaxis_residual Hqf) as (res & -> & Hres). cbn [bind].
  destruct (mul3_same Hsw Hres) as (corr & -> & Hcorr). cbn [bind].
  exact (newaxis_iadd Hest Hcorr).
Qed.

(** SNDR and DRos the same, unless a division by zero comes first. *)
Lemma sndr_newaxis :
  SNDR.newaxis reward action ps ad q = Fail ValueError
  \/ SNDR.newaxis reward action ps ad q = Fail NonFinite.
Proof using All.
  unfold SNDR.newaxis. cbv zeta.
  destruct (@take3_newaxis_ok ad n fa action Ea) as (pk & -> & Hpk); [lia|exact Ha|].
  cbn [bind].
  destruct (newaxis_weights Hpk) as [(_ & ->) | (E1 & iw & -> & Hiw)];
    [left; reflexivity|].
  cbn [bind].
  destruct (newaxis_direct_method E1) as (sq & sa & est & -> & -> & Eest & Hest).
  cbn [bind]. rewrite Eest. cbn [bind].
  destruct (@take3_newaxis_ok q n fa action Ea) as (qf & -> & Hqf);
    [lia|intros t Ht; rewrite Hq1; now apply Ha|].
  cbn [bind]. rewrite Hq2, E1 in Hqf.
  destruct (newaxis_residual Hqf) as (res & -> & Hres). cbn [bind].
  destruct (mul3_same Hiw Hres) as (wt & -> & Hwt). cbn [bind].
  destruct (mean3_cases iw) as [(m & ->) | ->]; [|right; reflexivity].
  cbn [bind].
  destruct (div_scalar3_cases wt m) as [(corr & -> & Hcorr) | ->];
    [|right; reflexivity].
  cbn [bind]. left. apply (newaxis_iadd Hest).
  destruct Hwt as (W0 & W1 & W2). now rewrite W0, W1, W2 in Hcorr.
Qed.

Lemma dros_newaxis (lam : ext) :
  DRos.newaxis lam reward action ps ad q = Fail ValueError
  \/ DRos.newaxis lam reward action ps ad q = Fail NonFinite.
Proof using All.
  unfold DRos.newaxis. cbv zeta.
  destruct (@take3_newaxis_ok ad n fa action Ea) as (pk & -> & Hpk); [lia|exact Ha|].
  cbn [bind].
  destruct (newaxis_weights Hpk) as [(_ & ->) | (E1 & iw & -> & Hiw)];
    [left; reflexivity|].
  cbn [bind].
  destruct (shrink3_cases lam iw) as [(iwh & -> & Hiwh) | ->];
    [|right; reflexivity].
  cbn [bind].
  destruct (newaxis_direct_method E1) as (sq & sa & est & -> & Esa & Eest & Hest).
  cbn [bind].
  destruct (@take3_newaxis_ok q n fa action Ea) as (qf & -> & Hqf);
    [lia|intros t Ht; rewrite Hq1; now apply Ha|].
  cbn [bind]. rewrite Esa. cbn [bind]. rewrite Eest. cbn [bind].
  rewrite Hq2, E1 in Hqf.
  destruct (newaxis_residual Hqf) as (res & -> & Hres). cbn [bind].
  destruct Hiw as (I0 & I1 & I2). rewrite I0, I1, I2 in Hiwh.
  destruct (mul3_same Hiwh Hres) as (corr & -> & Hcorr). cbn [bind].
  left. exact (newaxis_iadd Hest Hcorr).
Qed.

End NewAxis.

Lemma average3_same (q w e : ndarray3) :
  average3 q w = Ok e -> same_shape3 q w = true.
Proof.
  unfold average3. destruct (same_shape3 q w); [reflexivity|discriminate].
Qed.

Lemma newaxis_direct_method_shape (ad q sq sa est : ndarray3) (n : nat) :
  slice3_newaxis q (arange n) = Ok sq ->
  slice3_newaxis ad (arange n) = Ok sa ->
  average3 sq sa = Ok est ->
  has_shape est n 1 (shape2 ad).
Proof.
  intros Eq Ea Ee.
  destruct (@slice3_newaxis_shape _ _ _ Eq) as (Q0 & _ & _).
  destruct (@slice3_newaxis_shape _ _ _ Ea) as (_ & _ & A2).
  destruct (@average3_shape _ _ _ Ee) as (S0 & S1 & S2).
  pose proof (@average3_same _ _ _ Ee) as Hs. unfold same_shape3 in Hs.
  apply andb_true_iff in Hs as [_ H2]. apply Nat.eqb_eq in H2.
  unfold arange in Q0. rewrite length_map, length_seq in Q0.
  repeat split; congruence.
Qed.

Ltac binds H :=
  repeat match type of H with
         | bind ?m _ = Ok _ =>
             let E := fresh "E" in
             destruct m eqn:E; cbn [bind] in H; [|discriminate H]
         end.

(** What the three methods return without a position, when they return:
    an array of shape [(T, 1, len_list)]. *)
Lemma newaxis_rank3 (lam : ext) (reward : vec) (action : list Z) (ps : vec)
    (ad q a : ndarray3) :
  SNDR.newaxis reward action ps ad q = Ok a
  \/ SwitchDR.newaxis lam reward action ps ad q = Ok a
  \/ DRos.newaxis lam reward action ps ad q = Ok a ->
  has_shape a (length action) 1 (shape2 ad).
Proof.
  unfold SNDR.newaxis, SwitchDR.newaxis, DRos.newaxis.
  intros [H | [H | H]]; cbv zeta in H; binds H;
    match goal with
    | Hq : slice3_newaxis q _ = Ok ?sq, Ha : slice3_newaxis ad _ = Ok ?sa,
      He : average3 ?sq ?sa = Ok ?est |- _ =>
        destruct (@newaxis_direct_method_shape ad q _ _ _ _ Hq Ha He) as (S0 & S1 & S2);
        destruct (@iadd3_shape _ _ _ H) as (R0 & R1 & R2)
    end;
    repeat split; congruence.
Qed.

(** C10.  SNDR, Switch-DR and DRos index with [position] as it is given,
    and None as an index is [numpy.newaxis].  On a well-formed batch
    without position, of at least two rounds and with a number of
    positions other than the number of rounds (one position, say), the
    three raise ValueError where the rank-1 arrays are broadcast against
    the rank-3 ones, unless a division by zero comes first in SNDR or
    DRos.  Whatever the batch, they return no vector of rounds without a
    position: what they return, when they return, is an array of shape
    [(T, 1, len_list)].  The six other estimators treat None as the
    all-zeros position.  With a position vector of one in-range entry per
    round, in a well-formed batch, the three return one reward per round
    unless a division by zero makes the result non-finite. *)
Theorem position_precondition :
  (forall (e : estimator) (kw : inputs),
      defaults_position e = false -> position kw = None ->
      well_formed e kw = true ->
      (2 <= n_rounds kw)%nat -> shape2 (action_dist kw) <> n_rounds kw ->
      _estimate_round_rewards e kw = Fail ValueError
      \/ ((forall l u, e <> SwitchDoublyRobust l u)
          /\ _estimate_round_rewards e kw = Fail NonFinite))
  /\ (forall (e : estimator) (kw : inputs) (v : vec),
         defaults_position e = false -> position kw = None ->
         _estimate_round_rewards e kw <> Ok v)
  /\ (forall (lam : ext) (reward : vec) (action : list Z) (ps : vec)
             (ad q a : ndarray3),
         SNDR.newaxis reward action ps ad q = Ok a
         \/ SwitchDR.newaxis lam reward action ps ad q = Ok a
         \/ DRos.newaxis lam reward action ps ad q = Ok a ->
         shape0 a = length action /\ shape1 a = 1%nat /\ shape2 a = shape2 ad)
  /\ (forall (e : estimator) (kw : inputs),
         defaults_position e = true ->
         _estimate_round_rewards e (with_position kw None)
         = _estimate_round_rewards e (with_position kw (Some (zeros (n_rounds kw)))))
  /\ (forall (e : estimator) (kw : inputs) (p : list Z),
         defaults_position e = false -> position kw = Some p ->
         well_formed e kw = true ->
         (exists v : vec,
             length v = n_rounds kw /\ _estimate_round_rewards e kw = Ok v)
         \/ _estimate_round_rewards e kw = Fail NonFinite).
Proof.
  split; [|split; [|split; [|split]]].
  - intros e kw He Epos H Hn2 Hl.
    destruct e as [|l u|l u| |l u|l u|l u|l u|l]; try discriminate He;
      unfold well_formed in H;
      destruct (pscore kw) as [ps|] eqn:Eps; try discriminate;
      destruct (estimated_rewards_by_reg_model kw) as [q|] eqn:Eq; try discriminate;
      destruct (@conforms_split _ _ _ _ _ _ _ H) as (Hdist & _);
      destruct (conforms_action H) as (Ea & Ha);
      destruct (conforms_pscore H) as (Es & Hs);
      destruct (conforms_rewards_model H) as (Hq0 & Hq1 & Hq2);
      pose proof (conforms_reward H) as Er;
      assert (Lr : length (reward kw) = n_rounds kw)
        by (rewrite Er; now rewrite length_map, length_seq);
      assert (Lps : length ps = n_rounds kw)
        by (rewrite Es; now rewrite length_map, length_seq);
      assert (Hps : forall j, (j < n_rounds kw)%nat -> nth j ps 0%Qc <> 0%Qc)
        by (intros j Hj; apply Qclt_neq; apply Hs; apply in_seq;
            unfold n_rounds in Hj; lia);
      cbn [_estimate_round_rewards]; rewrite Eps, Eq, Epos; cbn [required bind].
    + (* SNDR *)
      destruct (@sndr_newaxis (n_rounds kw) (action_dist kw) q (reward kw) ps (action kw)
                  (fun t => nth t (action kw) 0%Z)
                  Ea eq_refl Hq0 Hq1 Hq2 Ha Lr Lps Hps Hdist Hn2 Hl) as [E | E];
        unfold SNDR._estimate_round_rewards; rewrite E; cbn [bind].
      * left. reflexivity.
      * right. split; [discriminate|reflexivity].
    + (* Switch-DR *)
      left. unfold SwitchDR._estimate_round_rewards.
      rewrite (@switch_dr_newaxis (n_rounds kw) (action_dist kw) q (reward kw) ps (action kw)
                  (fun t => nth t (action kw) 0%Z)
                  Ea eq_refl Hq0 Hq1 Hq2 Ha Lr Lps Hps Hdist Hn2 Hl l).
      reflexivity.
    + (* DRos *)
      destruct (@dros_newaxis (n_rounds kw) (action_dist kw) q (reward kw) ps (action kw)
                  (fun t => nth t (action kw) 0%Z)
                  Ea eq_refl Hq0 Hq1 Hq2 Ha Lr Lps Hps Hdist Hn2 Hl l) as [E | E];
        unfold DRos._estimate_round_rewards; rewrite E; cbn [bind].
      * left. reflexivity.
      * right. split; [discriminate|reflexivity].
  - intros e kw v He Hp.
    destruct e; try discriminate He; cbn [_estimate_round_rewards];
      rewrite Hp;
      destruct (pscore kw); cbn [required bind]; try discriminate;
      destruct (estimated_rewards_by_reg_model kw); cbn [required bind];
      try discriminate;
      unfold SNDR._estimate_round_rewards, SwitchDR._estimate_round_rewards,
        DRos._estimate_round_rewards;
      match goal with
      | |- bind ?m _ <> _ => destruct m; cbn [bind]; discriminate
      end.
  - intros lam reward action ps ad q a H.
    exact (@newaxis_rank3 lam reward action ps ad q a H).
  - intros e kw He.
    destruct e; try discriminate He; reflexivity.
  - intros e kw p He Epos H.
    destruct e as [|l u|l u| |l u|l u|l u|l u|l]; try discriminate He;
      unfold well_formed in H;
      destruct (pscore kw) as [ps|] eqn:Eps; try discriminate;
      destruct (estimated_rewards_by_reg_model kw) as [q|] eqn:Eq; try discriminate;
      rewrite Epos in H; cbn [default_position] in H;
      destruct (conforms_position H) as (Ep & Hp & Hsum & Hnn);
      destruct (conforms_action H) as (Ea & Ha);
      destruct (conforms_pscore H) as (Es & Hs);
      destruct (conforms_rewards_model H) as (Hq0 & Hq1 & Hq2);
      pose proof (conforms_reward H) as Er;
      assert (Hps : forall t, In t (seq 0 (n_rounds kw)) -> nth t ps 0%Qc <> 0%Qc)
        by (intros t Ht; apply Qclt_neq; now apply Hs);
      assert (Hw : forall t, In t (seq 0 (n_rounds kw)) ->
                sum (map (fun a => at3 (action_dist kw) t a (Z.to_nat (nth t p 0%Z)))
                       (seq 0 (shape1 (action_dist kw)))) <> 0%Qc)
        by (intros t Ht; apply one_neq_zero; now apply Hsum);
      cbn [_estimate_round_rewards]; rewrite Eps, Eq, Epos; cbn [required bind].
    + (* SNDR *)
      rewrite (sndr_rounds_upto_mean Er Ea Ep Es eq_refl Hq0 Hq1 Hq2 Ha Hp Hps Hw).
      match goal with
      | |- (exists v, _ /\ (m <- mean (map ?f ?l) ;;
                            c <- div_scalar (map ?g ?l) m ;;
                            iadd (map ?h ?l) c) = Ok v) \/ _ =>
          destruct (normalized_cases l f g h) as [(v & Hv & E) | E]
      end.
      * left. exists v. rewrite length_seq in Hv. auto.
      * right. exact E.
    + (* Switch-DR *)
      left. eexists. split;
        [|exact (switch_dr_rounds Er Ea Ep Es eq_refl Hq0 Hq1 Hq2 Ha Hp Hps Hw l)].
      now rewrite length_map, length_seq.
    + (* DRos *)
      destruct (shrink_cases (seq 0 (n_rounds kw)) l
                  (fun t => picked (action_dist kw) (fun t0 => nth t0 (action kw) 0%Z)
                              (fun t0 => nth t0 p 0%Z) t / nth t ps 0)%Qc) as [E | E].
      * left. eexists. split;
          [|exact (dros_rounds Er Ea Ep Es eq_refl Hq0 Hq1 Hq2 Ha Hp Hps Hw l _ E)].
        now rewrite length_map, length_seq.
      * right.
        exact (dros_rounds_fail (reward := reward kw) (q := q)
                 Ea Ep Es eq_refl Ha Hp Hps l NonFinite E).
Qed.

Lemma position_precondition_witness :
  (defaults_position (SwitchDoublyRobust (Fin 1%Qc) (PyBool false)) = false
   /\ position on_policy = None
   /\ well_formed (SwitchDoublyRobust (Fin 1%Qc) (PyBool false)) on_policy = true
   /\ (2 <= n_rounds on_policy)%nat
   /\ shape2 (action_dist on_policy) <> n_rounds on_policy
   /\ (_estimate_round_rewards (SwitchDoublyRobust (Fin 1%Qc) (PyBool false)) on_policy
       = Fail ValueError
       \/ ((forall l u, SwitchDoublyRobust (Fin 1%Qc) (PyBool false)
                        <> SwitchDoublyRobust l u)
           /\ _estimate_round_rewards (SwitchDoublyRobust (Fin 1%Qc) (PyBool false))
                on_policy = Fail NonFinite)))
  /\ (defaults_position (SelfNormalizedDoublyRobust PInf (PyBool false)) = false
      /\ position on_policy = None
      /\ _estimate_round_rewards (SelfNormalizedDoublyRobust PInf (PyBool false))
           on_policy <> Ok [1%Qc; 0%Qc])
  /\ (exists a : ndarray3,
         (SNDR.newaxis (reward single_round) (action single_round) [half]
            (action_dist single_round) (of_lists 1 2 1 [[[half]; [two]]]) = Ok a
          \/ SwitchDR.newaxis (Fin 1%Qc) (reward single_round) (action single_round)
               [half] (action_dist single_round) (of_lists 1 2 1 [[[half]; [two]]])
             = Ok a
          \/ DRos.newaxis (Fin 1%Qc) (reward single_round) (action single_round)
               [half] (action_dist single_round) (of_lists 1 2 1 [[[half]; [two]]])
             = Ok a)
         /\ shape0 a = length (action single_round) /\ shape1 a = 1%nat
         /\ shape2 a = shape2 (action_dist single_round))
  /\ (defaults_position (DoublyRobust PInf (PyBool false)) = true
      /\ _estimate_round_rewards (DoublyRobust PInf (PyBool false))
           (with_position zero_weight None)
         = _estimate_round_rewards (DoublyRobust PInf (PyBool false))
             (with_position zero_weight (Some (zeros (n_rounds zero_weight)))))
  /\ (defaults_position (SwitchDoublyRobust (Fin 1%Qc) (PyBool false)) = false
      /\ position zero_weight = Some [0%Z; 0%Z]
      /\ well_formed (SwitchDoublyRobust (Fin 1%Qc) (PyBool false)) zero_weight = true
      /\ ((exists v : vec,
              length v = n_rounds zero_weight
              /\ _estimate_round_rewards (SwitchDoublyRobust (Fin 1%Qc) (PyBool false))
                   zero_weight = Ok v)
          \/ _estimate_round_rewards (SwitchDoublyRobust (Fin 1%Qc) (PyBool false))
               zero_weight = Fail NonFinite)).
Proof.
  destruct position_precondition as (Ha & Hb & Hr & Hc & Hd).
  assert (Hw : well_formed (SwitchDoublyRobust (Fin 1%Qc) (PyBool false)) on_policy
               = true) by (vm_compute; reflexivity).
  assert (Hn : (2 <= n_rounds on_policy)%nat) by (vm_compute; lia).
  assert (Hl : shape2 (action_dist on_policy) <> n_rounds on_policy)
    by (vm_compute; lia).
  split; [|split; [|split; [|split]]].
  - split; [reflexivity|]. split; [reflexivity|]. split; [exact Hw|].
    split; [exact Hn|]. split; [exact Hl|].
    exact (Ha (SwitchDoublyRobust (Fin 1%Qc) (PyBool false)) on_policy
             eq_refl eq_refl Hw Hn Hl).
  - split; [reflexivity|]. split; [reflexivity|].
    exact (Hb (SelfNormalizedDoublyRobust PInf (PyBool false)) on_policy
             [1%Qc; 0%Qc] eq_refl eq_refl).
  - destruct (SwitchDR.newaxis (Fin 1%Qc) (reward single_round) (action single_round)
                [half] (action_dist single_round) (of_lists 1 2 1 [[[half]; [two]]]))
      as [a|f] eqn:E; [|vm_compute in E; discriminate E].
    exists a. split; [right; left; reflexivity|].
    exact (Hr (Fin 1%Qc) (reward single_round) (action single_round) [half]
             (action_dist single_round) (of_lists 1 2 1 [[[half]; [two]]]) a
             (or_intror (or_introl E))).
  - split; [reflexivity|].
    exact (Hc (DoublyRobust PInf (PyBool false)) zero_weight eq_refl).
  - split; [reflexivity|]. split; [reflexivity|].
    assert (Hz : well_formed (SwitchDoublyRobust (Fin 1%Qc) (PyBool false)) zero_weight
                 = true) by (vm_compute; reflexivity).
    split; [exact Hz|].
    exact (Hd (SwitchDoublyRobust (Fin 1%Qc) (PyBool false)) zero_weight [0%Z; 0%Z]
             eq_refl eq_refl Hz).
Defined.

(** ** C7: construction *)

(** Every class with a [lambda_] refuses a bad one. *)
Lemma construct_refuses_bad_lambda (c : class) (x : pyobj) (flag : option pyobj) :
  bad_lambda x = true -> is_ok (construct c (Some x) flag) = false.
Proof.
  unfold bad_lambda. intros H.
  apply orb_true_iff in H as [H | H]; [apply orb_true_iff in H as [H | H]|].
  - destruct c; destruct flag; cbn [construct];
      unfold PostInit.with_flag_check, PostInit.lambda_only, check_scalar;
      rewrite ?H; reflexivity.
  - destruct c; destruct flag; cbn [construct];
      unfold PostInit.with_flag_check, PostInit.lambda_only, check_scalar;
      rewrite ?H; destruct (negb (is_int_or_float x)); reflexivity.
  - destruct c; destruct flag; cbn [construct];
      unfold PostInit.with_flag_check, PostInit.lambda_only, check_scalar;
      rewrite ?H; destruct (negb (is_int_or_float x)); try reflexivity;
      destruct (lt_zero x); reflexivity.
Qed.

(** IPW, SNIPW, DR and SNDR refuse a flag that is not a bool. *)
Lemma construct_refuses_non_boolean_flag (c : class) (lam : option pyobj) (x : pyobj) :
  c = CInverseProbabilityWeighting \/ c = CSelfNormalizedInverseProbabilityWeighting
  \/ c = CDoublyRobust \/ c = CSelfNormalizedDoublyRobust ->
  is_bool x = false -> is_ok (construct c lam (Some x)) = false.
Proof.
  intros Hc H.
  destruct Hc as [-> | [-> | [-> | ->]]]; cbn [construct];
    unfold PostInit.with_flag_check;
    destruct (check_scalar _); cbn [bind]; try reflexivity;
    destruct (ne_self _); try reflexivity; rewrite H; reflexivity.
Qed.

(** C7, at the inputs where the code departs from it: Switch-DR and DRos
    are constructed without complaint with the string ["yes"] as
    [use_estimated_pscore], which Doubly Robust, whose fields they inherit,
    refuses with a TypeError. *)
Theorem switch_dr_accepts_non_boolean_flag :
  construct CSwitchDoublyRobust (Some (PyFloat (Finite 1%Qc))) (Some (PyStr "yes"))
  = Ok (SwitchDoublyRobust (Fin 1%Qc) (PyStr "yes"))
  /\ construct CDoublyRobustWithShrinkage (Some (PyFloat (Finite 1%Qc)))
       (Some (PyStr "yes"))
     = Ok (DoublyRobustWithShrinkage (Fin 1%Qc) (PyStr "yes"))
  /\ construct CDoublyRobust (Some (PyFloat (Finite 1%Qc))) (Some (PyStr "yes"))
     = Fail TypeError.
Proof. repeat split; vm_compute; reflexivity. Qed.

(** ** C8: the default number of bootstrap resamples *)

(** Every estimator but the Replay Method resamples 10000 times when the
    caller gives no count. *)
Lemma interval_default_resamples (e : estimator) (kw : inputs) (a : option Qc)
    (rs : option Z) (c : bootstrap_call) :
  e <> ReplayMethod ->
  estimate_interval e kw a None rs = Ok c -> n_bootstrap_samples c = 10000%Z.
Proof.
  intros He.
  destruct e as [|l u|l u| |l u|l u|l u|l u|l]; [congruence| | | | | | | |];
    cbn [estimate_interval];
    unfold IPW.estimate_interval, DM.estimate_interval, DR.estimate_interval,
      BIPW.estimate_interval;
    repeat match goal with
           | |- context [bind ?m _] =>
               destruct m; cbn [bind]; try discriminate
           end;
    intros H; injection H as <-; reflexivity.
Qed.

(** C8, at the input where the code departs from it: called without
    [n_bootstrap_samples] on the scenario of the spec, the Replay Method
    hands 100 to the bootstrap helper, where IPW hands 10000. *)
Theorem replay_interval_default_resamples :
  fmap n_bootstrap_samples (estimate_interval ReplayMethod scenario None None None)
  = Ok 100%Z
  /\ fmap n_bootstrap_samples
       (estimate_interval (InverseProbabilityWeighting PInf (PyBool false)) scenario
          None None None)
     = Ok 10000%Z.
Proof. split; vm_compute; reflexivity. Qed.

(** ** C9: validation before estimation *)

Ltac checked :=
  repeat match goal with
         | |- context [truthy ?u] => destruct (truthy u)
         | |- context [estimated_pscore ?kw] => destruct (estimated_pscore kw)
         | |- context [pscore ?kw] => destruct (pscore kw)
         | |- context [estimated_rewards_by_reg_model ?kw] =>
             destruct (estimated_rewards_by_reg_model kw)
         | |- context [importance_sampling_ratio ?kw] =>
             destruct (importance_sampling_ratio kw)
         end;
  cbn [bind]; try discriminate;
  unfold check_ope_inputs;
  match goal with
  | |- context [conforms ?ad ?p ?a ?r ?s ?q ?w] =>
      destruct (conforms ad p a r s q w); cbn [bind]; [reflexivity | discriminate]
  end.

(** Every estimator but Balanced IPW returns a policy value only for a
    batch whose arrays conform. *)
Lemma policy_value_validates (e : estimator) (kw : inputs) (v : Qc) :
  (forall l, e <> BalancedInverseProbabilityWeighting l) ->
  estimate_policy_value e kw = Ok v -> conforming_call e kw = true.
Proof.
  intros He.
  destruct e as [|l u|l u| |l u|l u|l u|l u|l];
    [| | | | | | | |now elim (He l)];
    cbn [estimate_policy_value conforming_call effective_pscore];
    unfold RM.estimate_policy_value, IPW.estimate_policy_value, IPW.select_pscore,
      DM.estimate_policy_value, DR.estimate_policy_value, DR.select_pscore,
      check_array;
    cbn [bind]; checked.
Qed.

(** Every estimator, Balanced IPW included, hands samples to the bootstrap
    only for a batch whose arrays conform. *)
Lemma interval_validates (e : estimator) (kw : inputs) (a : option Qc)
    (n rs : option Z) (c : bootstrap_call) :
  estimate_interval e kw a n rs = Ok c -> conforming_call e kw = true.
Proof.
  destruct e as [|l u|l u| |l u|l u|l u|l u|l];
    cbn [estimate_interval conforming_call effective_pscore];
    unfold RM.estimate_interval, IPW.estimate_interval, IPW.select_pscore,
      DM.estimate_interval, DR.estimate_interval, DR.select_pscore,
      BIPW.estimate_interval, check_array;
    cbn [bind]; checked.
Qed.

(** C9, at the input where the code departs from it: one round whose
    action distribution sums to 6/10.  The batch does not conform, and
    [estimate_interval] of Balanced IPW refuses it with a ValueError, but
    [estimate_policy_value] of Balanced IPW, which never calls
    [check_ope_inputs], returns the value 1. *)
Theorem bipw_policy_value_skips_validation :
  conforming_call (BalancedInverseProbabilityWeighting PInf) malformed = false
  /\ estimate_interval (BalancedInverseProbabilityWeighting PInf) malformed
       None None None = Fail ValueError
  /\ estimate_policy_value (BalancedInverseProbabilityWeighting PInf) malformed
     = Ok 1%Qc.
Proof.
  split; [vm_compute; reflexivity|]. split; [vm_compute; reflexivity|].
  apply returns_eq. vm_compute. reflexivity.
Qed.

(** * Further properties of the estimators *)

(** ** Order and sums *)

Lemma Qcmult_nonneg (x y : Qc) : (0 <= x -> 0 <= y -> 0 <= x * y)%Qc.
Proof.
  intros Hx Hy. pose proof (Qcmult_le_compat_r 0 x y Hx Hy) as H.
  now rewrite Qcmult_0_l in H.
Qed.

Lemma Qcsquare_nonneg (x : Qc) : (0 <= x * x)%Qc.
Proof.
  destruct (Qclt_le_dec x 0) as [H|H].
  - replace (x * x)%Qc with ((- x) * (- x))%Qc by ring.
    assert (X : (0 <= - x)%Qc).
    { pose proof (Qcopp_le_compat _ _ (Qclt_le_weak _ _ H)) as X.
      now replace (- 0)%Qc with 0%Qc in X by ring. }
    now apply Qcmult_nonneg.
  - now apply Qcmult_nonneg.
Qed.

Lemma Qcplus_nonneg (x y : Qc) : (0 <= x -> 0 <= y -> 0 <= x + y)%Qc.
Proof.
  intros Hx Hy. pose proof (Qcplus_le_compat 0 x 0 y Hx Hy) as H.
  now rewrite Qcplus_0_l in H.
Qed.

Lemma Qcle_sub (x y : Qc) : (x <= y <-> 0 <= y - x)%Qc.
Proof.
  split; intros H.
  - pose proof (Qcplus_le_compat x y (- x) (- x) H (Qcle_refl _)) as X.
    now rewrite Qcplus_opp_r in X.
  - pose proof (Qcplus_le_compat 0 (y - x) x x H (Qcle_refl _)) as X.
    rewrite Qcplus_0_l in X. now replace (y - x + x)%Qc with y in X by ring.
Qed.

Lemma Qcmult_le_l (x y z : Qc) : (0 <= z -> x <= y -> z * x <= z * y)%Qc.
Proof.
  intros Hz H. rewrite (Qcmult_comm z x), (Qcmult_comm z y).
  now apply Qcmult_le_compat_r.
Qed.

Lemma Qcdiv_le_r (x y z : Qc) : (0 < z -> x <= y -> x / z <= y / z)%Qc.
Proof.
  intros Hz H. apply <- Qcle_sub. replace (y / z - x / z)%Qc with ((y - x) / z)%Qc
    by (field; now apply Qclt_neq).
  apply Qcdiv_nonneg; [now apply -> Qcle_sub|exact Hz].
Qed.

Lemma Qcdiv_pos (x y : Qc) : (0 < x -> 0 < y -> 0 < x / y)%Qc.
Proof.
  intros Hx Hy. destruct (Qcle_lt_or_eq _ _ (Qcdiv_nonneg (Qclt_le_weak _ _ Hx) Hy))
    as [H|H]; [exact H|].
  exfalso. apply (Qclt_neq Hx).
  replace x with (x / y * y)%Qc by (field; now apply Qclt_neq).
  rewrite <- H. ring.
Qed.

Lemma min_ext_le (x : Qc) (lam : ext) : (min_ext x lam <= x)%Qc.
Proof.
  destruct lam as [l|]; simpl; [|apply Qcle_refl].
  destruct (Qcleb x l) eqn:E; [apply Qcle_refl|].
  destruct (Qclt_le_dec l x) as [H|H]; [now apply Qclt_le_weak|].
  apply Qcleb_true in H. congruence.
Qed.

Lemma min_ext_le_lam (x l : Qc) : (min_ext x (Fin l) <= l)%Qc.
Proof.
  simpl. destruct (Qcleb x l) eqn:E; [now apply Qcleb_true|apply Qcle_refl].
Qed.

Lemma min_ext_nonneg (x : Qc) (lam : ext) :
  (0 <= x)%Qc -> le_ext 0 lam = true -> (0 <= min_ext x lam)%Qc.
Proof.
  intros Hx Hl. destruct lam as [l|]; simpl in *; [|exact Hx].
  destruct (Qcleb x l); [exact Hx|now apply Qcleb_true].
Qed.

Lemma min_ext_mono (x : Qc) (l1 l2 : ext) :
  (forall y, le_ext y l1 = true -> le_ext y l2 = true) ->
  (min_ext x l1 <= min_ext x l2)%Qc.
Proof.
  intros H. destruct l1 as [a|], l2 as [b|]; simpl in *.
  - destruct (Qcleb x a) eqn:Ea.
    + rewrite (H x Ea). apply Qcle_refl.
    + destruct (Qcleb x b) eqn:Eb.
      * destruct (Qclt_le_dec a x) as [X|X]; [now apply Qclt_le_weak|].
        apply Qcleb_true in X. congruence.
      * apply Qcleb_true. apply H. apply Qcleb_true. apply Qcle_refl.
  - apply (min_ext_le x (Fin a)).
  - rewrite (H x eq_refl). apply Qcle_refl.
  - apply Qcle_refl.
Qed.

Lemma min_ext_above (x : Qc) (lam : ext) : le_ext x lam = true -> min_ext x lam = x.
Proof. destruct lam as [l|]; simpl; [intros ->|]; reflexivity. Qed.

Lemma sum_nonneg {T : Type} (l : list T) (f : T -> Qc) :
  (forall x, In x l -> (0 <= f x)%Qc) -> (0 <= sum (map f l))%Qc.
Proof.
  induction l as [|a l IH]; intros H; simpl.
  - apply Qcle_refl.
  - apply Qcplus_nonneg; [apply H; now left|apply IH; intros; apply H; now right].
Qed.

Lemma sum_le {T : Type} (l : list T) (f g : T -> Qc) :
  (forall x, In x l -> (f x <= g x)%Qc) -> (sum (map f l) <= sum (map g l))%Qc.
Proof.
  induction l as [|a l IH]; intros H; simpl.
  - apply Qcle_refl.
  - apply Qcplus_le_compat; [apply H; now left|apply IH; intros; apply H; now right].
Qed.

Lemma sum_zero {T : Type} (l : list T) (f : T -> Qc) :
  (forall x, In x l -> f x = 0%Qc) -> sum (map f l) = 0%Qc.
Proof.
  induction l as [|a l IH]; intros H; simpl; [reflexivity|].
  rewrite (H a (or_introl eq_refl)), IH; [ring|intros; apply H; now right].
Qed.

Lemma sum_plus {T : Type} (l : list T) (f g : T -> Qc) :
  sum (map (fun x => f x + g x)%Qc l) = (sum (map f l) + sum (map g l))%Qc.
Proof. induction l as [|a l IH]; simpl; [ring|rewrite IH; ring]. Qed.

Lemma sum_scale {T : Type} (l : list T) (f : T -> Qc) (c : Qc) :
  sum (map (fun x => c * f x)%Qc l) = (c * sum (map f l))%Qc.
Proof. induction l as [|a l IH]; simpl; [ring|rewrite IH; ring]. Qed.

Lemma nth_per_round (n t : nat) (f : nat -> Qc) :
  (t < n)%nat -> nth t (per_round n f) 0%Qc = f t.
Proof.
  intros H. unfold per_round.
  rewrite (nth_indep _ 0%Qc (f 0%nat)) by now rewrite length_map, length_seq.
  rewrite (map_nth f), seq_nth by exact H. reflexivity.
Qed.

Lemma per_round_ext (n : nat) (f g : nat -> Qc) :
  (forall t, (t < n)%nat -> f t = g t) -> per_round n f = per_round n g.
Proof.
  intros H. apply map_ext_in. intros t Ht. apply H. now apply in_seq_lt.
Qed.

Lemma mean_per_round (n : nat) (f : nat -> Qc) :
  (0 < n)%nat -> mean (per_round n f) = Ok (sum (per_round n f) / of_nat n)%Qc.
Proof.
  intros H. unfold per_round. rewrite mean_map by (destruct n; [lia|discriminate]).
  now rewrite length_seq.
Qed.

Lemma lt_in_seq (n t : nat) : (t < n)%nat -> In t (seq 0 n).
Proof. intros H. apply in_seq. lia. Qed.

(** ** Closed forms on a well-formed batch *)

Lemma dm_position_default (ad q : ndarray3) (op : option (list Z)) :
  DM._estimate_round_rewards ad q op
  = DM._estimate_round_rewards ad q (Some (default_position ad op)).
Proof. reflexivity. Qed.

Lemma dr_position_default (lam : ext) (rw : vec) (a : list Z) (ps : vec)
    (ad q : ndarray3) (op : option (list Z)) :
  DR._estimate_round_rewards lam rw a ps ad q op
  = DR._estimate_round_rewards lam rw a ps ad q (Some (default_position ad op)).
Proof. reflexivity. Qed.

Lemma bipw_position_default (lam : ext) (rw : vec) (a : list Z) (wt : vec)
    (ad : ndarray3) (op : option (list Z)) :
  BIPW._estimate_round_rewards lam rw a wt ad op
  = BIPW._estimate_round_rewards lam rw a wt ad (Some (default_position ad op)).
Proof. reflexivity. Qed.

(** What a conforming batch gives about the weights. *)
Lemma weights_nonneg (kw : inputs) (ps : vec) (oq : option ndarray3) (t : nat) :
  conforms (action_dist kw)
    (Some (default_position (action_dist kw) (position kw)))
    (Some (action kw)) (Some (reward kw)) (Some ps) oq None = true ->
  (t < n_rounds kw)%nat -> (0 <= w ps kw t)%Qc.
Proof.
  intros H Ht. assert (It : In t (seq 0 (n_rounds kw))) by now apply lt_in_seq.
  destruct (conforms_position H) as (_ & _ & _ & Hnn).
  destruct (conforms_action H) as (_ & Ha).
  destruct (conforms_pscore H) as (_ & Hs).
  apply Qcdiv_nonneg; [|now apply Hs].
  apply Hnn; [exact It|]. apply in_range_lt. now apply Ha.
Qed.

Lemma dm_term_plain (kw : inputs) (q : ndarray3) (t : nat) :
  sum (map (fun a => at3 (action_dist kw) t a (Z.to_nat (pos kw t)))
         (seq 0 (shape1 (action_dist kw)))) = 1%Qc ->
  dm_term q kw t
  = sum (map (fun a => at3 q t a (Z.to_nat (pos kw t))
                       * at3 (action_dist kw) t a (Z.to_nat (pos kw t)))%Qc
           (seq 0 (shape1 (action_dist kw)))).
Proof.
  intros H. unfold dm_term, weighted_average. rewrite H. field.
  exact (one_neq_zero eq_refl).
Qed.

Lemma dm_closed (kw : inputs) (q : ndarray3) :
  estimated_rewards_by_reg_model kw = Some q ->
  well_formed DirectMethod kw = true ->
  _estimate_round_rewards DirectMethod kw
  = Ok (per_round (n_rounds kw) (dm_term q kw)).
Proof.
  intros Eq H. unfold well_formed in H. rewrite Eq in H.
  destruct (conforms_position H) as (Ep & Hp & Hsum & _).
  destruct (conforms_rewards_model H) as (Hq0 & Hq1 & Hq2).
  cbn [_estimate_round_rewards]. rewrite Eq. cbn [required bind].
  rewrite dm_position_default.
  refine (dm_rounds (fp := pos kw) Ep eq_refl Hq0 Hq1 Hq2 Hp _).
  intros t Ht. apply one_neq_zero. now apply Hsum.
Qed.

Section ClosedForms.

Variable kw : inputs.
Variable ps : vec.
Variable q : ndarray3.

Hypothesis Eps : pscore kw = Some ps.
Hypothesis Eq : estimated_rewards_by_reg_model kw = Some q.
Hypothesis H :
  conforms (action_dist kw)
    (Some (default_position (action_dist kw) (position kw)))
    (Some (action kw)) (Some (reward kw)) (Some ps) (Some q) None = true.

Local Open Scope Qc_scope.

Lemma dr_closed (lam : ext) (u : pyobj) :
  _estimate_round_rewards (DoublyRobust lam u) kw
  = Ok (per_round (n_rounds kw)
          (fun t => dm_term q kw t
                    + min_ext (w ps kw t) lam * (r kw t - q_factual q kw t))).
Proof using Eps Eq H.
  destruct (conforms_position H) as (Ep & Hp & Hsum & Hnn).
  destruct (conforms_action H) as (Ea & Ha).
  destruct (conforms_pscore H) as (Es & Hs).
  destruct (conforms_rewards_model H) as (Hq0 & Hq1 & Hq2).
  pose proof (conforms_reward H) as Er.
  cbn [_estimate_round_rewards]. rewrite Eps, Eq. cbn [required bind].
  rewrite dr_position_default.
  refine (dr_rounds (fr := r kw) (fps := fun t => nth t ps 0) (fa := act kw)
            (fp := pos kw) Er Ea Ep Es eq_refl Hq0 Hq1 Hq2 Ha Hp _ _ lam).
  - intros t Ht. apply Qclt_neq. now apply Hs.
  - intros t Ht. apply one_neq_zero. now apply Hsum.
Qed.

Hypothesis Hpos : position kw <> None.

Lemma switch_dr_closed (lam : ext) (u : pyobj) :
  _estimate_round_rewards (SwitchDoublyRobust lam u) kw
  = Ok (per_round (n_rounds kw)
          (fun t => dm_term q kw t
                    + b2q (le_ext (w ps kw t) lam) * w ps kw t
                      * (r kw t - q_factual q kw t))).
Proof using Eps Eq H Hpos.
  destruct (conforms_position H) as (Ep & Hp & Hsum & Hnn).
  destruct (conforms_action H) as (Ea & Ha).
  destruct (conforms_pscore H) as (Es & Hs).
  destruct (conforms_rewards_model H) as (Hq0 & Hq1 & Hq2).
  pose proof (conforms_reward H) as Er.
  cbn [_estimate_round_rewards]. rewrite Eps, Eq. cbn [required bind].
  assert (Epos : position kw = Some (default_position (action_dist kw) (position kw)))
    by (destruct (position kw); [reflexivity|congruence]).
  rewrite Epos at 1.
  refine (switch_dr_rounds (fr := r kw) (fps := fun t => nth t ps 0) (fa := act kw)
            (fp := pos kw) Er Ea Ep Es eq_refl Hq0 Hq1 Hq2 Ha Hp _ _ lam).
  - intros t Ht. apply Qclt_neq. now apply Hs.
  - intros t Ht. apply one_neq_zero. now apply Hsum.
Qed.

Lemma sndr_closed (lam : ext) (u : pyobj) (m : Qc) :
  mean (per_round (n_rounds kw) (w ps kw)) = Ok m -> m <> 0 ->
  _estimate_round_rewards (SelfNormalizedDoublyRobust lam u) kw
  = Ok (per_round (n_rounds kw)
          (fun t => dm_term q kw t
                    + w ps kw t * (r kw t - q_factual q kw t) / m)).
Proof using Eps Eq H Hpos.
  intros Hmean Hm.
  destruct (conforms_position H) as (Ep & Hp & Hsum & Hnn).
  destruct (conforms_action H) as (Ea & Ha).
  destruct (conforms_pscore H) as (Es & Hs).
  destruct (conforms_rewards_model H) as (Hq0 & Hq1 & Hq2).
  pose proof (conforms_reward H) as Er.
  destruct (mean_tabulated _ _ Hmean) as (Hn0 & Em).
  cbn [_estimate_round_rewards]. rewrite Eps, Eq. cbn [required bind].
  assert (Epos : position kw = Some (default_position (action_dist kw) (position kw)))
    by (destruct (position kw); [reflexivity|congruence]).
  rewrite Epos at 1. rewrite Em. rewrite Em in Hm.
  refine (sndr_rounds (fr := r kw) (fps := fun t => nth t ps 0) (fa := act kw)
            (fp := pos kw) Er Ea Ep Es eq_refl Hq0 Hq1 Hq2 Ha Hp _ _ Hn0 Hm).
  - intros t Ht. apply Qclt_neq. now apply Hs.
  - intros t Ht. apply one_neq_zero. now apply Hsum.
Qed.

Lemma dros_closed (l : Qc) (u : pyobj) :
  (forall t, (t < n_rounds kw)%nat -> w ps kw t * w ps kw t + l <> 0) ->
  _estimate_round_rewards (DoublyRobustWithShrinkage (Fin l) u) kw
  = Ok (per_round (n_rounds kw)
          (fun t => dm_term q kw t
                    + shrunk (Fin l) (w ps kw t) * (r kw t - q_factual q kw t))).
Proof using Eps Eq H Hpos.
  intros Hd.
  destruct (conforms_position H) as (Ep & Hp & Hsum & Hnn).
  destruct (conforms_action H) as (Ea & Ha).
  destruct (conforms_pscore H) as (Es & Hs).
  destruct (conforms_rewards_model H) as (Hq0 & Hq1 & Hq2).
  pose proof (conforms_reward H) as Er.
  cbn [_estimate_round_rewards]. rewrite Eps, Eq. cbn [required bind].
  assert (Epos : position kw = Some (default_position (action_dist kw) (position kw)))
    by (destruct (position kw); [reflexivity|congruence]).
  rewrite Epos at 1.
  refine (dros_rounds (fr := r kw) (fps := fun t => nth t ps 0) (fa := act kw)
            (fp := pos kw) Er Ea Ep Es eq_refl Hq0 Hq1 Hq2 Ha Hp _ _ (Fin l)
            (fun t => shrunk (Fin l) (w ps kw t)) _).
  - intros t Ht. apply Qclt_neq. now apply Hs.
  - intros t Ht. apply one_neq_zero. now apply Hsum.
  - apply (@shrink_finite nat (seq 0 (n_rounds kw)) l (w ps kw)).
    intros t Ht. apply Hd. now apply in_seq_lt.
Qed.

End ClosedForms.

Arguments dr_closed {kw ps q}.
Arguments switch_dr_closed {kw ps q}.
Arguments sndr_closed {kw ps q}.
Arguments dros_closed {kw ps q}.

Section ClosedFormsIPW.

Variable kw : inputs.
Variable ps : vec.

Hypothesis Eps : pscore kw = Some ps.
Hypothesis H :
  conforms (action_dist kw)
    (Some (default_position (action_dist kw) (position kw)))
    (Some (action kw)) (Some (reward kw)) (Some ps) None None = true.

Local Open Scope Qc_scope.

Lemma ipw_closed (lam : ext) (u : pyobj) :
  _estimate_round_rewards (InverseProbabilityWeighting lam u) kw
  = Ok (per_round (n_rounds kw) (fun t => r kw t * min_ext (w ps kw t) lam)).
Proof using Eps H.
  destruct (conforms_position H) as (Ep & Hp & _).
  destruct (conforms_action H) as (Ea & Ha).
  destruct (conforms_pscore H) as (Es & Hs).
  pose proof (conforms_reward H) as Er.
  cbn [_estimate_round_rewards]. rewrite Eps. cbn [required bind].
  rewrite ipw_position_default.
  refine (ipw_rounds (fr := r kw) (fps := fun t => nth t ps 0) (fa := act kw)
            (fp := pos kw) Er Ea Ep Es eq_refl Ha Hp _ lam).
  intros t Ht. apply Qclt_neq. now apply Hs.
Qed.

Lemma snipw_closed (lam : ext) (u : pyobj) (m : Qc) :
  mean (per_round (n_rounds kw) (w ps kw)) = Ok m -> m <> 0 ->
  _estimate_round_rewards (SelfNormalizedInverseProbabilityWeighting lam u) kw
  = Ok (per_round (n_rounds kw) (fun t => r kw t * w ps kw t / m)).
Proof using Eps H.
  intros Hmean Hm.
  destruct (conforms_position H) as (Ep & Hp & _).
  destruct (conforms_action H) as (Ea & Ha).
  destruct (conforms_pscore H) as (Es & Hs).
  pose proof (conforms_reward H) as Er.
  destruct (mean_tabulated _ _ Hmean) as (Hn0 & Em).
  cbn [_estimate_round_rewards]. rewrite Eps. cbn [required bind].
  rewrite snipw_position_default. rewrite Em. rewrite Em in Hm.
  refine (snipw_rounds (fr := r kw) (fps := fun t => nth t ps 0) (fa := act kw)
            (fp := pos kw) Er Ea Ep Es eq_refl Ha Hp _ Hn0 Hm).
  intros t Ht. apply Qclt_neq. now apply Hs.
Qed.

End ClosedFormsIPW.

Arguments ipw_closed {kw ps}.
Arguments snipw_closed {kw ps}.

Lemma conforms_without_model (ad : ndarray3) (op oa : option (list Z))
    (orw ops : option vec) (q : ndarray3) (ow : option vec) :
  conforms ad op oa orw ops (Some q) ow = true ->
  conforms ad op oa orw ops None ow = true.
Proof.
  unfold conforms. rewrite !andb_true_iff. simpl (opt_forall _ None). tauto.
Qed.

Lemma conforms_model_only (ad : ndarray3) (op oa : option (list Z))
    (orw ops : option vec) (oq : option ndarray3) (ow : option vec) :
  conforms ad op oa orw ops oq ow = true ->
  conforms ad op None None None oq None = true.
Proof.
  unfold conforms. rewrite !andb_true_iff. simpl (opt_forall _ None). tauto.
Qed.

(** ** The Direct Method and Doubly Robust *)

(** The Direct Method on a well-formed batch: the round reward is the
    model's estimate averaged under the evaluation policy,
    [sum_a q_hat[t, a, p_t] * pi_e[t, a, p_t]]; the normalisation by the
    weights of [np.average] disappears because every slice of
    [action_dist] sums to 1.  The position is the given one or zeros. *)
Theorem direct_method_expected_reward (kw : inputs) (q : ndarray3) :
  estimated_rewards_by_reg_model kw = Some q ->
  well_formed DirectMethod kw = true ->
  _estimate_round_rewards DirectMethod kw
  = Ok (per_round (n_rounds kw)
          (fun t =>
             sum (map (fun a => at3 q t a (Z.to_nat (pos kw t))
                                * at3 (action_dist kw) t a (Z.to_nat (pos kw t)))%Qc
                    (seq 0 (shape1 (action_dist kw)))))).
Proof.
  intros Eq H. rewrite (dm_closed kw Eq H). apply f_equal.
  apply per_round_ext. intros t Ht. apply dm_term_plain.
  unfold well_formed in H. rewrite Eq in H.
  destruct (conforms_position H) as (_ & _ & Hsum & _).
  apply Hsum. now apply lt_in_seq.
Qed.

Lemma direct_method_expected_reward_witness :
  estimated_rewards_by_reg_model on_policy
  = Some (of_lists 2 2 1 [[[tenth 3]; [tenth 6]]; [[tenth 3]; [tenth 6]]])
  /\ well_formed DirectMethod on_policy = true
  /\ _estimate_round_rewards DirectMethod on_policy
     = Ok (per_round (n_rounds on_policy)
             (fun t =>
                sum (map (fun a =>
                       at3 (of_lists 2 2 1
                              [[[tenth 3]; [tenth 6]]; [[tenth 3]; [tenth 6]]])
                         t a (Z.to_nat (pos on_policy t))
                       * at3 (action_dist on_policy) t a
                           (Z.to_nat (pos on_policy t)))%Qc
                       (seq 0 (shape1 (action_dist on_policy)))))).
Proof.
  assert (H : well_formed DirectMethod on_policy = true)
    by (vm_compute; reflexivity).
  split; [reflexivity|]. split; [exact H|].
  exact (direct_method_expected_reward on_policy eq_refl H).
Defined.

(** Doubly Robust on a well-formed batch, the position given or not: the
    round reward is the Direct Method term plus the clipped importance
    weight times the residual,
    [dm[t] + min(w[t], lambda_) * (reward[t] - q_hat[t, a_t, p_t])]. *)
Theorem doubly_robust_formula (lam : ext) (u : pyobj) (kw : inputs) (ps : vec)
    (q : ndarray3) :
  pscore kw = Some ps ->
  estimated_rewards_by_reg_model kw = Some q ->
  well_formed (DoublyRobust lam u) kw = true ->
  _estimate_round_rewards (DoublyRobust lam u) kw
  = Ok (per_round (n_rounds kw)
          (fun t => dm_term q kw t
                    + min_ext (w ps kw t) lam * (r kw t - q_factual q kw t))%Qc).
Proof.
  intros Eps Eq H. unfold well_formed in H. rewrite Eps, Eq in H.
  exact (dr_closed Eps Eq H lam u).
Qed.

Lemma doubly_robust_formula_witness :
  pscore on_policy = Some [half; half]
  /\ estimated_rewards_by_reg_model on_policy
     = Some (of_lists 2 2 1 [[[tenth 3]; [tenth 6]]; [[tenth 3]; [tenth 6]]])
  /\ well_formed (DoublyRobust (Fin half) (PyBool false)) on_policy = true
  /\ _estimate_round_rewards (DoublyRobust (Fin half) (PyBool false)) on_policy
     = Ok (per_round (n_rounds on_policy)
             (fun t =>
                dm_term (of_lists 2 2 1
                           [[[tenth 3]; [tenth 6]]; [[tenth 3]; [tenth 6]]])
                  on_policy t
                + min_ext (w [half; half] on_policy t) (Fin half)
                  * (r on_policy t
                     - q_factual
                         (of_lists 2 2 1
                            [[[tenth 3]; [tenth 6]]; [[tenth 3]; [tenth 6]]])
                         on_policy t))%Qc).
Proof.
  assert (H : well_formed (DoublyRobust (Fin half) (PyBool false)) on_policy = true)
    by (vm_compute; reflexivity).
  split; [reflexivity|]. split; [reflexivity|]. split; [exact H|].
  exact (doubly_robust_formula (Fin half) (PyBool false) on_policy eq_refl eq_refl H).
Defined.

(** With [lambda_ = 0] every importance weight of a well-formed batch is
    clipped to zero, and Doubly Robust returns the round rewards of the
    Direct Method. *)
Theorem doubly_robust_lambda_zero_is_direct_method (u : pyobj) (kw : inputs) :
  well_formed (DoublyRobust (Fin 0%Qc) u) kw = true ->
  exists dm : vec,
    _estimate_round_rewards DirectMethod kw = Ok dm
    /\ _estimate_round_rewards (DoublyRobust (Fin 0%Qc) u) kw = Ok dm.
Proof.
  intros H. unfold well_formed in H.
  destruct (pscore kw) as [ps|] eqn:Eps; [|discriminate].
  destruct (estimated_rewards_by_reg_model kw) as [q|] eqn:Eq; [|discriminate].
  exists (per_round (n_rounds kw) (dm_term q kw)). split.
  - apply (dm_closed kw Eq). unfold well_formed. rewrite Eq.
    exact (conforms_model_only _ _ _ _ _ _ _ H).
  - rewrite (dr_closed Eps Eq H (Fin 0%Qc) u). apply f_equal.
    apply per_round_ext. intros t Ht.
    pose proof (@weights_nonneg kw ps (Some q) t H Ht) as Hw.
    assert (E : min_ext (w ps kw t) (Fin 0%Qc) = 0%Qc).
    { simpl. destruct (Qcleb (w ps kw t) 0%Qc) eqn:E; [|reflexivity].
      apply Qcleb_true in E. now apply Qcle_antisym. }
    rewrite E. ring.
Qed.

Lemma doubly_robust_lambda_zero_is_direct_method_witness :
  well_formed (DoublyRobust (Fin 0%Qc) (PyBool false)) on_policy = true
  /\ exists dm : vec,
       _estimate_round_rewards DirectMethod on_policy = Ok dm
       /\ _estimate_round_rewards (DoublyRobust (Fin 0%Qc) (PyBool false)) on_policy
          = Ok dm.
Proof.
  assert (H : well_formed (DoublyRobust (Fin 0%Qc) (PyBool false)) on_policy = true)
    by (vm_compute; reflexivity).
  split; [exact H|].
  exact (doubly_robust_lambda_zero_is_direct_method (PyBool false) on_policy H).
Defined.

(** When the regression model is zero on every round, action and
    position, Doubly Robust returns the round rewards of Inverse
    Probability Weighting with the same [lambda_]. *)
Theorem doubly_robust_zero_model_is_ipw (lam : ext) (u u' : pyobj) (kw : inputs)
    (q : ndarray3) :
  estimated_rewards_by_reg_model kw = Some q ->
  well_formed (DoublyRobust lam u) kw = true ->
  (forall t a p, (t < shape0 q)%nat -> (a < shape1 q)%nat -> (p < shape2 q)%nat ->
                 at3 q t a p = 0%Qc) ->
  exists v : vec,
    _estimate_round_rewards (InverseProbabilityWeighting lam u') kw = Ok v
    /\ _estimate_round_rewards (DoublyRobust lam u) kw = Ok v.
Proof.
  intros Eq H Hz. unfold well_formed in H. rewrite Eq in H.
  destruct (pscore kw) as [ps|] eqn:Eps; [|discriminate].
  pose proof (conforms_without_model _ _ _ _ _ _ _ H) as H'.
  destruct (conforms_position H) as (_ & Hp & Hsum & _).
  destruct (conforms_action H) as (_ & Ha).
  destruct (conforms_rewards_model H) as (Hq0 & Hq1 & Hq2).
  eexists. split; [exact (ipw_closed Eps H' lam u')|].
  rewrite (dr_closed Eps Eq H lam u). apply f_equal.
  apply per_round_ext. intros t Ht.
  assert (It : In t (seq 0 (n_rounds kw))) by now apply lt_in_seq.
  assert (Pt : (Z.to_nat (pos kw t) < shape2 q)%nat)
    by (rewrite Hq2; apply in_range_lt; now apply Hp).
  assert (E1 : dm_term q kw t = 0%Qc).
  { rewrite dm_term_plain by now apply Hsum. apply sum_zero. intros a Ia.
    rewrite Hz; [ring| | |exact Pt].
    - rewrite Hq0. exact Ht.
    - rewrite Hq1. now apply in_seq_lt. }
  assert (E2 : q_factual q kw t = 0%Qc).
  { unfold q_factual, picked. apply Hz; [| |exact Pt].
    - rewrite Hq0. exact Ht.
    - rewrite Hq1. apply in_range_lt. now apply Ha. }
  rewrite E1, E2. ring.
Qed.

Lemma doubly_robust_zero_model_is_ipw_witness :
  estimated_rewards_by_reg_model zero_model
  = Some (of_lists 2 2 1 [[[0%Qc]; [0%Qc]]; [[0%Qc]; [0%Qc]]])
  /\ well_formed (DoublyRobust (Fin half) (PyBool false)) zero_model = true
  /\ (forall t a p, (t < 2)%nat -> (a < 2)%nat -> (p < 1)%nat ->
        at3 (of_lists 2 2 1 [[[0%Qc]; [0%Qc]]; [[0%Qc]; [0%Qc]]]) t a p = 0%Qc)
  /\ exists v : vec,
       _estimate_round_rewards
         (InverseProbabilityWeighting (Fin half) (PyBool false)) zero_model = Ok v
       /\ _estimate_round_rewards (DoublyRobust (Fin half) (PyBool false)) zero_model
          = Ok v.
Proof.
  assert (H : well_formed (DoublyRobust (Fin half) (PyBool false)) zero_model = true)
    by (vm_compute; reflexivity).
  assert (Hz : forall t a p, (t < 2)%nat -> (a < 2)%nat -> (p < 1)%nat ->
             at3 (of_lists 2 2 1 [[[0%Qc]; [0%Qc]]; [[0%Qc]; [0%Qc]]]) t a p = 0%Qc).
  { intros [|[|t]] [|[|a]] [|p] Ht Ha Hp; try reflexivity; exfalso; lia. }
  split; [reflexivity|]. split; [exact H|]. split; [exact Hz|].
  exact (doubly_robust_zero_model_is_ipw (Fin half) (PyBool false) (PyBool false)
           zero_model eq_refl H Hz).
Defined.

(** When every reward equals the model's estimate for the logged action,
    the correction of Doubly Robust vanishes whatever the weights are, and
    it returns the round rewards of the Direct Method. *)
Theorem doubly_robust_exact_model_is_direct_method (lam : ext) (u : pyobj)
    (kw : inputs) (q : ndarray3) :
  estimated_rewards_by_reg_model kw = Some q ->
  well_formed (DoublyRobust lam u) kw = true ->
  (forall t, (t < n_rounds kw)%nat -> r kw t = q_factual q kw t) ->
  exists dm : vec,
    _estimate_round_rewards DirectMethod kw = Ok dm
    /\ _estimate_round_rewards (DoublyRobust lam u) kw = Ok dm.
Proof.
  intros Eq H Hr. unfold well_formed in H. rewrite Eq in H.
  destruct (pscore kw) as [ps|] eqn:Eps; [|discriminate].
  exists (per_round (n_rounds kw) (dm_term q kw)). split.
  - apply (dm_closed kw Eq). unfold well_formed. rewrite Eq.
    exact (conforms_model_only _ _ _ _ _ _ _ H).
  - rewrite (dr_closed Eps Eq H lam u). apply f_equal.
    apply per_round_ext. intros t Ht. rewrite (Hr t Ht). ring.
Qed.

Lemma doubly_robust_exact_model_is_direct_method_witness :
  estimated_rewards_by_reg_model exact_model
  = Some (of_lists 2 2 1 [[[tenth 3]; [tenth 6]]; [[tenth 3]; [tenth 6]]])
  /\ well_formed (DoublyRobust PInf (PyBool false)) exact_model = true
  /\ (forall t, (t < n_rounds exact_model)%nat ->
        r exact_model t
        = q_factual (of_lists 2 2 1 [[[tenth 3]; [tenth 6]]; [[tenth 3]; [tenth 6]]])
            exact_model t)
  /\ exists dm : vec,
       _estimate_round_rewards DirectMethod exact_model = Ok dm
       /\ _estimate_round_rewards (DoublyRobust PInf (PyBool false)) exact_model
          = Ok dm.
Proof.
  assert (H : well_formed (DoublyRobust PInf (PyBool false)) exact_model = true)
    by (vm_compute; reflexivity).
  assert (Hr : forall t, (t < n_rounds exact_model)%nat ->
             r exact_model t
             = q_factual
                 (of_lists 2 2 1 [[[tenth 3]; [tenth 6]]; [[tenth 3]; [tenth 6]]])
                 exact_model t).
  { intros [|[|t]] Ht; [vm_compute; reflexivity|vm_compute; reflexivity|].
    exfalso. cbv in Ht. lia. }
  split; [reflexivity|]. split; [exact H|]. split; [exact Hr|].
  exact (doubly_robust_exact_model_is_direct_method PInf (PyBool false) exact_model
           eq_refl H Hr).
Defined.

(** ** Switch-DR and self-normalized Doubly Robust *)

(** Switch-DR switches round by round: on a well-formed batch with the
    positions given, a round whose importance weight is at most [lambda_]
    gets the round reward of Doubly Robust without clipping, and every
    other round gets the round reward of the Direct Method. *)
Theorem switch_dr_switches_per_round (lam : ext) (u u' : pyobj) (kw : inputs)
    (ps : vec) :
  pscore kw = Some ps ->
  well_formed (SwitchDoublyRobust lam u) kw = true ->
  position kw <> None ->
  exists sw dm dr : vec,
    _estimate_round_rewards (SwitchDoublyRobust lam u) kw = Ok sw
    /\ _estimate_round_rewards DirectMethod kw = Ok dm
    /\ _estimate_round_rewards (DoublyRobust PInf u') kw = Ok dr
    /\ forall t, (t < n_rounds kw)%nat ->
         nth t sw 0%Qc
         = if le_ext (w ps kw t) lam then nth t dr 0%Qc else nth t dm 0%Qc.
Proof.
  intros Eps H Hpos. unfold well_formed in H. rewrite Eps in H.
  destruct (estimated_rewards_by_reg_model kw) as [q|] eqn:Eq; [|discriminate].
  do 3 eexists. split; [exact (switch_dr_closed Eps Eq H Hpos lam u)|].
  split.
  { apply (dm_closed kw Eq). unfold well_formed. rewrite Eq.
    exact (conforms_model_only _ _ _ _ _ _ _ H). }
  split; [exact (dr_closed Eps Eq H PInf u')|].
  intros t Ht. rewrite !nth_per_round by exact Ht.
  destruct (le_ext (w ps kw t) lam); simpl; ring.
Qed.

Lemma switch_dr_switches_per_round_witness :
  pscore positive_weight = Some [half; half]
  /\ well_formed (SwitchDoublyRobust (Fin 1%Qc) (PyBool false)) positive_weight = true
  /\ position positive_weight <> None
  /\ exists sw dm dr : vec,
       _estimate_round_rewards (SwitchDoublyRobust (Fin 1%Qc) (PyBool false))
         positive_weight = Ok sw
       /\ _estimate_round_rewards DirectMethod positive_weight = Ok dm
       /\ _estimate_round_rewards (DoublyRobust PInf (PyBool false)) positive_weight
          = Ok dr
       /\ forall t, (t < n_rounds positive_weight)%nat ->
            nth t sw 0%Qc
            = if le_ext (w [half; half] positive_weight t) (Fin 1%Qc)
              then nth t dr 0%Qc else nth t dm 0%Qc.
Proof.
  assert (H : well_formed (SwitchDoublyRobust (Fin 1%Qc) (PyBool false))
                positive_weight = true) by (vm_compute; reflexivity).
  assert (Hp : position positive_weight <> None) by discriminate.
  split; [reflexivity|]. split; [exact H|]. split; [exact Hp|].
  exact (switch_dr_switches_per_round (Fin 1%Qc) (PyBool false) (PyBool false)
           positive_weight eq_refl H Hp).
Defined.

(** Self-normalized Doubly Robust on a well-formed batch with the
    positions given, when the mean [m] of the importance weights is not
    zero: the round reward is
    [dm[t] + w[t] * (reward[t] - q_hat[t, a_t, p_t]) / m], whatever
    [lambda_] is, and the mean of the round rewards is the mean of the
    Direct Method terms plus the ratio of sums
    [(sum_t w[t] * residual[t]) / (sum_t w[t])]. *)
Theorem sndr_ratio_of_sums (lam : ext) (u : pyobj) (kw : inputs) (ps : vec)
    (q : ndarray3) (m : Qc) :
  pscore kw = Some ps ->
  estimated_rewards_by_reg_model kw = Some q ->
  well_formed (SelfNormalizedDoublyRobust lam u) kw = true ->
  position kw <> None ->
  mean (per_round (n_rounds kw) (w ps kw)) = Ok m ->
  m <> 0%Qc ->
  exists v : vec,
    _estimate_round_rewards (SelfNormalizedDoublyRobust lam u) kw = Ok v
    /\ v = per_round (n_rounds kw)
             (fun t => dm_term q kw t
                       + w ps kw t * (r kw t - q_factual q kw t) / m)%Qc
    /\ mean v
       = Ok (sum (per_round (n_rounds kw) (dm_term q kw)) / of_nat (n_rounds kw)
             + sum (per_round (n_rounds kw)
                      (fun t => w ps kw t * (r kw t - q_factual q kw t))%Qc)
               / sum (per_round (n_rounds kw) (w ps kw)))%Qc.
Proof.
  intros Eps Eq H Hpos Hmean Hm. unfold well_formed in H. rewrite Eps, Eq in H.
  eexists. split; [exact (sndr_closed Eps Eq H Hpos lam u m Hmean Hm)|].
  split; [reflexivity|].
  destruct (mean_tabulated _ _ Hmean) as (Hn0 & Em).
  unfold per_round at 1. rewrite (mean_map _ Hn0), length_seq. f_equal.
  rewrite sum_plus, (sum_map_div _ _ Hm).
  fold (per_round (n_rounds kw) (dm_term q kw)).
  fold (per_round (n_rounds kw)
          (fun t => w ps kw t * (r kw t - q_factual q kw t))%Qc).
  rewrite Em. rewrite Em in Hm.
  assert (Hs0 : sum (per_round (n_rounds kw) (w ps kw)) <> 0%Qc)
    by (exact (div_nonzero_num Hm)).
  assert (Hn1 : of_nat (n_rounds kw) <> 0%Qc).
  { apply of_nat_pos. destruct (n_rounds kw); [now elim Hn0|lia]. }
  field. auto.
Qed.

Lemma sndr_ratio_of_sums_witness :
  pscore positive_weight = Some [half; half]
  /\ estimated_rewards_by_reg_model positive_weight
     = Some (of_lists 2 2 1 [[[Q2Qc (3 # 10)]; [Q2Qc (6 # 10)]];
                             [[Q2Qc (3 # 10)]; [Q2Qc (6 # 10)]]])
  /\ well_formed (SelfNormalizedDoublyRobust PInf (PyBool false)) positive_weight
     = true
  /\ position positive_weight <> None
  /\ mean (per_round (n_rounds positive_weight) (w [half; half] positive_weight))
     = Ok (Q2Qc (3 # 2))
  /\ Q2Qc (3 # 2) <> 0%Qc
  /\ exists v : vec,
       _estimate_round_rewards (SelfNormalizedDoublyRobust PInf (PyBool false))
         positive_weight = Ok v
       /\ v = per_round (n_rounds positive_weight)
                (fun t =>
                   dm_term (of_lists 2 2 1 [[[Q2Qc (3 # 10)]; [Q2Qc (6 # 10)]];
                                            [[Q2Qc (3 # 10)]; [Q2Qc (6 # 10)]]])
                     positive_weight t
                   + w [half; half] positive_weight t
                     * (r positive_weight t
                        - q_factual
                            (of_lists 2 2 1 [[[Q2Qc (3 # 10)]; [Q2Qc (6 # 10)]];
                                             [[Q2Qc (3 # 10)]; [Q2Qc (6 # 10)]]])
                            positive_weight t)
                     / Q2Qc (3 # 2))%Qc
       /\ mean v
          = Ok (sum (per_round (n_rounds positive_weight)
                       (dm_term
                          (of_lists 2 2 1 [[[Q2Qc (3 # 10)]; [Q2Qc (6 # 10)]];
                                           [[Q2Qc (3 # 10)]; [Q2Qc (6 # 10)]]])
                          positive_weight))
                / of_nat (n_rounds positive_weight)
                + sum (per_round (n_rounds positive_weight)
                         (fun t =>
                            w [half; half] positive_weight t
                            * (r positive_weight t
                               - q_factual
                                   (of_lists 2 2 1
                                      [[[Q2Qc (3 # 10)]; [Q2Qc (6 # 10)]];
                                       [[Q2Qc (3 # 10)]; [Q2Qc (6 # 10)]]])
                                   positive_weight t))%Qc)
                  / sum (per_round (n_rounds positive_weight)
                           (w [half; half] positive_weight)))%Qc.
Proof.
  assert (H : well_formed (SelfNormalizedDoublyRobust PInf (PyBool false))
                positive_weight = true) by (vm_compute; reflexivity).
  assert (Hp : position positive_weight <> None) by discriminate.
  assert (Hm : mean (per_round (n_rounds positive_weight)
                       (w [half; half] positive_weight)) = Ok (Q2Qc (3 # 2)))
    by (apply returns_eq; vm_compute; reflexivity).
  assert (H0 : Q2Qc (3 # 2) <> 0%Qc) by (apply Qceqb_false; vm_compute; reflexivity).
  split; [reflexivity|]. split; [reflexivity|]. split; [exact H|].
  split; [exact Hp|]. split; [exact Hm|]. split; [exact H0|].
  exact (sndr_ratio_of_sums PInf (PyBool false) positive_weight eq_refl eq_refl
           H Hp Hm H0).
Defined.

(** ** Inverse Probability Weighting *)

Lemma min_ext_mono_fin (x a : Qc) (l2 : ext) :
  le_ext a l2 = true -> (min_ext x (Fin a) <= min_ext x l2)%Qc.
Proof.
  intros H. apply min_ext_mono. intros y Hy. destruct l2 as [b|]; [|reflexivity].
  simpl in *. apply Qcleb_true. apply Qcleb_true in H, Hy.
  now apply Qcle_trans with a.
Qed.

Lemma Qcplus_pos_r (x l : Qc) : (0 <= x -> 0 < l -> 0 < x + l)%Qc.
Proof.
  intros Hx Hl. apply Qclt_le_trans with l; [exact Hl|].
  pose proof (Qcplus_le_compat 0 x l l Hx (Qcle_refl l)) as X.
  now rewrite Qcplus_0_l in X.
Qed.

Lemma of_nat_nonneg (n : nat) : (0 <= of_nat n)%Qc.
Proof.
  induction n as [|n IH]; [apply Qcle_refl|].
  rewrite of_nat_S. apply Qcplus_nonneg; [exact IH|].
  apply Qcleb_true. reflexivity.
Qed.

Lemma of_nat_gt0 (n : nat) : (0 < n)%nat -> (0 < of_nat n)%Qc.
Proof.
  destruct n as [|n]; [lia|]. intros _. rewrite of_nat_S.
  apply Qcplus_pos_r; [apply of_nat_nonneg|].
  apply Qcltb_true. reflexivity.
Qed.

(** Clipping in Inverse Probability Weighting: on a well-formed batch and
    for a finite [lambda_ >= 0], each round reward is the reward times a
    weight that lies between 0 and [lambda_] and never exceeds the
    importance weight of the round. *)
Theorem ipw_weight_is_clipped (l : Qc) (u : pyobj) (kw : inputs) (ps : vec) :
  pscore kw = Some ps ->
  well_formed (InverseProbabilityWeighting (Fin l) u) kw = true ->
  (0 <= l)%Qc ->
  exists v : vec,
    _estimate_round_rewards (InverseProbabilityWeighting (Fin l) u) kw = Ok v
    /\ length v = n_rounds kw
    /\ forall t, (t < n_rounds kw)%nat ->
         exists c : Qc,
           nth t v 0%Qc = (r kw t * c)%Qc
           /\ (0 <= c)%Qc /\ (c <= l)%Qc /\ (c <= w ps kw t)%Qc.
Proof.
  intros Eps H Hl. unfold well_formed in H. rewrite Eps in H.
  eexists. split; [exact (ipw_closed Eps H (Fin l) u)|].
  split; [unfold per_round; now rewrite length_map, length_seq|].
  intros t Ht. exists (min_ext (w ps kw t) (Fin l)).
  rewrite nth_per_round by exact Ht. split; [reflexivity|].
  split; [|split].
  - apply min_ext_nonneg.
    + exact (@weights_nonneg kw ps None t H Ht).
    + simpl. now apply Qcleb_true.
  - apply min_ext_le_lam.
  - apply min_ext_le.
Qed.

Lemma ipw_weight_is_clipped_witness :
  pscore scenario = Some [half; half; half]
  /\ well_formed (InverseProbabilityWeighting (Fin 1%Qc) (PyBool false)) scenario = true
  /\ (0 <= 1)%Qc
  /\ exists v : vec,
       _estimate_round_rewards (InverseProbabilityWeighting (Fin 1%Qc) (PyBool false))
         scenario = Ok v
       /\ length v = n_rounds scenario
       /\ forall t, (t < n_rounds scenario)%nat ->
            exists c : Qc,
              nth t v 0%Qc = (r scenario t * c)%Qc
              /\ (0 <= c)%Qc /\ (c <= 1)%Qc
              /\ (c <= w [half; half; half] scenario t)%Qc.
Proof.
  assert (H : well_formed (InverseProbabilityWeighting (Fin 1%Qc) (PyBool false))
                scenario = true) by (vm_compute; reflexivity).
  assert (H1 : (0 <= 1)%Qc) by (apply Qcleb_true; vm_compute; reflexivity).
  split; [reflexivity|]. split; [exact H|]. split; [exact H1|].
  exact (@ipw_weight_is_clipped 1%Qc (PyBool false) scenario [half; half; half]
           eq_refl H H1).
Defined.

(** Raising [lambda_] never lowers the estimate of Inverse Probability
    Weighting when the rewards are non-negative: on a well-formed batch
    with at least one round, the round rewards under [lambda_ = a] are
    round by round at most those under any [lambda_] that is at least
    [a], and so are the means. *)
Theorem ipw_monotone_in_lambda (a : Qc) (l2 : ext) (u u' : pyobj) (kw : inputs) :
  well_formed (InverseProbabilityWeighting (Fin a) u) kw = true ->
  le_ext a l2 = true ->
  (0 < n_rounds kw)%nat ->
  (forall t, (t < n_rounds kw)%nat -> (0 <= r kw t)%Qc) ->
  exists (v1 v2 : vec) (x1 x2 : Qc),
    _estimate_round_rewards (InverseProbabilityWeighting (Fin a) u) kw = Ok v1
    /\ _estimate_round_rewards (InverseProbabilityWeighting l2 u') kw = Ok v2
    /\ (forall t, (t < n_rounds kw)%nat -> (nth t v1 0 <= nth t v2 0)%Qc)
    /\ mean v1 = Ok x1 /\ mean v2 = Ok x2 /\ (x1 <= x2)%Qc.
Proof.
  intros H Hl Hn Hr. unfold well_formed in H.
  destruct (pscore kw) as [ps|] eqn:Eps; [|discriminate].
  assert (Hpt : forall t, (t < n_rounds kw)%nat ->
            (r kw t * min_ext (w ps kw t) (Fin a)
             <= r kw t * min_ext (w ps kw t) l2)%Qc).
  { intros t Ht. apply Qcmult_le_l; [now apply Hr|now apply min_ext_mono_fin]. }
  do 4 eexists.
  split; [exact (ipw_closed Eps H (Fin a) u)|].
  split; [exact (ipw_closed Eps H l2 u')|].
  split; [|split; [now apply mean_per_round|split; [now apply mean_per_round|]]].
  - intros t Ht. rewrite !nth_per_round by exact Ht. now apply Hpt.
  - apply Qcdiv_le_r.
    + now apply of_nat_gt0.
    + apply sum_le. intros t It. apply Hpt. now apply in_seq_lt.
Qed.

Lemma ipw_monotone_in_lambda_witness :
  well_formed (InverseProbabilityWeighting (Fin 1%Qc) (PyBool false)) scenario = true
  /\ le_ext 1%Qc PInf = true
  /\ (0 < n_rounds scenario)%nat
  /\ (forall t, (t < n_rounds scenario)%nat -> (0 <= r scenario t)%Qc)
  /\ exists (v1 v2 : vec) (x1 x2 : Qc),
       _estimate_round_rewards (InverseProbabilityWeighting (Fin 1%Qc) (PyBool false))
         scenario = Ok v1
       /\ _estimate_round_rewards (InverseProbabilityWeighting PInf (PyBool false))
            scenario = Ok v2
       /\ (forall t, (t < n_rounds scenario)%nat -> (nth t v1 0 <= nth t v2 0)%Qc)
       /\ mean v1 = Ok x1 /\ mean v2 = Ok x2 /\ (x1 <= x2)%Qc.
Proof.
  assert (H : well_formed (InverseProbabilityWeighting (Fin 1%Qc) (PyBool false))
                scenario = true) by (vm_compute; reflexivity).
  assert (Hn : (0 < n_rounds scenario)%nat) by (vm_compute; lia).
  assert (Hr : forall t, (t < n_rounds scenario)%nat -> (0 <= r scenario t)%Qc).
  { intros [|[|[|t]]] Ht; try (apply Qcleb_true; vm_compute; reflexivity).
    exfalso. cbv in Ht. lia. }
  split; [exact H|]. split; [reflexivity|]. split; [exact Hn|]. split; [exact Hr|].
  exact (@ipw_monotone_in_lambda 1%Qc PInf (PyBool false) (PyBool false) scenario
           H eq_refl Hn Hr).
Defined.

(** Evaluating the behavior policy itself: when the evaluation policy's
    probability of every logged action equals the logged propensity and
    [lambda_] is at least 1, every importance weight is 1 and Inverse
    Probability Weighting returns the rewards unchanged. *)
Theorem ipw_on_policy_returns_rewards (lam : ext) (u : pyobj) (kw : inputs)
    (ps : vec) :
  pscore kw = Some ps ->
  well_formed (InverseProbabilityWeighting lam u) kw = true ->
  le_ext 1%Qc lam = true ->
  (forall t, (t < n_rounds kw)%nat -> pi_e kw t = nth t ps 0%Qc) ->
  _estimate_round_rewards (InverseProbabilityWeighting lam u) kw = Ok (reward kw).
Proof.
  intros Eps H Hl Hon. unfold well_formed in H. rewrite Eps in H.
  rewrite (ipw_closed Eps H lam u). apply f_equal.
  destruct (conforms_pscore H) as (_ & Hs).
  transitivity (per_round (n_rounds kw) (r kw));
    [|symmetry; exact (conforms_reward H)].
  apply per_round_ext. intros t Ht.
  assert (E : w ps kw t = 1%Qc).
  { unfold w. rewrite (Hon t Ht). field. apply Qclt_neq. apply Hs.
    now apply lt_in_seq. }
  rewrite E, (min_ext_above _ _ Hl). unfold r. ring.
Qed.

Lemma ipw_on_policy_returns_rewards_witness :
  pscore on_policy = Some [half; half]
  /\ well_formed (InverseProbabilityWeighting PInf (PyBool false)) on_policy = true
  /\ le_ext 1%Qc PInf = true
  /\ (forall t, (t < n_rounds on_policy)%nat ->
        pi_e on_policy t = nth t [half; half] 0%Qc)
  /\ _estimate_round_rewards (InverseProbabilityWeighting PInf (PyBool false))
       on_policy = Ok (reward on_policy).
Proof.
  assert (H : well_formed (InverseProbabilityWeighting PInf (PyBool false))
                on_policy = true) by (vm_compute; reflexivity).
  assert (Hon : forall t, (t < n_rounds on_policy)%nat ->
              pi_e on_policy t = nth t [half; half] 0%Qc).
  { intros [|[|t]] Ht; [vm_compute; reflexivity|vm_compute; reflexivity|].
    exfalso. cbv in Ht. lia. }
  split; [reflexivity|]. split; [exact H|]. split; [reflexivity|].
  split; [exact Hon|].
  exact (@ipw_on_policy_returns_rewards PInf (PyBool false) on_policy [half; half]
           eq_refl H eq_refl Hon).
Defined.

(** ** Self-normalized estimates as weighted means *)

Lemma mean_normalized (n : nat) (f g : nat -> Qc) :
  seq 0 n <> [] ->
  (sum (per_round n g) / of_nat n)%Qc <> 0%Qc ->
  mean (per_round n (fun t => f t / (sum (per_round n g) / of_nat n))%Qc)
  = Ok (sum (per_round n f) / sum (per_round n g))%Qc.
Proof.
  intros Hn0 Hm. unfold per_round at 1. rewrite (mean_map _ Hn0), length_seq.
  f_equal. rewrite (sum_map_div _ _ Hm). fold (per_round n f).
  assert (Hs0 : sum (per_round n g) <> 0%Qc) by (exact (div_nonzero_num Hm)).
  assert (Hn1 : of_nat n <> 0%Qc).
  { apply of_nat_pos. destruct n; [now elim Hn0|lia]. }
  field. auto.
Qed.

Lemma weighted_mean_bounds (n : nat) (f g : nat -> Qc) (lo hi : Qc) :
  (forall t, (t < n)%nat -> (0 <= g t)%Qc) ->
  (forall t, (t < n)%nat -> (lo <= f t)%Qc /\ (f t <= hi)%Qc) ->
  (0 < sum (per_round n g))%Qc ->
  (lo <= sum (per_round n (fun t => f t * g t)%Qc) / sum (per_round n g))%Qc
  /\ (sum (per_round n (fun t => f t * g t)%Qc) / sum (per_round n g) <= hi)%Qc.
Proof.
  intros Hg Hf Hs. pose proof (Qclt_neq Hs) as Hs0. split.
  - apply Qcle_trans with (lo * sum (per_round n g) / sum (per_round n g))%Qc.
    { replace (lo * sum (per_round n g) / sum (per_round n g))%Qc with lo
        by (field; exact Hs0).
      apply Qcle_refl. }
    apply Qcdiv_le_r; [exact Hs|]. unfold per_round. rewrite <- sum_scale.
    apply sum_le. intros t It. apply in_seq_lt in It.
    apply Qcmult_le_compat_r; [now apply Hf|now apply Hg].
  - apply Qcle_trans with (hi * sum (per_round n g) / sum (per_round n g))%Qc.
    2:{ replace (hi * sum (per_round n g) / sum (per_round n g))%Qc with hi
          by (field; exact Hs0).
        apply Qcle_refl. }
    apply Qcdiv_le_r; [exact Hs|]. unfold per_round. rewrite <- sum_scale.
    apply sum_le. intros t It. apply in_seq_lt in It.
    apply Qcmult_le_compat_r; [now apply Hf|now apply Hg].
Qed.

(** The estimate of self-normalized IPW is a weighted mean of the
    rewards: on a well-formed batch whose importance weights do not all
    vanish, the mean of the round rewards lies between any two bounds
    [lo] and [hi] that enclose every reward of the batch. *)
Theorem snipw_within_reward_range (lam : ext) (u : pyobj) (kw : inputs) (ps : vec)
    (m lo hi : Qc) :
  pscore kw = Some ps ->
  well_formed (SelfNormalizedInverseProbabilityWeighting lam u) kw = true ->
  mean (per_round (n_rounds kw) (w ps kw)) = Ok m ->
  m <> 0%Qc ->
  (forall t, (t < n_rounds kw)%nat -> (lo <= r kw t)%Qc /\ (r kw t <= hi)%Qc) ->
  exists (v : vec) (x : Qc),
    _estimate_round_rewards (SelfNormalizedInverseProbabilityWeighting lam u) kw = Ok v
    /\ mean v = Ok x /\ (lo <= x)%Qc /\ (x <= hi)%Qc.
Proof.
  intros Eps H Hmean Hm Hr. unfold well_formed in H. rewrite Eps in H.
  destruct (mean_tabulated _ _ Hmean) as (Hn0 & Em).
  assert (Hw : forall t, (t < n_rounds kw)%nat -> (0 <= w ps kw t)%Qc)
    by (intros t Ht; exact (@weights_nonneg kw ps None t H Ht)).
  assert (Hs : (0 < sum (per_round (n_rounds kw) (w ps kw)))%Qc).
  { destruct (Qcle_lt_or_eq 0 (sum (per_round (n_rounds kw) (w ps kw)))) as [X|X].
    - apply sum_nonneg. intros t It. apply Hw. now apply in_seq_lt.
    - exact X.
    - exfalso. rewrite Em in Hm. apply (div_nonzero_num Hm). now symmetry. }
  do 2 eexists. split; [exact (snipw_closed Eps H lam u m Hmean Hm)|].
  rewrite Em. rewrite Em in Hm. split.
  - exact (mean_normalized (fun t => r kw t * w ps kw t)%Qc (w ps kw) Hn0 Hm).
  - now apply weighted_mean_bounds.
Qed.

Lemma snipw_within_reward_range_witness :
  pscore scenario = Some [half; half; half]
  /\ well_formed (SelfNormalizedInverseProbabilityWeighting PInf (PyBool false))
       scenario = true
  /\ mean (per_round (n_rounds scenario) (w [half; half; half] scenario)) = Ok two
  /\ two <> 0%Qc
  /\ (forall t, (t < n_rounds scenario)%nat ->
        (0 <= r scenario t)%Qc /\ (r scenario t <= 1)%Qc)
  /\ exists (v : vec) (x : Qc),
       _estimate_round_rewards
         (SelfNormalizedInverseProbabilityWeighting PInf (PyBool false)) scenario
       = Ok v
       /\ mean v = Ok x /\ (0 <= x)%Qc /\ (x <= 1)%Qc.
Proof.
  assert (H : well_formed (SelfNormalizedInverseProbabilityWeighting PInf (PyBool false))
                scenario = true) by (vm_compute; reflexivity).
  assert (Hm : mean (per_round (n_rounds scenario) (w [half; half; half] scenario))
               = Ok two) by (apply returns_eq; vm_compute; reflexivity).
  assert (H2 : two <> 0%Qc) by (apply Qceqb_false; vm_compute; reflexivity).
  assert (Hr : forall t, (t < n_rounds scenario)%nat ->
             (0 <= r scenario t)%Qc /\ (r scenario t <= 1)%Qc).
  { intros [|[|[|t]]] Ht;
      try (split; apply Qcleb_true; vm_compute; reflexivity).
    exfalso. cbv in Ht. lia. }
  split; [reflexivity|]. split; [exact H|]. split; [exact Hm|].
  split; [exact H2|]. split; [exact Hr|].
  exact (@snipw_within_reward_range PInf (PyBool false) scenario [half; half; half]
           two 0%Qc 1%Qc eq_refl H Hm H2 Hr).
Defined.

(** ** The Replay Method *)

Lemma count_true_all {T : Type} (l : list T) (f : T -> bool) :
  (forall x, In x l -> f x = true) -> count_true (map f l) = length l.
Proof.
  unfold count_true. induction l as [|a l IH]; intros H; simpl; [reflexivity|].
  rewrite (H a (or_introl eq_refl)). simpl. f_equal. apply IH.
  intros x Hx. apply H. now right.
Qed.

Lemma rm_closed (kw : inputs) :
  well_formed ReplayMethod kw = true ->
  _estimate_round_rewards ReplayMethod kw
  = let k := count_true (map (fun t => Qceqb (pi_e kw t) 1) (seq 0 (n_rounds kw))) in
    if Nat.ltb 0 k
    then Ok (per_round (n_rounds kw)
               (fun t => b2q (Qceqb (pi_e kw t) 1) * r kw t
                         / (of_nat k / of_nat (n_rounds kw)))%Qc)
    else Ok (per_round (n_rounds kw) (fun _ => 0%Qc)).
Proof.
  intros H. unfold well_formed in H.
  destruct (conforms_position H) as (Ep & Hp & _).
  destruct (conforms_action H) as (Ea & Ha).
  pose proof (conforms_reward H) as Er.
  cbn [_estimate_round_rewards]. rewrite rm_position_default.
  exact (rm_rounds (fr := r kw) (fa := act kw) (fp := pos kw) Er Ea Ep eq_refl Ha Hp).
Qed.

(** When the evaluation policy picks the logged action in every round of
    a well-formed batch with at least one round, the Replay Method returns
    the rewards unchanged. *)
Theorem replay_all_rounds_match (kw : inputs) :
  well_formed ReplayMethod kw = true ->
  (0 < n_rounds kw)%nat ->
  (forall t, (t < n_rounds kw)%nat -> pi_e kw t = 1%Qc) ->
  _estimate_round_rewards ReplayMethod kw = Ok (reward kw).
Proof.
  intros H Hn Hall. rewrite (rm_closed kw H). cbv zeta.
  assert (Hk : count_true (map (fun t => Qceqb (pi_e kw t) 1) (seq 0 (n_rounds kw)))
               = n_rounds kw).
  { rewrite count_true_all; [apply length_seq|].
    intros t It. apply Qceqb_true. apply Hall. now apply in_seq_lt. }
  rewrite Hk. apply Nat.ltb_lt in Hn as Hlt. rewrite Hlt. apply f_equal.
  unfold well_formed in H.
  transitivity (per_round (n_rounds kw) (r kw));
    [|symmetry; exact (conforms_reward H)].
  apply per_round_ext. intros t Ht.
  assert (E : Qceqb (pi_e kw t) 1 = true) by (apply Qceqb_true; now apply Hall).
  rewrite E. cbn [b2q]. field.
  split; [now apply of_nat_pos|exact (one_neq_zero eq_refl)].
Qed.

Lemma replay_all_rounds_match_witness :
  well_formed ReplayMethod scenario = true
  /\ (0 < n_rounds scenario)%nat
  /\ (forall t, (t < n_rounds scenario)%nat -> pi_e scenario t = 1%Qc)
  /\ _estimate_round_rewards ReplayMethod scenario = Ok (reward scenario).
Proof.
  assert (H : well_formed ReplayMethod scenario = true) by (vm_compute; reflexivity).
  assert (Hn : (0 < n_rounds scenario)%nat) by (vm_compute; lia).
  assert (Hall : forall t, (t < n_rounds scenario)%nat -> pi_e scenario t = 1%Qc).
  { intros [|[|[|t]]] Ht; try (vm_compute; reflexivity). exfalso. cbv in Ht. lia. }
  split; [exact H|]. split; [exact Hn|]. split; [exact Hall|].
  exact (replay_all_rounds_match scenario H Hn Hall).
Defined.

(** The estimate of the Replay Method on a well-formed batch with at
    least one matching round: the mean of the round rewards is the sum of
    the rewards of the matching rounds divided by the number of matching
    rounds. *)
Theorem replay_mean_over_matches (kw : inputs) :
  well_formed ReplayMethod kw = true ->
  (0 < count_true (map (fun t => Qceqb (pi_e kw t) 1) (seq 0 (n_rounds kw))))%nat ->
  exists v : vec,
    _estimate_round_rewards ReplayMethod kw = Ok v
    /\ mean v
       = Ok (sum (per_round (n_rounds kw)
                    (fun t => b2q (Qceqb (pi_e kw t) 1) * r kw t)%Qc)
             / of_nat (count_true (map (fun t => Qceqb (pi_e kw t) 1)
                                     (seq 0 (n_rounds kw)))))%Qc.
Proof.
  intros H Hk. rewrite (rm_closed kw H). cbv zeta.
  set (k := count_true (map (fun t => Qceqb (pi_e kw t) 1) (seq 0 (n_rounds kw))))
    in *.
  apply Nat.ltb_lt in Hk as Hlt. rewrite Hlt.
  assert (Hn : (0 < n_rounds kw)%nat).
  { destruct (n_rounds kw) eqn:E; [|lia]. exfalso. subst k. cbv in Hk. lia. }
  assert (Hk0 : of_nat k <> 0%Qc) by now apply of_nat_pos.
  assert (Hn0 : of_nat (n_rounds kw) <> 0%Qc) by now apply of_nat_pos.
  assert (Hm : (of_nat k / of_nat (n_rounds kw))%Qc <> 0%Qc).
  { intros X. apply Hk0.
    replace (of_nat k) with (of_nat k / of_nat (n_rounds kw) * of_nat (n_rounds kw))%Qc
      by (field; exact Hn0).
    rewrite X. ring. }
  eexists. split; [reflexivity|].
  rewrite (mean_per_round _ Hn). f_equal.
  unfold per_round. rewrite (sum_map_div _ _ Hm). field. auto.
Qed.

Lemma replay_mean_over_matches_witness :
  well_formed ReplayMethod scenario = true
  /\ (0 < count_true (map (fun t => Qceqb (pi_e scenario t) 1)
                        (seq 0 (n_rounds scenario))))%nat
  /\ exists v : vec,
       _estimate_round_rewards ReplayMethod scenario = Ok v
       /\ mean v
          = Ok (sum (per_round (n_rounds scenario)
                       (fun t => b2q (Qceqb (pi_e scenario t) 1) * r scenario t)%Qc)
                / of_nat (count_true (map (fun t => Qceqb (pi_e scenario t) 1)
                                        (seq 0 (n_rounds scenario)))))%Qc.
Proof.
  assert (H : well_formed ReplayMethod scenario = true) by (vm_compute; reflexivity).
  assert (Hk : (0 < count_true (map (fun t => Qceqb (pi_e scenario t) 1)
                                  (seq 0 (n_rounds scenario))))%nat)
    by (vm_compute; lia).
  split; [exact H|]. split; [exact Hk|].
  exact (replay_mean_over_matches scenario H Hk).
Defined.

(** ** Balanced Inverse Probability Weighting *)

Lemma conforms_ratio (ad : ndarray3) (wt : vec) (op oa : option (list Z))
    (orw ops : option vec) (oq : option ndarray3) :
  conforms ad op oa orw ops oq (Some wt) = true ->
  wt = map (fun t => nth t wt 0%Qc) (seq 0 (shape0 ad))
  /\ (forall t, In t (seq 0 (shape0 ad)) -> (0 < nth t wt 0%Qc)%Qc).
Proof.
  intros H. apply conforms_split in H as (_ & _ & _ & _ & _ & _ & Hs). simpl in Hs.
  apply andb_true_iff in Hs as [Hl Hr]. apply Nat.eqb_eq in Hl. split.
  - now apply as_tabulated_n.
  - intros t Ht. apply Qcltb_true.
    now apply (forallb_nth (Qcltb 0) 0%Qc wt Hl Hr).
Qed.

Arguments conforms_ratio {ad wt op oa orw ops oq} _.

Lemma bipw_closed (lam : ext) (kw : inputs) (wt : vec) (m : Qc) :
  importance_sampling_ratio kw = Some wt ->
  well_formed (BalancedInverseProbabilityWeighting lam) kw = true ->
  mean (per_round (n_rounds kw) (fun t => min_ext (pi_e kw t * nth t wt 0) lam)%Qc)
  = Ok m ->
  m <> 0%Qc ->
  _estimate_round_rewards (BalancedInverseProbabilityWeighting lam) kw
  = Ok (per_round (n_rounds kw)
          (fun t => r kw t * min_ext (pi_e kw t * nth t wt 0) lam / m)%Qc).
Proof.
  intros Ew H Hmean Hm. unfold well_formed in H. rewrite Ew in H.
  destruct (conforms_position H) as (Ep & Hp & _).
  destruct (conforms_action H) as (Ea & Ha).
  destruct (conforms_ratio H) as (Et & _).
  pose proof (conforms_reward H) as Er.
  cbn [_estimate_round_rewards]. rewrite Ew. cbn [required bind].
  rewrite bipw_position_default. unfold BIPW._estimate_round_rewards. step.
  rewrite (picked_ok (action_dist kw) (act kw) (pos kw) Ea Ep eq_refl Ha Hp). step.
  rewrite Et at 1. rewrite mul_map. step. rewrite minimum_map.
  rewrite Er at 1. rewrite mul_map. step.
  destruct (mean_tabulated _ _ Hmean) as (Hn0 & Em). subst m.
  rewrite (mean_map _ Hn0). step. rewrite length_seq.
  now apply div_scalar_map.
Qed.

(** Balanced IPW on a well-formed batch: the weight of a round is the
    product of the evaluation policy's probability of the logged action
    and the importance sampling ratio, clipped as a whole at [lambda_];
    the round reward is the reward times that weight over the mean weight
    [m], provided [m] is not zero, and the mean of the round rewards is
    the ratio of sums [(sum_t reward[t] * c[t]) / (sum_t c[t])]. *)
Theorem bipw_ratio_of_sums (lam : ext) (kw : inputs) (wt : vec) (m : Qc) :
  importance_sampling_ratio kw = Some wt ->
  well_formed (BalancedInverseProbabilityWeighting lam) kw = true ->
  mean (per_round (n_rounds kw) (fun t => min_ext (pi_e kw t * nth t wt 0) lam)%Qc)
  = Ok m ->
  m <> 0%Qc ->
  exists v : vec,
    _estimate_round_rewards (BalancedInverseProbabilityWeighting lam) kw = Ok v
    /\ v = per_round (n_rounds kw)
             (fun t => r kw t * min_ext (pi_e kw t * nth t wt 0) lam / m)%Qc
    /\ mean v
       = Ok (sum (per_round (n_rounds kw)
                    (fun t => r kw t * min_ext (pi_e kw t * nth t wt 0) lam)%Qc)
             / sum (per_round (n_rounds kw)
                      (fun t => min_ext (pi_e kw t * nth t wt 0) lam)%Qc))%Qc.
Proof.
  intros Ew H Hmean Hm.
  eexists. split; [exact (bipw_closed lam kw Ew H Hmean Hm)|].
  split; [reflexivity|].
  destruct (mean_tabulated _ _ Hmean) as (Hn0 & Em).
  rewrite Em. rewrite Em in Hm.
  exact (mean_normalized
           (fun t => r kw t * min_ext (pi_e kw t * nth t wt 0) lam)%Qc
           (fun t => min_ext (pi_e kw t * nth t wt 0) lam)%Qc Hn0 Hm).
Qed.

Lemma bipw_ratio_of_sums_witness :
  importance_sampling_ratio on_policy = Some [two; two]
  /\ well_formed (BalancedInverseProbabilityWeighting (Fin half)) on_policy = true
  /\ mean (per_round (n_rounds on_policy)
             (fun t => min_ext (pi_e on_policy t * nth t [two; two] 0) (Fin half))%Qc)
     = Ok half
  /\ half <> 0%Qc
  /\ exists v : vec,
       _estimate_round_rewards (BalancedInverseProbabilityWeighting (Fin half))
         on_policy = Ok v
       /\ v = per_round (n_rounds on_policy)
                (fun t => r on_policy t
                          * min_ext (pi_e on_policy t * nth t [two; two] 0) (Fin half)
                          / half)%Qc
       /\ mean v
          = Ok (sum (per_round (n_rounds on_policy)
                       (fun t => r on_policy t
                                 * min_ext (pi_e on_policy t * nth t [two; two] 0)
                                     (Fin half))%Qc)
                / sum (per_round (n_rounds on_policy)
                         (fun t => min_ext (pi_e on_policy t * nth t [two; two] 0)
                                     (Fin half))%Qc))%Qc.
Proof.
  assert (H : well_formed (BalancedInverseProbabilityWeighting (Fin half)) on_policy
              = true) by (vm_compute; reflexivity).
  assert (Hm : mean (per_round (n_rounds on_policy)
                       (fun t => min_ext (pi_e on_policy t * nth t [two; two] 0)
                                   (Fin half))%Qc) = Ok half)
    by (apply returns_eq; vm_compute; reflexivity).
  assert (H0 : half <> 0%Qc) by (apply Qceqb_false; vm_compute; reflexivity).
  split; [reflexivity|]. split; [exact H|]. split; [exact Hm|]. split; [exact H0|].
  exact (@bipw_ratio_of_sums (Fin half) on_policy [two; two] half eq_refl H Hm H0).
Defined.

(** ** Doubly Robust with optimistic shrinkage, for a positive lambda_ *)

Lemma shrunk_bounds (l x : Qc) :
  (0 < l)%Qc -> (0 <= x)%Qc ->
  (0 <= shrunk (Fin l) x)%Qc /\ (shrunk (Fin l) x <= x)%Qc
  /\ (shrunk (Fin l) x * shrunk (Fin l) x * (1 + 1 + 1 + 1) <= l)%Qc.
Proof.
  intros Hl Hx. simpl.
  assert (Hd : (0 < x * x + l)%Qc) by (apply Qcplus_pos_r; [apply Qcsquare_nonneg|exact Hl]).
  pose proof (Qclt_neq Hd) as Hd0.
  split; [|split].
  - apply Qcdiv_nonneg; [|exact Hd].
    apply Qcmult_nonneg; [now apply Qclt_le_weak|exact Hx].
  - apply <- Qcle_sub.
    replace (x - l * x / (x * x + l))%Qc with (x * (x * x) / (x * x + l))%Qc
      by (field; exact Hd0).
    apply Qcdiv_nonneg; [|exact Hd].
    apply Qcmult_nonneg; [exact Hx|apply Qcsquare_nonneg].
  - apply <- Qcle_sub.
    replace (l - l * x / (x * x + l) * (l * x / (x * x + l)) * (1 + 1 + 1 + 1))%Qc
      with (l * ((x * x - l) * (x * x - l)) / ((x * x + l) * (x * x + l)))%Qc
      by (field; exact Hd0).
    apply Qcdiv_nonneg.
    + apply Qcmult_nonneg; [now apply Qclt_le_weak|apply Qcsquare_nonneg].
    + destruct (Qcle_lt_or_eq _ _ (Qcsquare_nonneg (x * x + l))) as [X|X]; [exact X|].
      exfalso. apply (Qclt_neq Hd).
      destruct (Qcmult_integral _ _ (eq_sym X)); assumption.
Qed.

(** For a finite [lambda_ > 0] DRos never divides by zero: on a
    well-formed batch with the positions given it returns one round reward
    per round, the Direct Method term plus a shrunk weight [c] times the
    residual, where [c = lambda_ * w / (w^2 + lambda_)] lies between 0 and
    the importance weight [w] and satisfies [4 * c^2 <= lambda_]. *)
Theorem dros_positive_lambda_shrinks (l : Qc) (u : pyobj) (kw : inputs) (ps : vec)
    (q : ndarray3) :
  pscore kw = Some ps ->
  estimated_rewards_by_reg_model kw = Some q ->
  well_formed (DoublyRobustWithShrinkage (Fin l) u) kw = true ->
  position kw <> None ->
  (0 < l)%Qc ->
  exists v : vec,
    _estimate_round_rewards (DoublyRobustWithShrinkage (Fin l) u) kw = Ok v
    /\ length v = n_rounds kw
    /\ forall t, (t < n_rounds kw)%nat ->
         exists c : Qc,
           c = (l * w ps kw t / (w ps kw t * w ps kw t + l))%Qc
           /\ nth t v 0%Qc = (dm_term q kw t + c * (r kw t - q_factual q kw t))%Qc
           /\ (0 <= c)%Qc /\ (c <= w ps kw t)%Qc
           /\ (c * c * (1 + 1 + 1 + 1) <= l)%Qc.
Proof.
  intros Eps Eq H Hpos Hl. unfold well_formed in H. rewrite Eps, Eq in H.
  assert (Hw : forall t, (t < n_rounds kw)%nat -> (0 <= w ps kw t)%Qc)
    by (intros t Ht; exact (@weights_nonneg kw ps (Some q) t H Ht)).
  eexists. split.
  { apply (dros_closed Eps Eq H Hpos l u). intros t Ht. apply Qclt_neq.
    apply Qcplus_pos_r; [apply Qcsquare_nonneg|exact Hl]. }
  split; [unfold per_round; now rewrite length_map, length_seq|].
  intros t Ht. exists (shrunk (Fin l) (w ps kw t)).
  rewrite nth_per_round by exact Ht.
  split; [reflexivity|]. split; [reflexivity|].
  apply shrunk_bounds; [exact Hl|now apply Hw].
Qed.

Lemma dros_positive_lambda_shrinks_witness :
  pscore zero_weight = Some [half; half]
  /\ estimated_rewards_by_reg_model zero_weight
     = Some (of_lists 2 2 1 [[[Q2Qc (3 # 10)]; [Q2Qc (6 # 10)]];
                             [[Q2Qc (3 # 10)]; [Q2Qc (6 # 10)]]])
  /\ well_formed (DoublyRobustWithShrinkage (Fin 1%Qc) (PyBool false)) zero_weight
     = true
  /\ position zero_weight <> None
  /\ (0 < 1)%Qc
  /\ exists v : vec,
       _estimate_round_rewards (DoublyRobustWithShrinkage (Fin 1%Qc) (PyBool false))
         zero_weight = Ok v
       /\ length v = n_rounds zero_weight
       /\ forall t, (t < n_rounds zero_weight)%nat ->
            exists c : Qc,
              c = (1 * w [half; half] zero_weight t
                   / (w [half; half] zero_weight t * w [half; half] zero_weight t + 1))%Qc
              /\ nth t v 0%Qc
                 = (dm_term (of_lists 2 2 1 [[[Q2Qc (3 # 10)]; [Q2Qc (6 # 10)]];
                                             [[Q2Qc (3 # 10)]; [Q2Qc (6 # 10)]]])
                      zero_weight t
                    + c * (r zero_weight t
                           - q_factual
                               (of_lists 2 2 1 [[[Q2Qc (3 # 10)]; [Q2Qc (6 # 10)]];
                                                [[Q2Qc (3 # 10)]; [Q2Qc (6 # 10)]]])
                               zero_weight t))%Qc
              /\ (0 <= c)%Qc /\ (c <= w [half; half] zero_weight t)%Qc
              /\ (c * c * (1 + 1 + 1 + 1) <= 1)%Qc.
Proof.
  assert (H : well_formed (DoublyRobustWithShrinkage (Fin 1%Qc) (PyBool false))
                zero_weight = true) by (vm_compute; reflexivity).
  assert (Hp : position zero_weight <> None) by discriminate.
  assert (H1 : (0 < 1)%Qc) by (apply Qcltb_true; vm_compute; reflexivity).
  split; [reflexivity|]. split; [reflexivity|]. split; [exact H|].
  split; [exact Hp|]. split; [exact H1|].
  exact (@dros_positive_lambda_shrinks 1%Qc (PyBool false) zero_weight [half; half]
           _ eq_refl eq_refl H Hp H1).
Defined.

(** ** Construction *)

(** Construction with a [lambda_] and no flag: every class with a
    [lambda_] field accepts exactly the values that are an int, a float or
    a bool, not negative and not nan; infinity is accepted. *)
Theorem construct_accepts_exactly_valid_lambda (c : class) (x : pyobj) :
  has_lambda c = true ->
  is_ok (construct c (Some x) None) = negb (bad_lambda x).
Proof.
  intros Hc. unfold bad_lambda.
  destruct c; try discriminate Hc; cbn [construct];
    unfold PostInit.with_flag_check, PostInit.lambda_only, check_scalar,
      default_use_estimated_pscore;
    destruct (is_int_or_float x); cbn [negb orb bind is_ok]; try reflexivity;
    destruct (lt_zero x); cbn [negb orb bind is_ok]; try reflexivity;
    destruct (ne_self x); reflexivity.
Qed.

Lemma construct_accepts_exactly_valid_lambda_witness :
  has_lambda CSwitchDoublyRobust = true
  /\ is_ok (construct CSwitchDoublyRobust (Some (PyBool true)) None)
     = negb (bad_lambda (PyBool true)).
Proof.
  split; [reflexivity|].
  exact (construct_accepts_exactly_valid_lambda CSwitchDoublyRobust (PyBool true)
           eq_refl).
Defined.

(** ** The public methods *)

(** The samples that [estimate_interval] hands to the bootstrap are the
    round rewards whose mean [estimate_policy_value] returns on the same
    batch, and the caller's [alpha] and [random_state] are passed on
    unchanged; this holds for every estimator. *)
Theorem interval_samples_give_policy_value (e : estimator) (kw : inputs)
    (a : option Qc) (n rs : option Z) (c : bootstrap_call) :
  estimate_interval e kw a n rs = Ok c ->
  estimate_policy_value e kw = mean (samples c)
  /\ alpha c = match a with Some x => x | None => default_alpha end
  /\ random_state c = rs.
Proof.
  destruct e as [|l u|l u| |l u|l u|l u|l u|l];
    cbn [estimate_interval estimate_policy_value];
    unfold RM.estimate_interval, RM.estimate_policy_value,
      IPW.estimate_interval, IPW.estimate_policy_value,
      DM.estimate_interval, DM.estimate_policy_value,
      DR.estimate_interval, DR.estimate_policy_value,
      BIPW.estimate_interval, BIPW.estimate_policy_value;
    repeat match goal with
           | |- context [bind ?m _] =>
               destruct m; cbn [bind]; try discriminate
           end;
    intros H; injection H as <-; cbn [samples alpha random_state];
    repeat split; reflexivity.
Qed.

Lemma interval_samples_give_policy_value_witness :
  estimate_interval (InverseProbabilityWeighting PInf (PyBool false)) scenario
    None None (Some 12345%Z)
  = Ok {| samples := [two; 0%Qc; two]; alpha := default_alpha;
          n_bootstrap_samples := 10000%Z; random_state := Some 12345%Z |}
  /\ estimate_policy_value (InverseProbabilityWeighting PInf (PyBool false)) scenario
     = mean [two; 0%Qc; two]
  /\ default_alpha = default_alpha
  /\ Some 12345%Z = Some 12345%Z.
Proof.
  assert (H : estimate_interval (InverseProbabilityWeighting PInf (PyBool false))
                scenario None None (Some 12345%Z)
              = Ok {| samples := [two; 0%Qc; two]; alpha := default_alpha;
                      n_bootstrap_samples := 10000%Z;
                      random_state := Some 12345%Z |}).
  { cbn [estimate_interval]. unfold IPW.estimate_interval, IPW.select_pscore.
    cbn [truthy]. cbn [scenario pscore reward action action_dist position
                       check_array bind].
    replace (check_ope_inputs _ _ _ _ _ _ _) with (Ok tt)
      by (vm_compute; reflexivity).
    cbn [bind].
    replace (IPW._estimate_round_rewards _ _ _ _ _ _) with (Ok [two; 0%Qc; two])
      by (symmetry; apply returns_vec_eq; vm_compute; reflexivity).
    reflexivity. }
  split; [exact H|].
  exact (@interval_samples_give_policy_value
           (InverseProbabilityWeighting PInf (PyBool false)) scenario None None
           (Some 12345%Z) _ H).
Defined.

(** The flag [use_estimated_pscore] does nothing but choose the
    propensities: every public call gives what the same estimator with the
    flag set to False gives on the batch whose [pscore] is the chosen
    array, [estimated_pscore] when the flag is true.  In particular the
    logged [pscore] is never read when the flag is true. *)
Theorem flag_selects_propensities (e : estimator) (kw : inputs) (a : option Qc)
    (n rs : option Z) :
  estimate_policy_value e kw
  = estimate_policy_value (with_logged_pscore e)
      (with_pscore kw (effective_pscore e kw))
  /\ estimate_interval e kw a n rs
     = estimate_interval (with_logged_pscore e)
         (with_pscore kw (effective_pscore e kw)) a n rs.
Proof.
  destruct e as [|l u|l u| |l u|l u|l u|l u|l];
    cbn [estimate_interval estimate_policy_value with_logged_pscore
         effective_pscore];
    unfold RM.estimate_interval, RM.estimate_policy_value,
      IPW.estimate_interval, IPW.estimate_policy_value, IPW.select_pscore,
      DM.estimate_interval, DM.estimate_policy_value,
      DR.estimate_interval, DR.estimate_policy_value, DR.select_pscore,
      BIPW.estimate_interval, BIPW.estimate_policy_value;
    cbn [truthy with_pscore reward action action_dist position pscore
         estimated_pscore estimated_rewards_by_reg_model
         importance_sampling_ratio];
    try (split; reflexivity);
    destruct (truthy u); split; reflexivity.
Qed.

Lemma zeros_in_range (n k : nat) :
  (0 < k)%nat -> forallb (in_range k) (zeros n) = true.
Proof.
  intros Hk. unfold zeros. induction n as [|n IH]; [reflexivity|].
  simpl. rewrite IH. unfold in_range. simpl.
  destruct k; [lia|]. reflexivity.
Qed.

Lemma conforms_default_position (ad : ndarray3) (oa : option (list Z))
    (orw ops : option vec) (oq : option ndarray3) (ow : option vec) :
  (0 < shape2 ad)%nat ->
  conforms ad (Some (default_position ad None)) oa orw ops oq ow
  = conforms ad None oa orw ops oq ow.
Proof.
  intros Hk. unfold conforms. cbn [opt_forall default_position].
  unfold zeros. rewrite repeat_length, Nat.eqb_refl.
  pose proof (zeros_in_range (shape0 ad) Hk) as Hz. unfold zeros in Hz.
  rewrite Hz. reflexivity.
Qed.

(** Leaving out the position is the same as passing zeros when there is
    one position: for an [action_dist] with exactly one position,
    [estimate_policy_value] and [estimate_interval] of every estimator
    give on a batch without position what they give on the same batch
    with an all-zeros position of one entry per round.  This includes
    SNDR, Switch-DR and DRos, whose round-reward methods do not default
    the position themselves. *)
Theorem public_methods_default_position (e : estimator) (kw : inputs)
    (a : option Qc) (n rs : option Z) :
  position kw = None ->
  shape2 (action_dist kw) = 1%nat ->
  estimate_policy_value e kw
  = estimate_policy_value e
      (with_position kw (Some (zeros (shape0 (action_dist kw)))))
  /\ estimate_interval e kw a n rs
     = estimate_interval e
         (with_position kw (Some (zeros (shape0 (action_dist kw))))) a n rs.
Proof.
  intros Hp H1.
  assert (Hk : (0 < shape2 (action_dist kw))%nat) by (rewrite H1; lia).
  destruct e as [|l u|l u| |l u|l u|l u|l u|l];
    cbn [estimate_interval estimate_policy_value];
    unfold RM.estimate_interval, RM.estimate_policy_value,
      IPW.estimate_interval, IPW.estimate_policy_value, IPW.select_pscore,
      DM.estimate_interval, DM.estimate_policy_value,
      DR.estimate_interval, DR.estimate_policy_value, DR.select_pscore,
      BIPW.estimate_interval, BIPW.estimate_policy_value, check_ope_inputs;
    cbn [with_position reward action action_dist position pscore
         estimated_pscore estimated_rewards_by_reg_model
         importance_sampling_ratio];
    rewrite Hp;
    change (Some (zeros (shape0 (action_dist kw))))
      with (Some (default_position (action_dist kw) None));
    repeat match goal with
           | |- context [truthy ?u] => destruct (truthy u)
           | |- context [estimated_pscore kw] => destruct (estimated_pscore kw)
           | |- context [pscore kw] => destruct (pscore kw)
           | |- context [estimated_rewards_by_reg_model kw] =>
               destruct (estimated_rewards_by_reg_model kw)
           | |- context [importance_sampling_ratio kw] =>
               destruct (importance_sampling_ratio kw)
           end;
    cbn [check_array bind];
    rewrite ?(conforms_default_position _ _ _ _ _ _ Hk);
    split; reflexivity.
Qed.

Lemma public_methods_default_position_witness :
  position on_policy = None
  /\ shape2 (action_dist on_policy) = 1%nat
  /\ estimate_policy_value
       (SwitchDoublyRobust (Fin 1%Qc) (PyBool false)) on_policy
     = estimate_policy_value (SwitchDoublyRobust (Fin 1%Qc) (PyBool false))
         (with_position on_policy (Some (zeros (shape0 (action_dist on_policy)))))
  /\ estimate_interval
       (SwitchDoublyRobust (Fin 1%Qc) (PyBool false)) on_policy None None None
     = estimate_interval (SwitchDoublyRobust (Fin 1%Qc) (PyBool false))
         (with_position on_policy (Some (zeros (shape0 (action_dist on_policy)))))
         None None None.
Proof.
  split; [reflexivity|]. split; [reflexivity|].
  exact (@public_methods_default_position
           (SwitchDoublyRobust (Fin 1%Qc) (PyBool false)) on_policy None None None
           eq_refl eq_refl).
Defined.

(** ** Self-normalized IPW and the scale of the propensities *)

Lemma conforms_scaled_pscore (ad : ndarray3) (op oa : option (list Z))
    (orw : option vec) (ps : vec) (oq : option ndarray3) (ow : option vec) (c : Qc) :
  (0 < c)%Qc ->
  conforms ad op oa orw (Some ps) oq ow = true ->
  conforms ad op oa orw (Some (map (fun x => c * x)%Qc ps)) oq ow = true.
Proof.
  intros Hc. unfold conforms. rewrite !andb_true_iff. cbn [opt_forall].
  rewrite !andb_true_iff, length_map.
  intros ((((((H1 & H2) & H3) & H4) & (H5 & H6)) & H7) & H8).
  repeat split; try assumption.
  rewrite forallb_forall in *. intros y Hy. apply in_map_iff in Hy as (x & <- & Hx).
  apply Qcltb_true. specialize (H6 x Hx). apply Qcltb_true in H6.
  pose proof (Qcmult_lt_compat_r 0 c x H6 Hc) as X.
  now rewrite Qcmult_0_l in X.
Qed.

Lemma nth_scaled (c : Qc) (ps : vec) (t : nat) :
  nth t (map (fun x => c * x)%Qc ps) 0%Qc = (c * nth t ps 0)%Qc.
Proof.
  replace 0%Qc with (c * 0)%Qc at 1 by ring.
  exact (map_nth (fun x => c * x)%Qc ps 0%Qc t).
Qed.

(** Self-normalized IPW needs the propensities only up to a constant
    factor: on a well-formed batch whose importance weights do not all
    vanish, multiplying every propensity by the same [c > 0] changes no
    round reward. *)
Theorem snipw_invariant_under_pscore_scaling (lam : ext) (u : pyobj) (kw : inputs)
    (ps : vec) (m c : Qc) :
  pscore kw = Some ps ->
  well_formed (SelfNormalizedInverseProbabilityWeighting lam u) kw = true ->
  mean (per_round (n_rounds kw) (w ps kw)) = Ok m ->
  m <> 0%Qc ->
  (0 < c)%Qc ->
  _estimate_round_rewards (SelfNormalizedInverseProbabilityWeighting lam u)
    (with_pscore kw (Some (map (fun x => c * x)%Qc ps)))
  = _estimate_round_rewards (SelfNormalizedInverseProbabilityWeighting lam u) kw.
Proof.
  intros Eps H Hmean Hm Hc. unfold well_formed in H. rewrite Eps in H.
  pose proof (Qclt_neq Hc) as Hc0.
  destruct (conforms_pscore H) as (_ & Hs).
  destruct (mean_tabulated _ _ Hmean) as (Hn0 & Em).
  set (kw' := with_pscore kw (Some (map (fun x => c * x)%Qc ps))).
  assert (Hw : forall t, w (map (fun x => c * x)%Qc ps) kw' t = (w ps kw t / c)%Qc).
  { intros t. unfold w. rewrite nth_scaled.
    change (pi_e kw' t) with (pi_e kw t).
    destruct (Qc_eq_dec (nth t ps 0%Qc) 0%Qc) as [E|E].
    - rewrite E. unfold Qcdiv. rewrite Qcmult_0_r.
      replace (/ 0)%Qc with 0%Qc by reflexivity. ring.
    - field. auto. }
  assert (Hmean' : mean (per_round (n_rounds kw') (w (map (fun x => c * x)%Qc ps) kw'))
                   = Ok (m / c)%Qc).
  { change (n_rounds kw') with (n_rounds kw). unfold per_round.
    rewrite (mean_map _ Hn0), length_seq. f_equal.
    rewrite (map_ext _ _ Hw), (sum_map_div _ _ Hc0). rewrite Em.
    unfold per_round. field. split; [|exact Hc0].
    apply of_nat_pos. destruct (n_rounds kw); [now elim Hn0|lia]. }
  assert (Hm' : (m / c)%Qc <> 0%Qc).
  { intros X. apply Hm. replace m with (m / c * c)%Qc by (field; exact Hc0).
    rewrite X. ring. }
  rewrite (snipw_closed (kw := kw') eq_refl (conforms_scaled_pscore _ _ _ _ _ _ _ Hc H)
             lam u (m / c)%Qc Hmean' Hm').
  rewrite (snipw_closed Eps H lam u m Hmean Hm).
  apply f_equal. change (n_rounds kw') with (n_rounds kw).
  apply per_round_ext. intros t Ht. rewrite Hw.
  change (r kw' t) with (r kw t). field. auto.
Qed.

Lemma snipw_invariant_under_pscore_scaling_witness :
  pscore scenario = Some [half; half; half]
  /\ well_formed (SelfNormalizedInverseProbabilityWeighting PInf (PyBool false))
       scenario = true
  /\ mean (per_round (n_rounds scenario) (w [half; half; half] scenario)) = Ok two
  /\ two <> 0%Qc
  /\ (0 < half)%Qc
  /\ _estimate_round_rewards
       (SelfNormalizedInverseProbabilityWeighting PInf (PyBool false))
       (with_pscore scenario (Some (map (fun x => half * x)%Qc [half; half; half])))
     = _estimate_round_rewards
         (SelfNormalizedInverseProbabilityWeighting PInf (PyBool false)) scenario.
Proof.
  assert (H : well_formed (SelfNormalizedInverseProbabilityWeighting PInf (PyBool false))
                scenario = true) by (vm_compute; reflexivity).
  assert (Hm : mean (per_round (n_rounds scenario) (w [half; half; half] scenario))
               = Ok two) by (apply returns_eq; vm_compute; reflexivity).
  assert (H2 : two <> 0%Qc) by (apply Qceqb_false; vm_compute; reflexivity).
  assert (Hc : (0 < half)%Qc) by (apply Qcltb_true; vm_compute; reflexivity).
  split; [reflexivity|]. split; [exact H|]. split; [exact Hm|].
  split; [exact H2|]. split; [exact Hc|].
  exact (@snipw_invariant_under_pscore_scaling PInf (PyBool false) scenario
           [half; half; half] two half eq_refl H Hm H2 Hc).
Defined.
